(** * lpil-modules: grammar store, scope pruner, selector, tracer, caches

    A shallow embedding of the TextMate-grammar tooling of the repository
    (the [Grammars] class, the [DocumentCache] and [Structures] classes and the
    [runTMGTool] driver) together with the properties its specification states
    about them.

    Conventions of the embedding.
    - A JavaScript object used as a dictionary whose iteration order is
      observed ([Object.entries], [Object.keys]) is the list of its own
      entries in the order JavaScript enumerates them: keys that are array
      indices first, in ascending numeric order, then the other keys in the
      order of their creation.  Assigning to an existing key keeps its
      place; a new key is created at its place of that order ([obj_set]).
    - A dictionary that is only probed ([scopes2keep], [loadedGrammars],
      [knownBaseScopes], [patterns2keep]) is a [gmap] or a [gset] of its own
      properties.  The lookups of the pruner in [scopes2keep],
      [knownBaseScopes], the working map and a grammar's repository, and
      that of the loader in the original map, also find the members the
      object inherits from [Object.prototype] ([isInherited]).
    - Grammar files are JSON documents of the TextMate schema; the records
      below give every key the code reads its schema type, an absent key being
      [None].
    - Calls of the logger are modelled where a property speaks of what is
      logged ([loadGrammarFrom], [traceParseOf] with the functions it calls,
      [DocumentCache.loadFromFile] and [chooseBaseScope]); elsewhere they
      are left out, nothing in the code reads what they write.
    - Code that can recurse without bound takes a [fuel] argument and answers
      [None] when it runs out; a result [Some _] is independent of any extra
      fuel ([pruneGrammars_more_fuel]). *)

From stdpp Require Import base option list strings pretty gmap sorting.

Set Default Proof Using "Type".
Set Warnings "-register-all,-clear-no-such-hyp".

(** ** JavaScript strings and truthiness *)

(** [s.startsWith(p)] *)
Definition startsWith (s p : string) : bool := String.prefix p s.

(** [s.endsWith(p)] *)
Definition endsWith (s p : string) : bool :=
  String.prefix (String.rev p) (String.rev s).

(** [s.slice(1)] *)
Definition slice1 (s : string) : string :=
  match s with
  | EmptyString => EmptyString
  | String _ rest => rest
  end.

(** [s.substring(a, b)]: both indices are clamped to the length and swapped
    when out of order. *)
Definition js_substring (s : string) (a b : nat) : string :=
  let n := String.length s in
  let a' := a `min` n in
  let b' := b `min` n in
  let lo := a' `min` b' in
  let hi := a' `max` b' in
  String.substring lo (hi - lo) s.

(** Truthiness of an optional string-valued key: [undefined] and the empty
    string are falsy. *)
Definition truthyStr (o : option string) : bool :=
  match o with
  | Some s => negb (String.eqb s "")
  | None => false
  end.

(** The property key JavaScript derives from an optional string:
    [obj[undefined]] reads the key ["undefined"]. *)
Definition propKey (o : option string) : string := default "undefined" o.

(** The value a function hands back when the code returns a boolean on some
    paths and whatever a dictionary lookup gives (possibly [undefined]) on
    others. *)
Inductive jsret :=
  | RUndefined
  | RBool (b : bool)
  (** a member inherited from [Object.prototype]: a function or an object *)
  | RInherited.

Definition truthy (r : jsret) : bool :=
  match r with
  | RUndefined => false
  | RBool b => b
  | RInherited => true
  end.

(** The properties every plain object inherits from [Object.prototype].
    All of them are functions but [__proto__], whose getter gives
    [Object.prototype] itself. *)
Definition inheritedMembers : list string :=
  ["constructor"; "__defineGetter__"; "__defineSetter__"; "hasOwnProperty";
   "__lookupGetter__"; "__lookupSetter__"; "isPrototypeOf";
   "propertyIsEnumerable"; "toString"; "valueOf"; "__proto__";
   "toLocaleString"].

Definition isInherited (k : string) : bool :=
  bool_decide (k ∈ inheritedMembers).

(** The [name] of an inherited member: a function has the name it is
    inherited under, except that [constructor] is the function [Object];
    [Object.prototype] has none. *)
Definition inheritedName (k : string) : option string :=
  if String.eqb k "__proto__" then None
  else if String.eqb k "constructor" then Some "Object"
  else Some k.

(** [o[k]] for a plain object [o] whose own properties hold booleans. *)
Definition lookup_plain (o : gmap string bool) (k : string) : jsret :=
  match o !! k with
  | Some b => RBool b
  | None => if isInherited k then RInherited else RUndefined
  end.

(** ** Ordered objects *)

(** The own entries of an object, as [Object.entries] lists them. *)
Abbreviation obj V := (list (string * V)).

Fixpoint obj_get {V} (k : string) (o : obj V) : option V :=
  match o with
  | [] => None
  | (k', v) :: rest => if String.eqb k k' then Some v else obj_get k rest
  end.

(** An entry list written to in creation order: the entry of a key that is
    there keeps its place, a new entry goes last.  This is [m.set(k, v)] on
    the entries of a [Map]. *)
Fixpoint entries_set {V} (k : string) (v : V) (o : obj V) : obj V :=
  match o with
  | [] => [(k, v)]
  | (k', v') :: rest =>
      if String.eqb k k' then (k, v) :: rest
      else (k', v') :: entries_set k v rest
  end.

Definition digitOf (c : Ascii.ascii) : option N :=
  let n := Ascii.N_of_ascii c in
  if ((48 <=? n) && (n <=? 57))%N then Some (n - 48)%N else None.

Fixpoint decimal (s : string) (acc : N) : option N :=
  match s with
  | EmptyString => Some acc
  | String c rest =>
      match digitOf c with
      | Some d => decimal rest (10 * acc + d)%N
      | None => None
      end
  end.

(** The array index a property key stands for, if it is one: the key is the
    canonical decimal form (no leading zero) of an integer below
    [2^32 - 1]. *)
Definition arrayIndex (k : string) : option N :=
  match k with
  | EmptyString => None
  | String c rest =>
      if (Ascii.N_of_ascii c =? 48)%N && negb (String.eqb rest "") then None
      else
        match decimal k 0 with
        | Some n => if (n <? 4294967295)%N then Some n else None
        | None => None
        end
  end.

(** The place of a new array-index key among the entries: behind the array
    indices that are not greater, before everything else. *)
Fixpoint obj_insertIndex {V} (n : N) (k : string) (v : V) (o : obj V)
  : obj V :=
  match o with
  | [] => [(k, v)]
  | (k', v') :: rest =>
      match arrayIndex k' with
      | Some n' =>
          if (n' <=? n)%N then (k', v') :: obj_insertIndex n k v rest
          else (k, v) :: o
      | None => (k, v) :: o
      end
  end.

(** [o[k] = v]: an own property that is there keeps its place in the
    enumeration; a new array-index key is created among the array indices,
    any other new key behind all keys there are. *)
Definition obj_set {V} (k : string) (v : V) (o : obj V) : obj V :=
  if obj_get k o is Some _ then entries_set k v o
  else
    match arrayIndex k with
    | Some n => obj_insertIndex n k v o
    | None => o ++ [(k, v)]
    end.

(** [delete o[k]] *)
Fixpoint obj_delete {V} (k : string) (o : obj V) : obj V :=
  match o with
  | [] => []
  | (k', v') :: rest =>
      if String.eqb k k' then rest else (k', v') :: obj_delete k rest
  end.

(** [Object.keys(o)] *)
Definition obj_keys {V} (o : obj V) : list string := o.*1.

(** ** Grammar files *)

(** The keys of a rule.  [C] is the type of the rules held by the capture
    maps and by a rule's own repository; [P] is the type of its pattern
    array. *)
Record RuleOf (C P : Type) := MkRuleOf {
  r_name : option string;
  r_scopeName : option string;
  r_contentName : option string;
  r_match : option string;
  r_begin : option string;
  r_end : option string;
  r_captures : option (obj C);
  r_beginCaptures : option (obj C);
  r_endCaptures : option (obj C);
  r_patterns : option P;
  r_repository : option (obj C);
  r_include : option string
}.
Arguments MkRuleOf {C P}.
Arguments r_name {C P}.
Arguments r_scopeName {C P}.
Arguments r_contentName {C P}.
Arguments r_match {C P}.
Arguments r_begin {C P}.
Arguments r_end {C P}.
Arguments r_captures {C P}.
Arguments r_beginCaptures {C P}.
Arguments r_endCaptures {C P}.
Arguments r_patterns {C P}.
Arguments r_repository {C P}.
Arguments r_include {C P}.

(** A rule as [JSON.parse] delivers it: a tree. *)
Inductive Rule := MkRule (fields : RuleOf Rule (list Rule)).

Definition fieldsOf (r : Rule) : RuleOf Rule (list Rule) :=
  match r with MkRule f => f end.

(** The keys of a grammar.  [R] is the type of the repository's rules. *)
Record GrammarOf (R P : Type) := MkGrammarOf {
  g_scopeName : option string;
  g_patterns : option P;
  g_repository : option (obj R);
  g_fileTypes : option (list string);
  g_firstLineMatch : option string
}.
Arguments MkGrammarOf {R P}.
Arguments g_scopeName {R P}.
Arguments g_patterns {R P}.
Arguments g_repository {R P}.
Arguments g_fileTypes {R P}.
Arguments g_firstLineMatch {R P}.

Abbreviation Grammar := (GrammarOf Rule (list Rule)).

(** A rule with nothing but the given keys, for writing grammars down. *)
Definition emptyRule : RuleOf Rule (list Rule) :=
  MkRuleOf None None None None None None None None None None None None.

(** ** The world outside the repository *)

Record Token := MkToken {
  startIndex : nat;
  endIndex : nat;
  scopes : list string
}.

(** What the code calls and this repository's sources do not define: the
    path normalisers of the configuration modules, the file system together
    with [JSON.parse], the regular-expression engine behind [String.match],
    and the tokenizer of the grammar registry.  [RuleStack] is the
    tokenizer's continuation; it is only ever passed back to it. *)
Class Externals := {
  Config_normalizePath : string → string;
  Cfgr_normalizePath : string → string;
  (** [JSON.parse(await fsp.readFile(path, "utf8"))]; [None] when either
      throws *)
  readGrammarFile : string → option Grammar;
  (** [await fsp.readFile(path, "utf8")]; [None] when it throws *)
  readFile : string → option string;
  (** [subject.match(pattern)] is not [null]; the first argument is the
      pattern, which is taken to compile *)
  regexMatch : string → string → bool;
  RuleStack : Type;
  INITIAL : RuleStack;
  (** the scope names [registry.loadGrammar(baseScope)] hands to the
      [loadGrammar] callback it was created with, in the order of the
      calls: the registry reads the grammar and the grammars it includes
      from the working map through that callback *)
  requestedScopes : obj Grammar → string → list string;
  (** [(await registry.loadGrammar(baseScope)).tokenizeLine(line, stack)],
      the registry reading its grammars from the working map *)
  tokenizeLine : obj Grammar → string → string → RuleStack →
                 list Token * RuleStack
}.

(** ** Diagnostic log *)

Inductive Level := LTrace | LDebug | LWarn.

Inductive LogEntry :=
  | Log (lvl : Level) (msg : string)
  (** [logger.debug(yaml.stringify(someTokens))] *)
  | LogTokens (someTokens : list string)
  (** the four lines [Structures.logStructure] writes for a structure *)
  | LogStructure (aStructureName : string).

(** ** Arrays of strings *)

(** The order of [Array.prototype.sort] without a comparator. *)
Definition strLe (a b : string) : Prop := String.leb a b = true.

Global Instance strLe_dec a b : Decision (strLe a b).
Proof. unfold strLe. apply _. Defined.

Definition newline : Ascii.ascii := Ascii.ascii_of_nat 10.

(** [s.split(sep)] for a one-character separator; the result is never
    empty. *)
Fixpoint splitOn (sep : Ascii.ascii) (s : string) : list string :=
  match s with
  | EmptyString => [EmptyString]
  | String c rest =>
      if Ascii.eqb c sep then EmptyString :: splitOn sep rest
      else match splitOn sep rest with
           | [] => [String c EmptyString]
           | l :: ls => String c l :: ls
           end
  end.

(** * The structure store *)

Module Structures.

Section WithValues.
Context {V : Type}.

(** A JavaScript [Map] object.  What [set], [get] and [has] work on is the
    map's internal entry list, kept in insertion order; what [Object.keys]
    enumerates is the object's own enumerable properties.  These are two
    different things. *)
Record JsMap := MkJsMap {
  mapData : obj V;
  ownProps : obj V
}.

(** [new Map()] *)
Definition Map_new : JsMap := MkJsMap [] [].

Definition Map_has (k : string) (m : JsMap) : bool :=
  if obj_get k (mapData m) is Some _ then true else false.

Definition Map_get (k : string) (m : JsMap) : option V := obj_get k (mapData m).

Definition Map_set (k : string) (v : V) (m : JsMap) : JsMap :=
  MkJsMap (entries_set k v (mapData m)) (ownProps m).

Definition Object_keys (m : JsMap) : list string := obj_keys (ownProps m).

(** [static structs : Map<string, any> = new Map()] *)
Definition initial : JsMap := Map_new.

Definition newStructure (aStructureKey : string) (aStructureValue : V)
  (structs : JsMap) : option V * JsMap :=
  let structs :=
    if negb (Map_has aStructureKey structs)
    then Map_set aStructureKey aStructureValue structs
    else structs in
  (Map_get aStructureKey structs, structs).

Definition getStructure (aStructureKey : string) (structs : JsMap) : option V :=
  Map_get aStructureKey structs.

Definition getStructureNames (structs : JsMap) : list string :=
  merge_sort strLe (Object_keys structs).

Definition logStructure (aStructureName : string) (structs : JsMap)
  : list LogEntry :=
  if negb (Map_has aStructureName structs) then []
  else [Log LDebug "--structure--------------------------------------------------";
        Log LDebug aStructureName;
        Log LDebug "-------------------------";
        LogStructure aStructureName].

(** The stores the class can be in: [structs] is a private static that only
    [newStructure] writes to. *)
Inductive reachable : JsMap → Prop :=
  | reachable_initial : reachable initial
  | reachable_newStructure k v structs :
      reachable structs → reachable (newStructure k v structs).2.

End WithValues.
Arguments JsMap V : clear implicits.

(** [printStructure] and [printAllStructures] write lines to the console;
    [stringify] stands for [yaml.stringify]. *)
Section Printing.
Context {V : Type} (stringify : V → string).

Definition printStructure (aStructureName : string) (structs : JsMap V)
  : list string :=
  if negb (Map_has aStructureName structs) then []
  else ["--structure--------------------------------------------------";
        aStructureName;
        "-------------------------";
        from_option stringify "" (Map_get aStructureName structs)].

Definition printAllStructures (structs : JsMap V) : list string :=
  concat (map (λ aStructureName, printStructure aStructureName structs)
              (merge_sort strLe (Object_keys structs))).

End Printing.

End Structures.

(** * The document cache *)

Module DocumentCache.

Record Document := MkDocument {
  filePath : string;
  docName : string;
  docLines : list string
}.

(** [new Document()] *)
Definition Document_new : Document := MkDocument "" "" [].

Definition refreshFromStr (aDocName aDocStr : string) (doc : Document)
  : Document :=
  MkDocument (filePath doc) aDocName (splitOn newline aDocStr).

Section WithExternals.
Context `{Externals}.

(** The line [Document.loadFromFile] logs, which it does before it
    normalises the path and reads the file. *)
Definition Document_loadFromFile_log (aPath : string) : list LogEntry :=
  [Log LDebug ("loading document from " +:+ aPath)].

(** [Document.loadFromFile]; [None] when [fsp.readFile] throws. *)
Definition Document_loadFromFile (aPath : string) (doc : Document)
  : option Document :=
  let doc := MkDocument (Cfgr_normalizePath aPath) (docName doc) (docLines doc) in
  match readFile (filePath doc) with
  | None => None
  | Some aDocStr => Some (refreshFromStr aPath aDocStr doc)
  end.


Definition getDocument (aPath : string) (documents : gmap string Document)
  : option Document :=
  documents !! aPath.

(** [None] when the read throws, which happens before the cache is
    written. *)
Definition loadFromFile (aPath : string) (documents : gmap string Document)
  : option (Document * gmap string Document) :=
  match Document_loadFromFile aPath Document_new with
  | None => None
  | Some doc => Some (doc, <[aPath := doc]> documents)
  end.

(** What a call of [DocumentCache.loadFromFile] logs, whether the read
    succeeds or throws. *)
Definition loadFromFile_log (aPath : string) : list LogEntry :=
  Document_loadFromFile_log aPath.

Definition loadFromStr (docName docStr : string)
  (documents : gmap string Document) : Document * gmap string Document :=
  let doc := refreshFromStr docName docStr Document_new in
  (doc, <[docName := doc]> documents).

End WithExternals.

End DocumentCache.

(** * The grammar store *)

Module Grammars.

(** The static fields of the class. *)
Record State := MkState {
  scope2grammar : obj Grammar;
  originalScope2grammar : obj Grammar;
  loadedGrammars : gset string
}.

Definition initial : State := MkState [] [] ∅.

(** [deepcopy] of a grammar that is not mutated afterwards: on values the
    copy is the value.  The copies the pruner mutates are made by
    [copyGrammar] below, which gives every array an identity. *)
Definition deepcopy (aGrammar : Grammar) : Grammar := aGrammar.

(** How a call ends: it returns, or an exception leaves it. *)
Inductive Completion (A : Type) :=
  | Returned (a : A)
  | Threw (a : A).
Arguments Returned {A}.
Arguments Threw {A}.

(** What a call leaves behind, however it ends. *)
Definition outcome {A} (c : Completion A) : A :=
  match c with
  | Returned a | Threw a => a
  end.

Definition returned {A} (c : Completion A) : bool :=
  match c with
  | Returned _ => true
  | Threw _ => false
  end.

(** *** The registry's loader *)

(** The [loadGrammar] function [_initGrammarsClass] gives the registry:
    the grammar it returns and what it logs.  [scopeName in
    Grammars.scope2grammar] also holds of the name of a member the working
    map inherits; what is returned then is that member, which is no
    grammar ([None]), and nothing is logged. *)
Definition registryLoadGrammar (scopeName : string) (st : State)
  : option Grammar * list LogEntry :=
  match obj_get scopeName (scope2grammar st) with
  | Some aGrammar => (Some aGrammar, [])
  | None =>
      (None,
       if isInherited scopeName then []
       else [Log LWarn ("Unknown scope name: " +:+ scopeName)])
  end.

Section WithExternals.
Context `{Externals}.

(** What the callback logs while [Grammars.registry.loadGrammar(aBaseScope)]
    runs. *)
Definition registry_loadGrammar_log (st : State) (aBaseScope : string)
  : list LogEntry :=
  concat (map (λ scopeName, (registryLoadGrammar scopeName st).2)
              (requestedScopes (scope2grammar st) aBaseScope)).

(** *** chooseBaseScope *)

(** The first loop: first-line patterns. *)
Fixpoint firstLinePass (entries : obj Grammar) (aFirstLine : string)
  : option string :=
  match entries with
  | [] => None
  | (aBaseScope, aGrammar) :: rest =>
      match g_firstLineMatch aGrammar with
      | Some aRegExp =>
          if negb (String.eqb aRegExp "") && regexMatch aRegExp aFirstLine
          then Some aBaseScope
          else firstLinePass rest aFirstLine
      | None => firstLinePass rest aFirstLine
      end
  end.

(** The inner loop of the second pass, over one grammar's [fileTypes]. *)
Fixpoint anyFileType (someFileTypes : list string) (aDocPath : string) : bool :=
  match someFileTypes with
  | [] => false
  | aFileExt :: rest =>
      if endsWith aDocPath aFileExt then true else anyFileType rest aDocPath
  end.

(** The second loop: file extensions. *)
Fixpoint fileTypesPass (entries : obj Grammar) (aDocPath : string)
  : option string :=
  match entries with
  | [] => None
  | (aBaseScope, aGrammar) :: rest =>
      match g_fileTypes aGrammar with
      | Some someFileTypes =>
          if anyFileType someFileTypes aDocPath then Some aBaseScope
          else fileTypesPass rest aDocPath
      | None => fileTypesPass rest aDocPath
      end
  end.

(** [None] is the [undefined] the function falls off with after its
    "no match found" warning.  The entries are those of
    [Object.entries(Grammars.scope2grammar)], in their order. *)
Definition chooseBaseScope (st : State) (aDocPath aFirstLine : string)
  : option string :=
  match firstLinePass (scope2grammar st) aFirstLine with
  | Some aBaseScope => Some aBaseScope
  | None => fileTypesPass (scope2grammar st) aDocPath
  end.

(** What the first loop logs: a line for every grammar with a first-line
    pattern, up to and including the one that matches. *)
Fixpoint firstLinePass_log (entries : obj Grammar) (aFirstLine : string)
  : list LogEntry :=
  match entries with
  | [] => []
  | (aBaseScope, aGrammar) :: rest =>
      match g_firstLineMatch aGrammar with
      | Some aRegExp =>
          if negb (String.eqb aRegExp "") then
            Log LTrace ("Checking firstLineMatch for " +:+ aBaseScope)
            :: (if regexMatch aRegExp aFirstLine then []
                else firstLinePass_log rest aFirstLine)
          else firstLinePass_log rest aFirstLine
      | None => firstLinePass_log rest aFirstLine
      end
  end.

(** What the inner loop of the second pass logs: a line for every file
    extension, up to and including the one the path ends with. *)
Fixpoint anyFileType_log (aBaseScope : string) (someFileTypes : list string)
  (aDocPath : string) : list LogEntry :=
  match someFileTypes with
  | [] => []
  | aFileExt :: rest =>
      Log LTrace ("Checking " +:+ aBaseScope +:+ " file type (" +:+ aFileExt
                  +:+ ") against [" +:+ aDocPath +:+ "]")
      :: (if endsWith aDocPath aFileExt then []
          else anyFileType_log aBaseScope rest aDocPath)
  end.

Fixpoint fileTypesPass_log (entries : obj Grammar) (aDocPath : string)
  : list LogEntry :=
  match entries with
  | [] => []
  | (aBaseScope, aGrammar) :: rest =>
      match g_fileTypes aGrammar with
      | Some someFileTypes =>
          anyFileType_log aBaseScope someFileTypes aDocPath
          ++ (if anyFileType someFileTypes aDocPath then []
              else fileTypesPass_log rest aDocPath)
      | None => fileTypesPass_log rest aDocPath
      end
  end.

(** What a call of [chooseBaseScope] logs. *)
Definition chooseBaseScope_log (st : State) (aDocPath aFirstLine : string)
  : list LogEntry :=
  firstLinePass_log (scope2grammar st) aFirstLine
  ++ match firstLinePass (scope2grammar st) aFirstLine with
     | Some _ => []
     | None =>
         fileTypesPass_log (scope2grammar st) aDocPath
         ++ match fileTypesPass (scope2grammar st) aDocPath with
            | Some _ => []
            | None => [Log LWarn "chooseBaseScope: no match found!"]
            end
     end.

(** *** traceParseOf *)

Section Tracing.
Context {V : Type}.

(** One include/exclude filter of the configuration, as regular-expression
    sources. *)
Record TraceOpts := MkTraceOpts {
  opt_include : list string;
  opt_exclude : list string
}.

Record Config := MkConfig {
  trace : bool;
  traceLines : TraceOpts;
  traceScopes : TraceOpts;
  traceActions : TraceOpts;
  traceStructures : TraceOpts
}.

(** The arguments of [anAction.run(aScope, someTokens, lineNum, aDoc,
    traceOutput)]. *)
Record Invocation := MkInvocation {
  i_scope : string;
  i_tokens : list string;
  i_lineNum : nat;
  i_doc : DocumentCache.Document;
  i_trace : bool
}.

(** A registered action: its handler works on the structure store and may
    fail ([None]). *)
Record Action := MkAction {
  a_name : string;
  a_run : Invocation → Structures.JsMap V → option (Structures.JsMap V)
}.

(** What a run has done so far: handler invocations in order, diagnostic
    log, structure store. *)
Record Progress := MkProgress {
  calls : list (string * Invocation);
  log : list LogEntry;
  structs : Structures.JsMap V
}.

Definition say (entries : list LogEntry) (p : Progress) : Progress :=
  MkProgress (calls p) (log p ++ entries) (structs p).

(** The first expression of the list that [aStr.match] accepts. *)
Fixpoint firstMatch (someRegExps : list string) (aStr : string)
  : option string :=
  match someRegExps with
  | [] => None
  | aRegExp :: rest =>
      if regexMatch aRegExp aStr then Some aRegExp else firstMatch rest aStr
  end.

(** [traceObj], in both of its definitions: with [config['trace']] unset it
    is the constant [false]. *)
Definition traceObj (config : Config) (traceOpts : TraceOpts) (aStr : string)
  : bool * list LogEntry :=
  if trace config then
    match (if 0 <? length (opt_exclude traceOpts)
           then firstMatch (opt_exclude traceOpts) aStr else None) with
    | Some aRegExp =>
        (false, [Log LDebug ("[" +:+ aStr +:+ "] EXCLUDED by ["
                             +:+ aRegExp +:+ "]")])
    | None =>
        if 0 <? length (opt_include traceOpts) then
          match firstMatch (opt_include traceOpts) aStr with
          | Some aRegExp =>
              (true, [Log LDebug ("[" +:+ aStr +:+ "] INCLUDED by ["
                                  +:+ aRegExp +:+ "]")])
          | None => (false, [Log LDebug "No match found in traceObj"])
          end
        else (true, [])
    end
  else (false, []).

(** The loop over [aToken.scopes]: the scope filter is consulted for every
    scope, and a scope with registered actions gets the token's text pushed
    on its bucket in [scopes2run]. *)
Definition visitScopes (config : Config) (scopesWithActions : obj (list Action))
  (showLine : bool) (aLine : string) (aToken : Token)
  (acc : obj (list string) * list LogEntry) : obj (list string) * list LogEntry :=
  foldl (λ acc aScope,
           let '(scopes2run, out) := acc in
           let '(showScope, out1) := traceObj config (traceScopes config) aScope in
           let out2 := if showLine && showScope
                       then [Log LDebug ("     " +:+ aScope)] else [] in
           (if obj_get aScope scopesWithActions is Some _ then
              obj_set aScope
                (default [] (obj_get aScope scopes2run)
                 ++ [js_substring aLine (startIndex aToken) (endIndex aToken)])
                scopes2run
            else scopes2run,
            out ++ out1 ++ out2))
        acc (scopes aToken).

(** The loop over [lineTokens.tokens]. *)
Definition visitTokens (config : Config) (scopesWithActions : obj (list Action))
  (showLine : bool) (aLine : string) (someTokens : list Token)
  : obj (list string) * list LogEntry :=
  foldl (λ acc aToken,
           let out :=
             if showLine
             then [Log LDebug (" - token from " +:+ pretty (startIndex aToken)
                               +:+ " to " +:+ pretty (endIndex aToken)
                               +:+ " ("
                               +:+ js_substring aLine (startIndex aToken)
                                                      (endIndex aToken)
                               +:+ ") with scopes:")]
             else [] in
           visitScopes config scopesWithActions showLine aLine aToken
                       (acc.1, acc.2 ++ out))
        ([], []) someTokens.

(** [for (const anAction of scopesWithActions[aScope]) await anAction.run(...)] *)
Fixpoint runActions (someActions : list Action) (inv : Invocation)
  (p : Progress) : Completion Progress :=
  match someActions with
  | [] => Returned p
  | anAction :: rest =>
      let p := MkProgress (calls p ++ [(a_name anAction, inv)]) (log p)
                          (structs p) in
      match a_run anAction inv (structs p) with
      | None => Threw p
      | Some structs' =>
          runActions rest inv (MkProgress (calls p) (log p) structs')
      end
  end.

(** The loop over [structureNames] after a scope's actions have run. *)
Definition logStructures (config : Config) (structureNames : list string)
  (p : Progress) : Progress :=
  foldl (λ p aStructureName,
           let '(show, out) :=
             traceObj config (traceStructures config) aStructureName in
           let p := say out p in
           if show then say (Structures.logStructure aStructureName (structs p)) p
           else p)
        p structureNames.

(** The loop over [Object.entries(scopes2run)]. *)
Fixpoint dispatch (config : Config) (scopesWithActions : obj (list Action))
  (structureNames : list string) (showLine : bool) (lineNum : nat)
  (aDoc : DocumentCache.Document) (scopes2run : obj (list string))
  (p : Progress) : Completion Progress :=
  match scopes2run with
  | [] => Returned p
  | (aScope, someTokens) :: rest =>
      let '(showScope, out1) := traceObj config (traceScopes config) aScope in
      let '(showAction, out2) := traceObj config (traceActions config) aScope in
      let shown := showLine && showScope && showAction in
      let p := say (out1 ++ out2) p in
      let p :=
        if shown then
          say ([Log LDebug ">>>>>>>>>>>>>>>>>>>>>>>>>>>>>>>>>>>>>>>>>>>>>>>>>>>>>"]
               ++ (if showLine && showScope
                   then [Log LDebug (aScope +:+ " :"); LogTokens someTokens]
                   else [])) p
        else p in
      match runActions (default [] (obj_get aScope scopesWithActions))
              (MkInvocation aScope someTokens lineNum aDoc (trace config)) p with
      | Threw p => Threw p
      | Returned p =>
          let p :=
            if shown then
              say [Log LDebug "<<<<<<<<<<<<<<<<<<<<<<<<<<<<<<<<<<<<<<<<<<<<<<<<<<<<<"]
                  (logStructures config structureNames p)
            else p in
          dispatch config scopesWithActions structureNames showLine lineNum
                   aDoc rest p
      end
  end.

(** The loop over [aDoc.docLines]; [lineNum] is the number of the line at
    the head of [someLines]. *)
Fixpoint traceLinesFrom (config : Config) (scopesWithActions : obj (list Action))
  (structureNames : list string) (st : State) (aBaseScope : string)
  (aDoc : DocumentCache.Document) (someLines : list string) (lineNum : nat)
  (ruleStack : RuleStack) (p : Progress) : Completion Progress :=
  match someLines with
  | [] => Returned p
  | aLine :: rest =>
      let '(someTokens, ruleStack') :=
        tokenizeLine (scope2grammar st) aBaseScope aLine ruleStack in
      let '(showLine, out1) := traceObj config (traceLines config) aLine in
      let p := say out1 p in
      let p :=
        if showLine
        then say [Log LDebug (String newline
                                ("Tokenizing line[" +:+ pretty lineNum
                                 +:+ "]: >>" +:+ aLine +:+ "<< ("
                                 +:+ pretty (String.length aLine) +:+ ")"))] p
        else p in
      let '(scopes2run, out2) :=
        visitTokens config scopesWithActions showLine aLine someTokens in
      match dispatch config scopesWithActions structureNames showLine lineNum
              aDoc scopes2run (say out2 p) with
      | Threw p => Threw p
      | Returned p =>
          traceLinesFrom config scopesWithActions structureNames st aBaseScope
                         aDoc rest (S lineNum) ruleStack' p
      end
  end.

Definition noBaseScope (aDoc : DocumentCache.Document) : list LogEntry :=
  [Log LWarn "WARNING: Could not find the base scope for the document";
   Log LWarn ("  " +:+ DocumentCache.docName aDoc)].

(** The three lines logged once a base scope has been chosen. *)
Definition banner (aDocPath aBaseScope : string) : list LogEntry :=
  [Log LTrace (String newline
     "--TRACING--------------------------------------------------------");
   Log LTrace (aDocPath +:+ " (using " +:+ aBaseScope +:+ ")");
   Log LTrace "-----------------------------------------------------------------"].

(** [traceParseOf(aDocPath, config)].  [scopesWithActions] is what
    [ScopeActions.getScopesWithActions()] returns; the document cache and
    the structure store are the static fields of their classes.  The log
    has what the call and the functions it calls write, in the order in
    which they write it. *)
Definition traceParseOf (aDocPath : string) (config : Config)
  (scopesWithActions : obj (list Action)) (st : State)
  (documents : gmap string DocumentCache.Document)
  (structs : Structures.JsMap V)
  : Completion (Progress * gmap string DocumentCache.Document) :=
  let p := MkProgress [] (DocumentCache.loadFromFile_log aDocPath) structs in
  match DocumentCache.loadFromFile aDocPath documents with
  | None => Threw (p, documents)
  | Some (aDoc, documents) =>
      let aFirstLine := default "" (head (DocumentCache.docLines aDoc)) in
      let p :=
        say (chooseBaseScope_log st (DocumentCache.filePath aDoc) aFirstLine)
            p in
      match chooseBaseScope st (DocumentCache.filePath aDoc) aFirstLine with
      | Some aBaseScope =>
          if negb (String.eqb aBaseScope "") then
            let p := say (banner aDocPath aBaseScope) p in
            let p := say (registry_loadGrammar_log st aBaseScope) p in
            let structureNames := Structures.getStructureNames structs in
            match traceLinesFrom config scopesWithActions structureNames st
                    aBaseScope aDoc (DocumentCache.docLines aDoc) 0 INITIAL p with
            | Returned p => Returned (p, documents)
            | Threw p => Threw (p, documents)
            end
          else Returned (say (noBaseScope aDoc) p, documents)
      | None => Returned (say (noBaseScope aDoc) p, documents)
      end
  end.

End Tracing.

(** *** loadGrammarFrom *)

(** [o[k]] is truthy, for a plain object [o] whose own properties hold
    grammars: a key that is no own property is looked up in
    [Object.prototype]. *)
Definition hasGrammar (k : string) (o : obj Grammar) : bool :=
  if obj_get k o is Some _ then true else isInherited k.

(** The tail of [loadGrammarFrom], from [if (aGrammar['scopeName'])] on. *)
Definition registerGrammar (aGrammar : Grammar) (st : State)
  : State * list LogEntry :=
  let '(originals, log) :=
    if truthyStr (g_scopeName aGrammar) then
      let baseScope := propKey (g_scopeName aGrammar) in
      (obj_set baseScope aGrammar (originalScope2grammar st),
       if hasGrammar baseScope (originalScope2grammar st) then
         [Log LWarn ("WARNING: you are over-writing an existing "
                     +:+ baseScope +:+ " grammar")]
       else [])
    else (originalScope2grammar st, []) in
  (MkState
     (foldl (λ s2g aScopeGrammar,
               obj_set aScopeGrammar.1 (deepcopy aScopeGrammar.2) s2g)
            (scope2grammar st) originals)
     originals
     (loadedGrammars st),
   log).

Definition loadGrammarFrom (aGrammarPath : string) (st : State)
  : Completion (State * list LogEntry) :=
  if endsWith aGrammarPath ".json" then
    if decide (aGrammarPath ∈ loadedGrammars st) then
      Returned (st, [Log LTrace ("Warning you have already loaded "
                                 +:+ aGrammarPath)])
    else
      let aGrammarPath := Config_normalizePath aGrammarPath in
      if decide (aGrammarPath ∈ loadedGrammars st) then
        Returned (st, [Log LTrace ("Warning you have already loaded "
                                   +:+ aGrammarPath)])
      else
        let st1 := MkState (scope2grammar st) (originalScope2grammar st)
                           ({[aGrammarPath]} ∪ loadedGrammars st) in
        let log1 := [Log LDebug ("loading grammar from " +:+ aGrammarPath)] in
        match readGrammarFile aGrammarPath with
        | None => Threw (st1, log1)
        | Some aGrammar =>
            let '(st2, log2) := registerGrammar aGrammar st1 in
            Returned (st2, log1 ++ log2)
        end
  else
    Returned (st, [Log LWarn "At the moment we can ONLY load JSON Grammars!"]).

End WithExternals.

(** *** getKnownScopes *)

Definition addName (aName : option string) (knownScopes : obj bool) : obj bool :=
  if truthyStr aName then obj_set (propKey aName) true knownScopes
  else knownScopes.

Fixpoint addScopesFromRule (aRule : Rule) (knownScopes : obj bool) : obj bool :=
  let addScopesFromPatterns (somePatterns : option (list Rule)) knownScopes :=
    match somePatterns with
    | None => knownScopes
    | Some somePatterns =>
        foldl (λ known aPattern, addScopesFromRule aPattern known)
              knownScopes somePatterns
    end in
  let addScopesFromEntries (someEntries : option (obj Rule)) knownScopes :=
    match someEntries with
    | None => knownScopes
    | Some someEntries =>
        foldl (λ known aKeyValue, addScopesFromRule aKeyValue.2 known)
              knownScopes someEntries
    end in
  match aRule with
  | MkRule f =>
      let known := addName (r_name f) knownScopes in
      let known := addName (r_scopeName f) known in
      let known := addName (r_contentName f) known in
      let known := addScopesFromPatterns (r_patterns f) known in
      let known := addScopesFromEntries (r_repository f) known in
      let known := addScopesFromEntries (r_captures f) known in
      let known := addScopesFromEntries (r_beginCaptures f) known in
      addScopesFromEntries (r_endCaptures f) known
  end.

Definition addScopesFromPatterns (somePatterns : option (list Rule))
  (knownScopes : obj bool) : obj bool :=
  match somePatterns with
  | None => knownScopes
  | Some somePatterns =>
      foldl (λ known aPattern, addScopesFromRule aPattern known)
            knownScopes somePatterns
  end.

(** [addScopesFromRepository] and [addScopesFromCaptures] have one body. *)
Definition addScopesFromRepository (aRepository : option (obj Rule))
  (knownScopes : obj bool) : obj bool :=
  match aRepository with
  | None => knownScopes
  | Some aRepository =>
      foldl (λ known aKeyValue, addScopesFromRule aKeyValue.2 known)
            knownScopes aRepository
  end.

Definition getKnownScopes (st : State) : list string :=
  merge_sort strLe
    (obj_keys
       (foldl (λ known aScopeGrammar,
                 addScopesFromRepository (g_repository aScopeGrammar.2)
                   (addScopesFromPatterns (g_patterns aScopeGrammar.2)
                      (obj_set aScopeGrammar.1 true known)))
              [] (scope2grammar st))).

(** *** pruneGrammars *)

(** The pruner mutates its working copies in place: [keepPatterns] splices
    pattern arrays while callers further up still iterate over them or hold
    their elements, and rules reached through [#key] includes are shared by
    every rule that includes them.  So each pattern array of a working copy
    has an address.  A working rule carries, for its [patterns] key, the
    address of the array and the elements the array was created with; the
    array's present contents are in the store (see [PState]).  Every other
    key of a rule is never assigned to, so a rule is passed by value. *)
Inductive WRule := MkWRule (fields : RuleOf Rule (nat * list WRule)).

Definition wfieldsOf (w : WRule) : RuleOf Rule (nat * list WRule) :=
  match w with MkWRule f => f end.

Abbreviation WGrammar := (GrammarOf WRule (nat * list WRule)).

(** [deepcopy] of a rule that will be mutated: every pattern array of the
    copy gets the next free address.  Capture maps and a rule's own
    repository are not touched by the pruner and are copied as values. *)
Fixpoint copyRule (aRule : Rule) (next : nat) : WRule * nat :=
  match aRule with
  | MkRule f =>
      let '(somePatterns, next) :=
        match r_patterns f with
        | None => (None, next)
        | Some ps =>
            let '(ws, next) :=
              (fix copyRules (ps : list Rule) (next : nat) : list WRule * nat :=
                 match ps with
                 | [] => ([], next)
                 | p :: ps =>
                     let '(w, next) := copyRule p next in
                     let '(ws, next) := copyRules ps next in
                     (w :: ws, next)
                 end) ps next in
            (Some (next, ws), S next)
        end in
      (MkWRule (MkRuleOf (r_name f) (r_scopeName f) (r_contentName f)
                  (r_match f) (r_begin f) (r_end f)
                  (r_captures f) (r_beginCaptures f) (r_endCaptures f)
                  somePatterns (r_repository f) (r_include f)),
       next)
  end.

Fixpoint copyRules (ps : list Rule) (next : nat) : list WRule * nat :=
  match ps with
  | [] => ([], next)
  | p :: ps =>
      let '(w, next) := copyRule p next in
      let '(ws, next) := copyRules ps next in
      (w :: ws, next)
  end.

Fixpoint copyRepository (aRepository : obj Rule) (next : nat)
  : obj WRule * nat :=
  match aRepository with
  | [] => ([], next)
  | (aKey, aRule) :: rest =>
      let '(w, next) := copyRule aRule next in
      let '(ws, next) := copyRepository rest next in
      ((aKey, w) :: ws, next)
  end.

Definition copyGrammar (aGrammar : Grammar) (next : nat) : WGrammar * nat :=
  let '(somePatterns, next) :=
    match g_patterns aGrammar with
    | None => (None, next)
    | Some ps =>
        let '(ws, next) := copyRules ps next in (Some (next, ws), S next)
    end in
  let '(aRepository, next) :=
    match g_repository aGrammar with
    | None => (None, next)
    | Some repo =>
        let '(wrepo, next) := copyRepository repo next in (Some wrepo, next)
    end in
  (MkGrammarOf (g_scopeName aGrammar) somePatterns aRepository
     (g_fileTypes aGrammar) (g_firstLineMatch aGrammar),
   next).

(** The objects the pruner works on.
    - [store] gives, for the address of a pattern array that has been
      spliced, the elements still in the array, as their positions among the
      elements it was created with (an array never gains an element); an
      array that was never spliced has no entry.
    - [s2g] is the working map.
    - [scopes2keep] is the caller's keep-set, which [keepGrammar] writes to,
      and [knownBaseScopes] the object of the base scopes visited; both
      hold the own properties, and what a lookup finds besides is in
      [lookup_plain] and [inKnownBaseScopes].
    - [p2kObjects] holds the [patterns2keep] object of every [keepGrammar]
      activation; the functions pass its index around as the source passes
      the reference.  Its keys are read with a leading [#] only, which no
      inherited member has. *)
Record PState := MkPState {
  store : gmap nat (list nat);
  s2g : obj WGrammar;
  scopes2keep : gmap string bool;
  knownBaseScopes : gset string;
  p2kObjects : list (gset string)
}.

(** The present contents of a pattern array, as positions. *)
Definition present (st : PState) (somePatterns : nat * list WRule) : list nat :=
  default (seq 0 (length somePatterns.2)) (store st !! somePatterns.1).

(** [scopes2keep[k]] is truthy.  The keep-set is a plain object: a key
    that is no own property of it is looked up in [Object.prototype]. *)
Definition inKeepSet (st : PState) (k : string) : bool :=
  truthy (lookup_plain (scopes2keep st) k).

(** [knownBaseScopes[k]] is truthy; [knownBaseScopes] is a plain object
    too. *)
Definition inKnownBaseScopes (st : PState) (k : string) : bool :=
  bool_decide (k ∈ knownBaseScopes st) || isInherited k.

(** What [keepRule] reads of a member of [Object.prototype]: of the keys of
    a rule such a function or object has none but, if it is a function, a
    [name]. *)
Definition inheritedRule (k : string) : WRule :=
  MkWRule (MkRuleOf (inheritedName k) None None None None None None None None
                    None None None).

(** What [keepGrammar] reads of a member of [Object.prototype]: it has
    neither [patterns] nor a [repository]. *)
Definition inheritedGrammar : WGrammar :=
  MkGrammarOf None None None None None.

(** [gRepo[k]]: a repository is a plain object. *)
Definition lookup_repository (k : string) (gRepo : obj WRule) : option WRule :=
  match obj_get k gRepo with
  | Some w => Some w
  | None => if isInherited k then Some (inheritedRule k) else None
  end.

(** [s2g[k]]: the working map is a plain object. *)
Definition lookup_s2g (st : PState) (k : string) : option WGrammar :=
  match obj_get k (s2g st) with
  | Some w => Some w
  | None => if isInherited k then Some inheritedGrammar else None
  end.

(** [patterns2keep[k]] is truthy. *)
Definition inPatterns2keep (st : PState) (patterns2keep : nat) (k : string)
  : bool :=
  bool_decide (k ∈ default ∅ (p2kObjects st !! patterns2keep)).

Definition setStore (a : nat) (mask : list nat) (st : PState) : PState :=
  MkPState (<[a := mask]> (store st)) (s2g st) (scopes2keep st)
           (knownBaseScopes st) (p2kObjects st).

Definition setS2g (o : obj WGrammar) (st : PState) : PState :=
  MkPState (store st) o (scopes2keep st) (knownBaseScopes st) (p2kObjects st).

Definition setScopes2keep (k : string) (b : bool) (st : PState) : PState :=
  MkPState (store st) (s2g st) (<[k := b]> (scopes2keep st))
           (knownBaseScopes st) (p2kObjects st).

Definition setKnownBaseScope (k : string) (st : PState) : PState :=
  MkPState (store st) (s2g st) (scopes2keep st)
           ({[k]} ∪ knownBaseScopes st) (p2kObjects st).

Definition setPatterns2keep (patterns2keep : nat) (k : string) (st : PState)
  : PState :=
  MkPState (store st) (s2g st) (scopes2keep st) (knownBaseScopes st)
           (alter (λ o, {[k]} ∪ o) patterns2keep (p2kObjects st)).

(** [const patterns2keep = {}] *)

(** Computations on the pruner's objects that may run out of fuel. *)
Definition M (A : Type) : Type := PState → option (A * PState).

Definition ret {A} (a : A) : M A := λ st, Some (a, st).

Definition bind {A B} (m : M A) (k : A → M B) : M B :=
  λ st, match m st with
        | None => None
        | Some (a, st') => k a st'
        end.

Definition get : M PState := λ st, Some (st, st).

Definition modify (f : PState → PState) : M unit := λ st, Some (tt, f st).

Definition outOfFuel {A} : M A := λ _, None.

(** [const patterns2keep = {}] *)
Definition newPatterns2keep : M nat :=
  λ st, Some (length (p2kObjects st),
              MkPState (store st) (s2g st) (scopes2keep st)
                       (knownBaseScopes st) (p2kObjects st ++ [∅])).

Notation "'do' x ← m ; k" := (bind m (λ x, k))
  (at level 10, x name, m at level 100, k at level 200,
   format "'[v' 'do'  x  ←  m ; '/' k ']'").
Notation "m ;; k" := (bind m (λ _, k))
  (at level 100, k at level 200, right associativity).

Definition keepScope (st : PState) (aScope : option string) : bool :=
  if negb (truthyStr aScope) then false
  else if inKeepSet st (propKey aScope) then true
  else false.

(** Only the [name] of each capture is looked at, and a capture without one
    is looked up as ["undefined"]. *)
Definition keepCapture (st : PState) (someCaptures : option (obj Rule)) : bool :=
  match someCaptures with
  | None => false
  | Some someCaptures =>
      existsb (λ aCapture, inKeepSet st (propKey (r_name (fieldsOf aCapture.2))))
              someCaptures
  end.

(** The four mutually recursive functions, and the [for ... of] loop of
    [keepPatterns] as a fifth: the array iterator reads the array anew at
    every step, so it sees what a nested call has spliced. *)
Fixpoint keepRule (fuel : nat) (aRule : option WRule) (patterns2keep : nat)
  (gRepo : obj WRule) {struct fuel} : M bool :=
  match fuel with
  | 0 => outOfFuel
  | S fuel =>
      match aRule with
      | None => ret false
      | Some (MkWRule f) =>
          do st ← get;
          if keepScope st (r_name f) then ret true
          else if keepScope st (r_contentName f) then ret true
          else if keepCapture st (r_captures f) then ret true
          else if keepCapture st (r_beginCaptures f) then ret true
          else if keepCapture st (r_endCaptures f) then ret true
          else
            do keptPatterns ← keepPatterns fuel (r_patterns f) patterns2keep gRepo;
            if keptPatterns then ret true
            else
              do keptInclude ← keepInclude fuel (r_include f) patterns2keep gRepo;
              if truthy keptInclude then
                modify (setPatterns2keep patterns2keep (propKey (r_include f))) ;;
                ret true
              else ret false
      end
  end

with keepPatterns (fuel : nat) (somePatterns : option (nat * list WRule))
  (patterns2keep : nat) (gRepo : obj WRule) {struct fuel} : M bool :=
  match fuel with
  | 0 => outOfFuel
  | S fuel =>
      match somePatterns with
      | None => ret false
      | Some somePatterns =>
          do pats2delete ←
            keepPatternsLoop fuel somePatterns 0 [] patterns2keep gRepo;
          do st ← get;
          let remaining :=
            foldl (λ arr anIndex, delete anIndex arr)
                  (present st somePatterns) pats2delete in
          modify (setStore somePatterns.1 remaining) ;;
          ret (0 <? length remaining)
      end
  end

with keepPatternsLoop (fuel : nat) (somePatterns : nat * list WRule)
  (anIndex : nat) (pats2delete : list nat)
  (patterns2keep : nat) (gRepo : obj WRule) {struct fuel} : M (list nat) :=
  match fuel with
  | 0 => outOfFuel
  | S fuel =>
      do st ← get;
      match present st somePatterns !! anIndex with
      | None => ret pats2delete
      | Some position =>
          do kept ← keepRule fuel (somePatterns.2 !! position)
                      patterns2keep gRepo;
          keepPatternsLoop fuel somePatterns (S anIndex)
            (if kept then pats2delete else anIndex :: pats2delete)
            patterns2keep gRepo
      end
  end

with keepInclude (fuel : nat) (anInclude : option string)
  (patterns2keep : nat) (gRepo : obj WRule) {struct fuel} : M jsret :=
  match fuel with
  | 0 => outOfFuel
  | S fuel =>
      if negb (truthyStr anInclude) then ret (RBool false)
      else
        let anInclude := propKey anInclude in
        if startsWith anInclude "$" then ret (RBool false)
        else if startsWith anInclude "#" then
          do st ← get;
          if inPatterns2keep st patterns2keep anInclude then ret (RBool true)
          else
            do kept ← keepRule fuel (lookup_repository (slice1 anInclude) gRepo)
                        patterns2keep gRepo;
            if kept then ret (RBool true) else ret (RBool false)
        else
          do st ← get;
          if inKeepSet st anInclude then ret (RBool true)
          else
            match lookup_s2g st anInclude with
            | Some aGrammar =>
                do kept ← keepGrammar fuel anInclude aGrammar;
                if truthy kept then ret (RBool true) else ret (RBool false)
            | None => ret RUndefined
            end
  end

with keepGrammar (fuel : nat) (aBaseScope : string) (aGrammar : WGrammar)
  {struct fuel} : M jsret :=
  match fuel with
  | 0 => outOfFuel
  | S fuel =>
      do st ← get;
      if inKnownBaseScopes st aBaseScope then
        ret (lookup_plain (scopes2keep st) aBaseScope)
      else
        modify (setKnownBaseScope aBaseScope) ;;
        if inKeepSet st aBaseScope then ret (RBool true)
        else
          match g_patterns aGrammar with
          | None => ret (RBool false)
          | Some somePatterns =>
              do patterns2keep ← newPatterns2keep;
              let gRepo := default [] (g_repository aGrammar) in
              do keepThePatterns ←
                keepPatterns fuel (Some somePatterns) patterns2keep gRepo;
              do st ← get;
              (match g_repository aGrammar with
               | Some _ =>
                   modify (setS2g
                     (obj_set aBaseScope
                        (MkGrammarOf (g_scopeName aGrammar)
                           (g_patterns aGrammar)
                           (Some (foldl
                              (λ repo aKeyRule,
                                 if inPatterns2keep st patterns2keep
                                      ("#" +:+ aKeyRule.1)
                                 then repo
                                 else obj_delete aKeyRule.1 repo)
                              gRepo gRepo))
                           (g_fileTypes aGrammar)
                           (g_firstLineMatch aGrammar))
                        (s2g st)))
               | None => ret tt
               end) ;;
              modify (setScopes2keep aBaseScope keepThePatterns) ;;
              ret (RBool keepThePatterns)
          end
  end.

(** The loop at the end of [pruneGrammars], over [Object.entries(s2g)]. *)
Fixpoint keepGrammars (fuel : nat) (entries : obj WGrammar) : M unit :=
  match entries with
  | [] => ret tt
  | (aBaseScope, aGrammar) :: rest =>
      keepGrammar fuel aBaseScope aGrammar ;; keepGrammars fuel rest
  end.

(** The loop at the start of [pruneGrammars]: a fresh working map of deep
    copies. *)
Definition copyOriginals (originals : obj Grammar) : obj WGrammar * nat :=
  foldl (λ acc aScopeGrammar,
           let '(w, next) := copyGrammar aScopeGrammar.2 acc.2 in
           (obj_set aScopeGrammar.1 w acc.1, next))
        ([], 0) originals.

(** What a working copy looks like to a reader once the pruner is done: each
    pattern array with the elements the store says are still in it. *)
Fixpoint readRule (sto : gmap nat (list nat)) (w : WRule) : Rule :=
  match w with
  | MkWRule f =>
      MkRule (MkRuleOf (r_name f) (r_scopeName f) (r_contentName f)
                (r_match f) (r_begin f) (r_end f)
                (r_captures f) (r_beginCaptures f) (r_endCaptures f)
                (match r_patterns f with
                 | None => None
                 | Some (a, elems) =>
                     Some (omap (λ position, map (readRule sto) elems !! position)
                                (default (seq 0 (length elems)) (sto !! a)))
                 end)
                (r_repository f) (r_include f))
  end.

Definition readPatterns (sto : gmap nat (list nat))
  (somePatterns : nat * list WRule) : list Rule :=
  omap (λ position, map (readRule sto) somePatterns.2 !! position)
       (default (seq 0 (length somePatterns.2)) (sto !! somePatterns.1)).

Definition readGrammar (sto : gmap nat (list nat)) (w : WGrammar) : Grammar :=
  MkGrammarOf (g_scopeName w)
    (readPatterns sto <$> g_patterns w)
    (map (λ aKeyRule, (aKeyRule.1, readRule sto aKeyRule.2)) <$> g_repository w)
    (g_fileTypes w) (g_firstLineMatch w).

(** [pruneGrammars(scopes2keep, verbose)]: the new state of the class and the
    caller's keep-set as the call leaves it; [None] when the fuel does not
    suffice. *)
Definition pruneGrammars (fuel : nat) (scopes2keep : gmap string bool)
  (st : State) : option (State * gmap string bool) :=
  let s2g := (copyOriginals (originalScope2grammar st)).1 in
  match keepGrammars fuel s2g (MkPState ∅ s2g scopes2keep ∅ []) with
  | None => None
  | Some (_, pst) =>
      Some (MkState
              (map (λ aScopeGrammar,
                      (aScopeGrammar.1,
                       readGrammar (store pst) aScopeGrammar.2))
                   (Grammars.s2g pst))
              (originalScope2grammar st)
              (loadedGrammars st),
            Grammars.scopes2keep pst)
  end.

(** A keep-set object whose keys are the given scopes. *)
Definition keepSetOf (someScopes : list string) : gmap string bool :=
  list_to_map ((λ aScope, (aScope, true)) <$> someScopes).

(** The states the class can be in: its static maps are written by
    [loadGrammarFrom] and [pruneGrammars] only. *)
Inductive reachable `{Externals} : State → Prop :=
  | reachable_initial : reachable initial
  | reachable_load aGrammarPath st :
      reachable st →
      reachable (outcome (loadGrammarFrom aGrammarPath st)).1
  | reachable_prune fuel scopes2keep st st' scopes2keep' :
      reachable st →
      pruneGrammars fuel scopes2keep st = Some (st', scopes2keep') →
      reachable st'.

(** *** Printing *)

(** [printGrammar] and [printAllGrammars] write lines to the console;
    [stringify] stands for [yaml.stringify]. *)
Section Printing.
Context (stringify : Grammar → string).

Definition printGrammar (aBaseScope : string) (st : State) : list string :=
  match obj_get aBaseScope (scope2grammar st) with
  | None => []
  | Some aGrammar =>
      ["--grammar----------------------------------------------------";
       aBaseScope;
       "---------------";
       stringify aGrammar]
  end.

Definition printAllGrammars (st : State) : list string :=
  concat (map (λ aBaseScope, printGrammar aBaseScope st)
              (merge_sort strLe (obj_keys (scope2grammar st))))
  ++ ["-------------------------------------------------------------"].

End Printing.

End Grammars.

(** The [loadGrammarFrom] of the earlier [src/grammars.mjs], which keeps no
    set of loaded paths and reports on the console. *)
Module GrammarsV0.

Section WithExternals.
Context `{Externals}.

Definition loadGrammarFrom (aGrammarPath : string) (verbose : bool)
  (st : Grammars.State) : Grammars.Completion (Grammars.State * list LogEntry) :=
  if endsWith aGrammarPath ".json" then
    let log1 := if verbose
                then [Log LDebug ("loading grammar from " +:+ aGrammarPath)]
                else [] in
    let aGrammarPath := Config_normalizePath aGrammarPath in
    match readGrammarFile aGrammarPath with
    | None => Grammars.Threw (st, log1)
    | Some aGrammar =>
        let '(st2, log2) := Grammars.registerGrammar aGrammar st in
        Grammars.Returned (st2, log1 ++ log2)
    end
  else
    Grammars.Returned
      (st, [Log LWarn "At the moment we can ONLY load JSON Grammars!"]).

End WithExternals.

End GrammarsV0.

(** * Phases of a run *)


Module ScopeActions.







End ScopeActions.

Module Runner.





End Runner.

(** * The vocabulary of the properties *)

Import Grammars.

(** What [loadGrammarFrom] and [pruneGrammars] maintain: the working map has
    the keys of the original map, in the same order, and no key twice. *)
Definition consistent (st : State) : Prop :=
  NoDup (obj_keys (originalScope2grammar st))
  ∧ obj_keys (scope2grammar st) = obj_keys (originalScope2grammar st).

(** The first key is enumerated before the second when both are in an
    object: an array index comes after the array indices that are not
    greater and after nothing else. *)
Definition entersBefore (k k' : string) : Prop :=
  match arrayIndex k' with
  | Some n' =>
      match arrayIndex k with
      | Some n => (n ≤ n')%N
      | None => False
      end
  | None => True
  end.

(** The keys are in an order in which [Object.entries] can list them: the
    array indices first, ascending. *)
Definition enumerated (keys : list string) : Prop :=
  StronglySorted entersBefore keys.

(** The working map has kept its keys. *)
Definition keysKept (st st' : PState) : Prop :=
  obj_keys (s2g st') = obj_keys (s2g st).

(** The addresses of the pattern arrays of a working rule, its own first. *)
Fixpoint addressesOf (w : WRule) : list nat :=
  match w with
  | MkWRule f =>
      match r_patterns f with
      | None => []
      | Some (a, elems) => a :: concat (map addressesOf elems)
      end
  end.

Definition addressesOfRules (ws : list WRule) : list nat :=
  concat (map addressesOf ws).

Definition addressesOfGrammar (w : WGrammar) : list nat :=
  match g_patterns w with
  | None => []
  | Some (a, elems) => a :: addressesOfRules elems
  end
  ++ addressesOfRules (default [] (g_repository w)).*2.

(** The addresses are pairwise different and lie between the two bounds. *)
Definition freshBetween (lo hi : nat) (addresses : list nat) : Prop :=
  lo ≤ hi ∧ NoDup addresses ∧ ∀ a, a ∈ addresses → lo ≤ a < hi.

(** A rule the pruner finds nothing to keep in before it looks at its
    [include]. *)
Definition transparent (st : PState) (w : WRule) : Prop :=
  keepScope st (r_name (wfieldsOf w)) = false
  ∧ keepScope st (r_contentName (wfieldsOf w)) = false
  ∧ keepCapture st (r_captures (wfieldsOf w)) = false
  ∧ keepCapture st (r_beginCaptures (wfieldsOf w)) = false
  ∧ keepCapture st (r_endCaptures (wfieldsOf w)) = false
  ∧ r_patterns (wfieldsOf w) = None.

(** [onCycle] holds of repository keys each of whose rules is transparent
    and includes, as [#key], a key of which [onCycle] holds again. *)
Definition closedUnderInclude (st : PState) (patterns2keep : nat)
  (gRepo : obj WRule) (onCycle : string → Prop) : Prop :=
  ∀ k, onCycle k →
    inPatterns2keep st patterns2keep ("#" +:+ k) = false
    ∧ ∃ w k', obj_get k gRepo = Some w
              ∧ transparent st w
              ∧ r_include (wfieldsOf w) = Some ("#" +:+ k')
              ∧ onCycle k'.

Section Selector.
Context `{Externals}.

(** The grammar's [firstLineMatch] pattern matches the first line; an empty
    string is no pattern. *)
Definition firstLineMatches (aFirstLine : string) (aGrammar : Grammar) : bool :=
  match g_firstLineMatch aGrammar with
  | Some aRegExp => negb (String.eqb aRegExp "") && regexMatch aRegExp aFirstLine
  | None => false
  end.

(** One of the grammar's [fileTypes] entries is a suffix of the path. *)
Definition fileTypeMatches (aDocPath : string) (aGrammar : Grammar) : bool :=
  match g_fileTypes aGrammar with
  | Some someFileTypes => existsb (endsWith aDocPath) someFileTypes
  | None => false
  end.


End Selector.

(** The log has no dump of a named structure. *)
Definition noStructureDump (entries : list LogEntry) : Prop :=
  ∀ aStructureName, LogStructure aStructureName ∉ entries.

(** Two runs have invoked the same handlers with the same arguments in the
    same order, and left the same structure store. *)
Definition sameDispatch {V} (p p' : Progress (V := V)) : Prop :=
  calls p = calls p' ∧ structs p = structs p'.

Definition sameCompletion {V} (c c' : Completion (Progress (V := V))) : Prop :=
  returned c = returned c' ∧ sameDispatch (outcome c) (outcome c').

(** How often a character occurs in a string. *)
Fixpoint occurrences (c : Ascii.ascii) (s : string) : nat :=
  match s with
  | EmptyString => 0
  | String c' rest =>
      (if Ascii.eqb c' c then 1 else 0) + occurrences c rest
  end.



(** Every grammar of the map is registered under its own scope name, which
    is not the empty string. *)
Definition keyedByScopeName {R P} (o : obj (GrammarOf R P)) : Prop :=
  ∀ k g, (k, g) ∈ o → g_scopeName g = Some k ∧ k ≠ "".


(** A rule's keys with another value under [patterns]. *)
Definition withPatterns {C P Q} (f : RuleOf C P) (somePatterns : option Q)
  : RuleOf C Q :=
  MkRuleOf (r_name f) (r_scopeName f) (r_contentName f)
    (r_match f) (r_begin f) (r_end f)
    (r_captures f) (r_beginCaptures f) (r_endCaptures f)
    somePatterns (r_repository f) (r_include f).

(** The second list is the first with some elements left out and the others,
    in their order, replaced by elements related to them. *)
Section ThinnedList.
Context {A : Type} (T : A → A → Prop).

Fixpoint thinnedList (l l' : list A) {struct l} : Prop :=
  match l' with
  | [] => True
  | x' :: rest' =>
      match l with
      | [] => False
      | x :: rest => (T x x' ∧ thinnedList rest rest') ∨ thinnedList rest l'
      end
  end.

End ThinnedList.

(** The second rule is the first with elements spliced out of pattern
    arrays, its own or nested ones, and nothing else changed. *)
Fixpoint thinned (aRule pruned : Rule) {struct aRule} : Prop :=
  match aRule, pruned with
  | MkRule f, MkRule f' =>
      f' = withPatterns f (r_patterns f')
      ∧ match r_patterns f, r_patterns f' with
        | None, None => True
        | Some ps, Some ps' => thinnedList thinned ps ps'
        | _, _ => False
        end
  end.

(** The second grammar is the first with elements spliced out of pattern
    arrays and entries deleted from the repository. *)
Definition thinnedGrammar (aGrammar pruned : Grammar) : Prop :=
  g_scopeName pruned = g_scopeName aGrammar
  ∧ g_fileTypes pruned = g_fileTypes aGrammar
  ∧ g_firstLineMatch pruned = g_firstLineMatch aGrammar
  ∧ match g_patterns aGrammar, g_patterns pruned with
    | None, None => True
    | Some ps, Some ps' => thinnedList thinned ps ps'
    | _, _ => False
    end
  ∧ match g_repository aGrammar, g_repository pruned with
    | None, None => True
    | Some repo, Some repo' =>
        thinnedList (λ kv kv', kv'.1 = kv.1 ∧ thinned kv.2 kv'.2) repo repo'
    | _, _ => False
    end.

(** Every array the store has an entry for holds positions in ascending
    order, none twice. *)
Definition sortedStore (st : PState) : Prop :=
  ∀ a mask, store st !! a = Some mask → StronglySorted lt mask.

(** The second working grammar is the first with repository entries
    deleted. *)
Definition restricts (w0 w : WGrammar) : Prop :=
  g_scopeName w = g_scopeName w0
  ∧ g_patterns w = g_patterns w0
  ∧ g_fileTypes w = g_fileTypes w0
  ∧ g_firstLineMatch w = g_firstLineMatch w0
  ∧ match g_repository w0, g_repository w with
    | None, None => True
    | Some repo0, Some repo => sublist repo repo0
    | _, _ => False
    end.

(** What a call of one of the pruner's functions can have done to the
    pruner's objects.  The base scopes visited are not forgotten; arrays stay
    ascending; the working map keeps its keys and loses repository entries
    only; a scope marked [true] stays so; and the keep-set entry and the
    grammar of a base scope change only during its own first visit. *)
Definition evolves (st st' : PState) : Prop :=
  knownBaseScopes st ⊆ knownBaseScopes st'
  ∧ (sortedStore st → sortedStore st')
  ∧ Forall2 (λ kw kw', kw'.1 = kw.1 ∧ restricts kw.2 kw'.2) (s2g st) (s2g st')
  ∧ ∀ k,
      (scopes2keep st !! k = Some true → scopes2keep st' !! k = Some true)
      ∧ (k ∈ knownBaseScopes st ∨ k ∉ knownBaseScopes st' →
           scopes2keep st' !! k = scopes2keep st !! k
           ∧ obj_get k (s2g st') = obj_get k (s2g st))
      ∧ (scopes2keep st' !! k = scopes2keep st !! k ∨ k ∈ obj_keys (s2g st)).

(** A handler invocation as a run of the tracer over [aDoc] makes it: for a
    scope with registered actions, by one of these actions, with at least
    one token, for a line of the document, and with the document and the
    trace switch as its last arguments. *)
Definition expectedCall {V} (config : Config)
  (scopesWithActions : obj (list (Action (V := V))))
  (aDoc : DocumentCache.Document) (aCall : string * Invocation) : Prop :=
  i_doc aCall.2 = aDoc
  ∧ i_trace aCall.2 = trace config
  ∧ i_lineNum aCall.2 < length (DocumentCache.docLines aDoc)
  ∧ i_tokens aCall.2 ≠ []
  ∧ ∃ someActions,
      obj_get (i_scope aCall.2) scopesWithActions = Some someActions
      ∧ aCall.1 ∈ a_name <$> someActions.

(** Nothing at debug level, no token dump, no structure dump. *)
Definition quiet (entries : list LogEntry) : Prop :=
  Forall (λ e, ∃ lvl msg, e = Log lvl msg ∧ lvl ≠ LDebug) entries.




(** ** Pruning without includes, as a function *)

(** The pruner's objects with another store. *)
Definition withStore (sto : gmap nat (list nat)) (st : PState) : PState :=
  MkPState sto (s2g st) (scopes2keep st) (knownBaseScopes st) (p2kObjects st).

(** No rule of the tree has an [include], as far as [patterns] lead. *)
Fixpoint includeFree (aRule : Rule) : bool :=
  match aRule with
  | MkRule f =>
      negb (truthyStr (r_include f))
      && match r_patterns f with
         | None => true
         | Some ps => forallb includeFree ps
         end
  end.

Definition includeFreeGrammar (aGrammar : Grammar) : bool :=
  match g_patterns aGrammar with
  | None => true
  | Some ps => forallb includeFree ps
  end.

(** One of the rule's own scope names or capture names is marked in the
    keep-set. *)
Definition keptByName {P} (keep : gmap string bool) (f : RuleOf Rule P)
  : bool :=
  let st := MkPState ∅ [] keep ∅ [] in
  keepScope st (r_name f) || keepScope st (r_contentName f)
  || keepCapture st (r_captures f) || keepCapture st (r_beginCaptures f)
  || keepCapture st (r_endCaptures f).

(** What is to become of a rule without includes: a rule kept by name stays
    as it is; another one stays with the nested patterns that stay, if there
    are any; [None] says the rule goes. *)
Fixpoint prunedRule (keep : gmap string bool) (aRule : Rule) : option Rule :=
  match aRule with
  | MkRule f =>
      if keptByName keep f then Some aRule
      else
        match r_patterns f with
        | None => None
        | Some ps =>
            let kept := omap (prunedRule keep) ps in
            if 0 <? length kept
            then Some (MkRule (withPatterns f (Some kept)))
            else None
        end
  end.

(** What is to become of a grammar without includes and of the keep-set: a
    grammar whose base scope is marked or is the name of a member every
    object inherits, or which has no patterns, stays as it is; another one
    stays with the patterns that stay and an empty repository, and its base
    scope is marked [true] or [false] according to whether a pattern
    stays. *)
Definition prunedGrammar (keep : gmap string bool) (aBaseScope : string)
  (aGrammar : Grammar) : Grammar * gmap string bool :=
  if isInherited aBaseScope || default false (keep !! aBaseScope)
  then (aGrammar, keep)
  else
    match g_patterns aGrammar with
    | None => (aGrammar, keep)
    | Some ps =>
        let kept := omap (prunedRule keep) ps in
        (MkGrammarOf (g_scopeName aGrammar) (Some kept)
           ((λ _, []) <$> g_repository aGrammar)
           (g_fileTypes aGrammar) (g_firstLineMatch aGrammar),
         <[aBaseScope := 0 <? length kept]> keep)
    end.

(** The grammars one after the other, each with the keep-set as the ones
    before it have left it. *)
Fixpoint prunedGrammars (keep : gmap string bool) (entries : obj Grammar)
  : obj Grammar * gmap string bool :=
  match entries with
  | [] => ([], keep)
  | (aBaseScope, aGrammar) :: rest =>
      let '(pruned, keep) := prunedGrammar keep aBaseScope aGrammar in
      let '(others, keep) := prunedGrammars keep rest in
      ((aBaseScope, pruned) :: others, keep)
  end.

(** The rule at a position of a pattern array is to stay. *)
Definition staysAt (keep : gmap string bool) (elems : list WRule)
  (position : nat) : bool :=
  match elems !! position with
  | Some w => if prunedRule keep (readRule ∅ w) is Some _ then true else false
  | None => false
  end.

(** [keepRule] does to the working copy [w] what [prunedRule] says, given
    that none of the arrays of [w] has been spliced yet: with enough fuel it
    returns whether the rule stays, touches no object but the store, in the
    store no array but those of [w], and leaves a rule that stays as
    [prunedRule] has it. *)
Definition treePruned (w : WRule) : Prop :=
  ∀ st, (∀ a, a ∈ addressesOf w → store st !! a = None) →
    ∃ fuel0 sto',
      (∀ fuel patterns2keep gRepo, fuel0 ≤ fuel →
         keepRule fuel (Some w) patterns2keep gRepo st
         = Some (if prunedRule (scopes2keep st) (readRule ∅ w) is Some _
                 then true else false,
                 withStore sto' st))
      ∧ (∀ a, a ∉ addressesOf w → sto' !! a = store st !! a)
      ∧ (∀ pruned, prunedRule (scopes2keep st) (readRule ∅ w) = Some pruned →
                   readRule sto' w = pruned).

(** The texts of the tokens of a line that carry a scope, in the order of
    the tokens, once for every time the scope is among a token's scopes. *)
Definition tokensFor (aScope aLine : string) (someTokens : list Token)
  : list string :=
  concat (map (λ aToken,
                 concat (map (λ itsScope,
                                if String.eqb itsScope aScope
                                then [js_substring aLine (startIndex aToken)
                                                   (endIndex aToken)]
                                else [])
                             (scopes aToken)))
              someTokens).

(** ** Grammars the pruner has no business with *)



(** * Sample data *)

Module Demo.

(** [{"include": anInclude}] *)
Definition includeRule (anInclude : string) : Rule :=
  MkRule (MkRuleOf None None None None None None None None None None None
                   (Some anInclude)).

(** [{"match": aMatch, "name": aName}] *)
Definition matchRule (aMatch aName : string) : Rule :=
  MkRule (MkRuleOf (Some aName) None None (Some aMatch) None None
                   None None None None None None).

(** [{"scopeName": "t", "patterns": [{"include": "#a"}],
      "repository": {"a": {"include": "#b"}, "b": {"include": "#a"}}}] *)
Definition cyclicGrammar : Grammar :=
  MkGrammarOf (Some "t") (Some [includeRule "#a"])
              (Some [("a", includeRule "#b"); ("b", includeRule "#a")])
              None None.

Definition cyclicState : State :=
  MkState [("t", cyclicGrammar)] [("t", cyclicGrammar)] ∅.

(** [{"scopeName": "t"}] *)
Definition bareGrammar : WGrammar := MkGrammarOf (Some "t") None None None None.

(** The pruner about to visit it, with its scope in the keep-set, and
    with an empty keep-set. *)
Definition bareState : PState :=
  MkPState ∅ [("t", bareGrammar)] {["t" := true]} ∅ [].

Definition bareStateUnkept : PState :=
  MkPState ∅ [("t", bareGrammar)] ∅ ∅ [].

(** The cycle of [cyclicGrammar] in a repository that the root patterns do
    not refer to. *)
Definition detachedCycleGrammar : Grammar :=
  MkGrammarOf (Some "t") (Some [matchRule "x" "kw.x"])
              (Some [("a", includeRule "#b"); ("b", includeRule "#a")])
              None None.

(** The same repository in a grammar without a [patterns] key. *)
Definition patternlessCycleGrammar : Grammar :=
  MkGrammarOf (Some "t") None
              (Some [("a", includeRule "#b"); ("b", includeRule "#a")])
              None None.

(** [{"scopeName": "t",
      "patterns": [{"match": "a", "name": "kw.a"}, {"match": "b", "name": "kw.b"}]}] *)
Definition keywordGrammar : Grammar :=
  MkGrammarOf (Some "t") (Some [matchRule "a" "kw.a"; matchRule "b" "kw.b"])
              None None None.

(** A grammar for the same scope, from another file. *)
Definition keywordGrammar2 : Grammar :=
  MkGrammarOf (Some "t") (Some [matchRule "c" "kw.c"]) None None None.

(** [{"scopeName": "source.shell", "fileTypes": [".sh"]}] *)
Definition shellGrammar : Grammar :=
  MkGrammarOf (Some "source.shell") (Some [matchRule "echo" "kw.echo"]) None
              (Some [".sh"]) None.

(** [{"scopeName": "source.script", "firstLineMatch": "^#!", "fileTypes": [".sh"]}] *)
Definition scriptGrammar : Grammar :=
  MkGrammarOf (Some "source.script") (Some [matchRule "echo" "kw.echo"]) None
              (Some [".sh"]) (Some "^#!").

(** A small world: three grammar files and one document; the only regular
    expression it knows is [^#!]; the registry asks for the base scope
    alone; every line is one token. *)
Definition externals : Externals := {|
  Config_normalizePath := λ p, p;
  Cfgr_normalizePath := λ p, p;
  readGrammarFile := λ p,
    if String.eqb p "keywords.json" then Some keywordGrammar
    else if String.eqb p "keywords2.json" then Some keywordGrammar2
    else if String.eqb p "shell.json" then Some shellGrammar
    else if String.eqb p "script.json" then Some scriptGrammar
    else None;
  readFile := λ p,
    if String.eqb p "run" then Some ("#!/bin/sh" +:+ String newline "echo hi")
    else None;
  regexMatch := λ aRegExp aStr,
    String.eqb aRegExp "^#!" && startsWith aStr "#!";
  RuleStack := unit;
  INITIAL := tt;
  requestedScopes := λ _ aBaseScope, [aBaseScope];
  tokenizeLine := λ _ aBaseScope aLine _,
    ([MkToken 0 (String.length aLine) [aBaseScope; "kw.echo"]], tt)
|}.

Definition afterLoad (aGrammarPath : string) (st : State) : State :=
  (outcome (loadGrammarFrom (H := externals) aGrammarPath st)).1.

Definition keywordsLoaded : State := afterLoad "keywords.json" initial.

Definition shellsLoaded : State :=
  afterLoad "script.json" (afterLoad "shell.json" initial).

Definition keywordsPruned : State :=
  default initial (fst <$> pruneGrammars 10 {["kw.a" := true]} keywordsLoaded).

Import ScopeActions Runner.

(** A handler that registers the structure ["outline"], holding the number
    of the line it was first called for. *)
Definition outlineAction : Action (V := nat) :=
  MkAction "outline"
    (λ inv structs, Some (Structures.newStructure "outline" (i_lineNum inv) structs).2).

Definition scopesWithActions : obj (list (Action (V := nat))) :=
  [("kw.echo", [outlineAction])].

Definition noFilter : TraceOpts := MkTraceOpts [] [].

(** Tracing switched on, nothing filtered. *)
Definition traceAll : Config :=
  MkConfig true noFilter noFilter noFilter noFilter.

(** Tracing switched on, only lines starting with [#!] shown. *)
Definition traceShebang : Config :=
  MkConfig true (MkTraceOpts ["^#!"] []) noFilter noFilter noFilter.

(** A store in which a structure has been registered. *)
Definition outlined : Structures.JsMap nat :=
  (Structures.newStructure "outline" 7 Structures.initial).2.

(** A cache that already holds a document named ["run"]. *)
Definition cached : gmap string DocumentCache.Document :=
  {["run" := DocumentCache.MkDocument "elsewhere" "run" ["old"]]}.




(** [{"patterns": [{"match": "a", "name": "kw.a"}]}]: no scope name. *)
Definition anonymousGrammar : Grammar :=
  MkGrammarOf None (Some [matchRule "a" "kw.a"]) None None None.

(** The world of [externals] with other grammar files. *)
Definition withGrammarFiles (files : string → option Grammar) : Externals := {|
  Config_normalizePath := Config_normalizePath (Externals := externals);
  Cfgr_normalizePath := Cfgr_normalizePath (Externals := externals);
  readGrammarFile := files;
  readFile := readFile (Externals := externals);
  regexMatch := regexMatch (Externals := externals);
  RuleStack := RuleStack (Externals := externals);
  INITIAL := INITIAL (Externals := externals);
  requestedScopes := requestedScopes (Externals := externals);
  tokenizeLine := tokenizeLine (Externals := externals)
|}.

(** [keywords.json] as before; every other file holds the grammar without
    a scope name. *)
Definition anonymousFiles : Externals :=
  withGrammarFiles
    (λ p, if String.eqb p "keywords.json" then Some keywordGrammar
          else Some anonymousGrammar).

(** Every file holds the keyword grammar. *)
Definition keywordFiles : Externals :=
  withGrammarFiles (λ _, Some keywordGrammar).

(** The keep-set [{kw.a}] as pruning the keyword grammar leaves it. *)
Definition keywordsKeepSet : gmap string bool :=
  default ∅ (snd <$> pruneGrammars 10 {["kw.a" := true]} keywordsLoaded).






(** [{"scopeName": "t",
      "patterns": [{"match": "a", "name": "constructor"},
                   {"match": "b", "name": "toString"},
                   {"match": "c", "name": "kw.c"}]}] *)
Definition inheritedNamesGrammar : Grammar :=
  MkGrammarOf (Some "t")
    (Some [matchRule "a" "constructor"; matchRule "b" "toString";
           matchRule "c" "kw.c"])
    None None None.

(** [{"scopeName": "toString", "patterns": [{"match": "c", "name": "kw.c"}]}] *)
Definition inheritedScopeGrammar : Grammar :=
  MkGrammarOf (Some "toString") (Some [matchRule "c" "kw.c"]) None None None.

(** A cache that holds a document for a file that is not there any more. *)
Definition stale : gmap string DocumentCache.Document :=
  {["gone" := DocumentCache.MkDocument "gone" "gone" ["old"]]}.

(** Tracing switched off. *)
Definition traceOff : Config :=
  MkConfig false noFilter noFilter noFilter noFilter.

(** The document the file ["run"] is loaded as. *)
Definition runDocument : DocumentCache.Document :=
  DocumentCache.MkDocument "run" "run" ["#!/bin/sh"; "echo hi"].

End Demo.

Import ScopeActions Runner Demo.

(** * Ordered objects *)

Section ObjFacts.
Context {V : Type}.
Implicit Types (o : obj V) (k : string) (v : V).

Lemma eqb_decide k k' : String.eqb k k' = bool_decide (k = k').
Proof.
  destruct (String.eqb_spec k k'); [by rewrite bool_decide_eq_true_2|by rewrite bool_decide_eq_false_2].
Qed.

Lemma entries_get_set_eq k v o : obj_get k (entries_set k v o) = Some v.
Proof.
  induction o as [|[k' v'] o IH]; simpl.
  - by rewrite String.eqb_refl.
  - destruct (String.eqb k k') eqn:E; simpl; by rewrite ?String.eqb_refl, ?E.
Qed.

Lemma entries_get_set_ne k k' v o :
  k ≠ k' → obj_get k' (entries_set k v o) = obj_get k' o.
Proof.
  intros Hne. induction o as [|[k1 v1] o IH]; simpl.
  - apply String.eqb_neq in Hne. rewrite String.eqb_sym in Hne. by rewrite Hne.
  - destruct (String.eqb k k1) eqn:E; simpl.
    + apply String.eqb_eq in E as <-.
      assert (String.eqb k' k = false) as -> by (apply String.eqb_neq; congruence).
      done.
    + by rewrite IH.
Qed.

Lemma obj_get_Some_keys k v o : obj_get k o = Some v → k ∈ obj_keys o.
Proof.
  induction o as [|[k1 v1] o IH]; simpl; [done|].
  destruct (String.eqb k k1) eqn:E.
  - apply String.eqb_eq in E as ->. intros _. apply list_elem_of_here.
  - intros. apply list_elem_of_further. auto.
Qed.

Lemma obj_get_None_keys k o : obj_get k o = None ↔ k ∉ obj_keys o.
Proof.
  induction o as [|[k1 v1] o IH]; simpl.
  - split; [intros _; apply not_elem_of_nil|done].
  - destruct (String.eqb k k1) eqn:E.
    + apply String.eqb_eq in E as ->. split; [done|]. intros []. apply list_elem_of_here.
    + apply String.eqb_neq in E. rewrite IH. unfold obj_keys. simpl.
      rewrite not_elem_of_cons. naive_solver.
Qed.

Lemma entries_keys_set_in k v o :
  k ∈ obj_keys o → obj_keys (entries_set k v o) = obj_keys o.
Proof.
  induction o as [|[k1 v1] o IH]; simpl.
  - by intros ?%not_elem_of_nil.
  - destruct (String.eqb k k1) eqn:E.
    + by apply String.eqb_eq in E as ->.
    + apply String.eqb_neq in E. unfold obj_keys in *. simpl.
      rewrite elem_of_cons. intros [?|?]; [done|]. f_equal. auto.
Qed.

Lemma obj_get_app_notin k (o1 o2 : obj V) :
  k ∉ obj_keys o1 → obj_get k (o1 ++ o2) = obj_get k o2.
Proof.
  induction o1 as [|[k1 v1] o1 IH]; simpl; [done|].
  unfold obj_keys in *. simpl. rewrite not_elem_of_cons. intros [Hne Hn].
  apply String.eqb_neq in Hne. rewrite Hne. auto.
Qed.

Lemma obj_get_app_in k (o1 o2 : obj V) :
  k ∈ obj_keys o1 → obj_get k (o1 ++ o2) = obj_get k o1.
Proof.
  induction o1 as [|[k1 v1] o1 IH]; simpl.
  - by intros ?%not_elem_of_nil.
  - destruct (String.eqb k k1) eqn:E; [done|].
    apply String.eqb_neq in E. unfold obj_keys in *. simpl.
    rewrite elem_of_cons. intros [?|?]; [done|]. auto.
Qed.

(** A new array-index key goes in somewhere; the entries there are stay in
    their order. *)
Lemma obj_insertIndex_split n k v o :
  ∃ o1 o2, o = o1 ++ o2 ∧ obj_insertIndex n k v o = o1 ++ (k, v) :: o2.
Proof.
  induction o as [|[k1 v1] o (o1 & o2 & Ho & IH)]; simpl.
  - by exists [], [].
  - destruct (arrayIndex k1) as [n1|]; [destruct (n1 <=? n)%N|].
    + exists ((k1, v1) :: o1), o2. simpl. by rewrite IH, <- Ho.
    + by exists [], ((k1, v1) :: o).
    + by exists [], ((k1, v1) :: o).
Qed.

(** Creating a key puts its entry somewhere among the entries there are. *)
Lemma obj_set_new_split k v o :
  k ∉ obj_keys o →
  ∃ o1 o2, o = o1 ++ o2 ∧ obj_set k v o = o1 ++ (k, v) :: o2.
Proof.
  intros Hk. apply obj_get_None_keys in Hk. unfold obj_set. rewrite Hk.
  destruct (arrayIndex k) as [n|].
  - apply obj_insertIndex_split.
  - exists o, []. by rewrite app_nil_r.
Qed.

Lemma obj_set_old k v o :
  k ∈ obj_keys o → obj_set k v o = entries_set k v o.
Proof.
  intros Hk. unfold obj_set. destruct (obj_get k o) eqn:E; [done|].
  by apply obj_get_None_keys in E.
Qed.

Lemma obj_get_set_eq k v o : obj_get k (obj_set k v o) = Some v.
Proof.
  destruct (decide (k ∈ obj_keys o)) as [Hk|Hk].
  - rewrite obj_set_old by done. apply entries_get_set_eq.
  - destruct (obj_set_new_split k v o Hk) as (o1 & o2 & -> & ->).
    rewrite obj_get_app_notin; [simpl; by rewrite String.eqb_refl|].
    intros Hin. apply Hk. unfold obj_keys in *. rewrite fmap_app, elem_of_app. by left.
Qed.

Lemma obj_get_set_ne k k' v o : k ≠ k' → obj_get k' (obj_set k v o) = obj_get k' o.
Proof.
  intros Hne. destruct (decide (k ∈ obj_keys o)) as [Hk|Hk].
  - rewrite obj_set_old by done. by apply entries_get_set_ne.
  - destruct (obj_set_new_split k v o Hk) as (o1 & o2 & -> & ->).
    destruct (decide (k' ∈ obj_keys o1)) as [H1|H1].
    + by rewrite !obj_get_app_in.
    + rewrite !obj_get_app_notin by done. simpl.
      assert (String.eqb k' k = false) as -> by (apply String.eqb_neq; congruence).
      done.
Qed.

Lemma obj_keys_set_in k v o : k ∈ obj_keys o → obj_keys (obj_set k v o) = obj_keys o.
Proof. intros Hk. rewrite obj_set_old by done. by apply entries_keys_set_in. Qed.

Lemma obj_keys_set_split k v o :
  k ∉ obj_keys o →
  ∃ l1 l2, obj_keys o = l1 ++ l2 ∧ obj_keys (obj_set k v o) = l1 ++ k :: l2.
Proof.
  intros Hk. destruct (obj_set_new_split k v o Hk) as (o1 & o2 & -> & ->).
  exists (obj_keys o1), (obj_keys o2). unfold obj_keys. by rewrite !fmap_app.
Qed.



Lemma elem_of_obj_keys_set k v o x :
  x ∈ obj_keys (obj_set k v o) ↔ x = k ∨ x ∈ obj_keys o.
Proof.
  destruct (decide (k ∈ obj_keys o)) as [Hk|Hk].
  - rewrite obj_keys_set_in by done. naive_solver.
  - destruct (obj_keys_set_split k v o Hk) as (l1 & l2 & -> & ->).
    rewrite !elem_of_app, elem_of_cons. naive_solver.
Qed.

Lemma obj_keys_set_elem k k' v o : k' ∈ obj_keys o → k' ∈ obj_keys (obj_set k v o).
Proof. intros Hin. apply elem_of_obj_keys_set. by right. Qed.

Lemma obj_keys_set_self k v o : k ∈ obj_keys (obj_set k v o).
Proof. eapply obj_get_Some_keys, obj_get_set_eq. Qed.

Lemma obj_set_NoDup k v o : NoDup (obj_keys o) → NoDup (obj_keys (obj_set k v o)).
Proof.
  intros Hnd. destruct (decide (k ∈ obj_keys o)) as [Hk|Hk].
  - by rewrite obj_keys_set_in.
  - destruct (obj_keys_set_split k v o Hk) as (l1 & l2 & Heq & ->).
    rewrite Heq in Hnd, Hk. apply NoDup_app in Hnd as (H1 & H12 & H2).
    rewrite elem_of_app in Hk.
    apply NoDup_app. split_and!; [done| |].
    + intros x Hx [->|Hx2]%elem_of_cons; [naive_solver|]. by apply (H12 x).
    + apply NoDup_cons. naive_solver.
Qed.

(** Two objects with the same keys in the same order and the same value
    under every key are one. *)
Lemma obj_ext o o' :
  NoDup (obj_keys o) → obj_keys o = obj_keys o' →
  (∀ k, k ∈ obj_keys o → obj_get k o = obj_get k o') → o = o'.
Proof.
  revert o'. induction o as [|[k v] o IH]; intros [|[k' v'] o'] Hnd Hkeys Hget;
    try done.
  unfold obj_keys in *. simpl in *. simplify_eq.
  apply NoDup_cons in Hnd as [Hk Hnd].
  pose proof (Hget k' (list_elem_of_here _ _)) as Hv. simpl in Hv.
  rewrite String.eqb_refl in Hv. simplify_eq. f_equal.
  apply IH; [done..|]. intros k Hin.
  specialize (Hget k (list_elem_of_further _ _ _ Hin)). simpl in Hget.
  assert (String.eqb k k' = false) as E by (apply String.eqb_neq; by intros ->).
  by rewrite E in Hget.
Qed.

End ObjFacts.

(** Where a new key is created depends on the keys that are there, not on
    what is stored under them. *)
Lemma obj_keys_set_congr {V W} k (v : V) (w : W) (o : obj V) (o' : obj W) :
  obj_keys o = obj_keys o' →
  obj_keys (obj_set k v o) = obj_keys (obj_set k w o').
Proof.
  intros Hkeys. destruct (decide (k ∈ obj_keys o)) as [Hk|Hk].
  - rewrite !obj_keys_set_in; [done| |done]. by rewrite <- Hkeys.
  - assert (k ∉ obj_keys o') as Hk' by by rewrite <- Hkeys.
    apply obj_get_None_keys in Hk, Hk'. unfold obj_set. rewrite Hk, Hk'.
    destruct (arrayIndex k) as [n|].
    + clear Hk Hk'. revert o' Hkeys.
      induction o as [|[k1 v1] o IH]; intros [|[k1' v1'] o'] Hkeys; try done.
      unfold obj_keys in *. simpl in *. simplify_eq.
      destruct (arrayIndex k1') as [n1|]; [destruct (n1 <=? n)%N|]; simpl;
        repeat f_equal; auto.
    + unfold obj_keys in *. by rewrite !fmap_app, Hkeys.
Qed.

(** ** The order of enumeration *)

Lemma entersBefore_trans k1 k2 k3 :
  entersBefore k1 k2 → entersBefore k2 k3 → entersBefore k1 k3.
Proof.
  unfold entersBefore.
  destruct (arrayIndex k3), (arrayIndex k2), (arrayIndex k1); try done. lia.
Qed.

Lemma enumerated_app_inv_l l1 l2 : enumerated (l1 ++ l2) → enumerated l1.
Proof. apply StronglySorted_app_1_l. Qed.

(** A key that comes last in the enumeration was created last. *)
Lemma obj_set_last {V} k (v : V) (o : obj V) :
  k ∉ obj_keys o → enumerated (obj_keys o ++ [k]) →
  obj_set k v o = o ++ [(k, v)].
Proof.
  intros Hk Hen. apply obj_get_None_keys in Hk. unfold obj_set. rewrite Hk.
  destruct (arrayIndex k) as [n|] eqn:En; [|done]. clear Hk.
  induction o as [|[k1 v1] o IH]; simpl; [done|].
  unfold obj_keys in *. simpl in Hen. apply StronglySorted_inv in Hen as [Hen Hall].
  rewrite Forall_app, Forall_singleton in Hall. destruct Hall as [_ Hlast].
  unfold entersBefore in Hlast. rewrite En in Hlast.
  destruct (arrayIndex k1) as [n1|]; [|done].
  apply N.leb_le in Hlast. rewrite Hlast. f_equal. auto.
Qed.

Lemma obj_insertIndex_enumerated {V} n k (v : V) (o : obj V) :
  arrayIndex k = Some n → enumerated (obj_keys o) →
  enumerated (obj_keys (obj_insertIndex n k v o)).
Proof.
  intros En. induction o as [|[k1 v1] o IH]; simpl; intros Hen.
  - repeat constructor.
  - unfold obj_keys in *. simpl in Hen.
    pose proof Hen as Hen0. apply StronglySorted_inv in Hen as [Hen Hall].
    assert (∀ x, x ∈ (k1 :: o.*1) → arrayIndex k1 = None ∨
              (∃ n1, arrayIndex k1 = Some n1 ∧ (n < n1)%N) → entersBefore k x)
      as Hfront.
    { intros x [->|Hx]%elem_of_cons Hk1; unfold entersBefore; rewrite En.
      - destruct Hk1 as [->|(n1 & -> & ?)]; [done|lia].
      - rewrite Forall_forall in Hall. specialize (Hall x Hx).
        unfold entersBefore in Hall.
        destruct (arrayIndex x) as [nx|]; [|done].
        destruct Hk1 as [E|(n1 & E & ?)]; rewrite E in Hall; [done|lia]. }
    destruct (arrayIndex k1) as [n1|] eqn:E1;
      [destruct (n1 <=? n)%N eqn:Hle|]; simpl.
    + apply SSorted_cons; [by apply IH|]. apply N.leb_le in Hle.
      destruct (obj_insertIndex_split n k v o) as (o1 & o2 & Ho & ->).
      rewrite Ho, fmap_app, Forall_app in Hall. destruct Hall as [H1 H2].
      change (Forall (entersBefore k1) (o1 ++ (k, v) :: o2).*1).
      rewrite fmap_app, Forall_app. split; [done|]. simpl. apply Forall_cons.
      split; [|done]. unfold entersBefore. by rewrite En, E1.
    + apply N.leb_gt in Hle. apply SSorted_cons; [done|].
      apply Forall_forall. intros x Hx. apply Hfront; [done|]. right. eauto.
    + apply SSorted_cons; [done|].
      apply Forall_forall. intros x Hx. apply Hfront; [done|]. by left.
Qed.

Lemma entries_set_keys {V} k (v : V) (o : obj V) :
  k ∈ obj_keys o → obj_keys (entries_set k v o) = obj_keys o.
Proof. apply entries_keys_set_in. Qed.

Lemma obj_set_enumerated {V} k (v : V) (o : obj V) :
  enumerated (obj_keys o) → enumerated (obj_keys (obj_set k v o)).
Proof.
  intros Hen. destruct (decide (k ∈ obj_keys o)) as [Hk|Hk].
  - by rewrite obj_keys_set_in.
  - apply obj_get_None_keys in Hk. unfold obj_set. rewrite Hk.
    destruct (arrayIndex k) as [n|] eqn:En.
    + by apply obj_insertIndex_enumerated.
    + unfold obj_keys, enumerated in *. rewrite fmap_app. simpl.
      induction Hen as [|x l Hl IH Hx]; [repeat constructor|].
      simpl. apply SSorted_cons; [done|]. rewrite Forall_app, Forall_singleton.
      split; [done|]. unfold entersBefore. by rewrite En.
Qed.

(** Assigning every entry of one object to another that has the same keys
    in the same order makes the second the first: the loop that rebuilds the
    working map after the originals have been written to. *)
Lemma foldl_obj_set_keys {V} (l : obj V) (w : obj V) :
  Forall (λ kv, kv.1 ∈ obj_keys w) l →
  obj_keys (foldl (λ acc kv, obj_set kv.1 kv.2 acc) w l) = obj_keys w.
Proof.
  revert w. induction l as [|[k v] l IH]; intros w Hall; simpl; [done|].
  apply Forall_cons in Hall as [Hk Hall]. simpl in Hk.
  rewrite IH; [by apply obj_keys_set_in|].
  eapply Forall_impl; [done|]. intros kv Hkv. by apply obj_keys_set_elem.
Qed.

Lemma foldl_obj_set_get {V} (l : obj V) (w : obj V) k :
  NoDup (obj_keys l) →
  obj_get k (foldl (λ acc kv, obj_set kv.1 kv.2 acc) w l)
  = if obj_get k l is Some v then Some v else obj_get k w.
Proof.
  revert w. induction l as [|[k1 v1] l IH]; intros w Hnd; simpl; [done|].
  unfold obj_keys in Hnd. simpl in Hnd. apply NoDup_cons in Hnd as [Hk1 Hnd].
  rewrite IH by done. destruct (String.eqb k k1) eqn:E.
  - apply String.eqb_eq in E as ->.
    apply obj_get_None_keys in Hk1. rewrite Hk1. apply obj_get_set_eq.
  - apply String.eqb_neq in E. destruct (obj_get k l); [done|].
    apply obj_get_set_ne. congruence.
Qed.

Lemma rebuild_same {V} (originals w : obj V) k v :
  NoDup (obj_keys originals) →
  obj_keys w = obj_keys originals →
  foldl (λ acc kv, obj_set kv.1 kv.2 acc) w (obj_set k v originals)
  = obj_set k v originals.
Proof.
  intros Hnd Hkeys.
  set (target := obj_set k v originals).
  assert (NoDup (obj_keys target)) as Hndt by by apply obj_set_NoDup.
  assert (∃ l1 l2 v0, target = l1 ++ (k, v0) :: l2) as (l1 & l2 & v0 & Ht).
  { pose proof (obj_keys_set_self k v originals) as Hin.
    apply list_elem_of_fmap in Hin as ([k0 v0] & -> & Hin).
    apply list_elem_of_split in Hin as (l1 & l2 & ?). eauto. }
  assert (obj_keys (foldl (λ acc kv, obj_set kv.1 kv.2 acc) w target)
          = obj_keys target) as Hk.
  { rewrite Ht, foldl_app. simpl.
    assert (∀ x, x ∈ obj_keys target → x ≠ k → x ∈ obj_keys w) as Hold.
    { intros x Hx Hne. rewrite Hkeys.
      apply elem_of_obj_keys_set in Hx as [?|?]; [done|done]. }
    rewrite Ht in Hold, Hndt. unfold obj_keys in Hold, Hndt.
    rewrite fmap_app in Hold, Hndt. simpl in Hold, Hndt.
    apply NoDup_app in Hndt as (Hnd1 & Hnd12 & [Hk2 Hnd2]%NoDup_cons).
    assert (obj_keys (foldl (λ acc kv, obj_set kv.1 kv.2 acc) w l1) = obj_keys w)
      as Hw1.
    { apply foldl_obj_set_keys. apply Forall_forall. intros [x vx] Hx. simpl.
      assert (x ∈ l1.*1) as Hx1 by (apply list_elem_of_fmap; by exists (x, vx)).
      apply Hold; [apply elem_of_app; by left|].
      intros ->. apply (Hnd12 k Hx1). apply list_elem_of_here. }
    rewrite foldl_obj_set_keys.
    - rewrite (obj_keys_set_congr k v0 v _ originals) by by rewrite Hw1.
      by rewrite <- Ht.
    - apply Forall_forall. intros [x vx] Hx. simpl.
      assert (x ∈ l2.*1) as Hx2 by (apply list_elem_of_fmap; by exists (x, vx)).
      apply elem_of_obj_keys_set. right. rewrite Hw1. apply Hold.
      + apply elem_of_app. right. by apply list_elem_of_further.
      + by intros ->. }
  apply obj_ext.
  - by rewrite Hk.
  - done.
  - intros x Hx. rewrite foldl_obj_set_get by done.
    rewrite Hk in Hx. apply list_elem_of_fmap in Hx as ([x' vx] & -> & Hx). simpl.
    destruct (obj_get x' target) eqn:E; [done|].
    apply obj_get_None_keys in E. destruct E.
    apply list_elem_of_fmap. by exists (x', vx).
Qed.

(** The same loop when the originals have not been written to. *)
Lemma rebuild_unchanged {V} (originals w : obj V) :
  NoDup (obj_keys originals) →
  obj_keys w = obj_keys originals →
  foldl (λ acc kv, obj_set kv.1 kv.2 acc) w originals = originals.
Proof.
  intros Hnd Hkeys.
  assert (obj_keys (foldl (λ acc kv, obj_set kv.1 kv.2 acc) w originals)
          = obj_keys originals) as Hk.
  { rewrite foldl_obj_set_keys; [done|]. rewrite Hkeys.
    apply Forall_forall. intros [x vx] Hx. simpl.
    apply list_elem_of_fmap. by exists (x, vx). }
  apply obj_ext.
  - by rewrite Hk.
  - done.
  - intros x Hx. rewrite foldl_obj_set_get by done.
    rewrite Hk in Hx. apply list_elem_of_fmap in Hx as ([x' vx] & -> & Hx). simpl.
    destruct (obj_get x' originals) eqn:E; [done|].
    apply obj_get_None_keys in E. destruct E.
    apply list_elem_of_fmap. by exists (x', vx).
Qed.

Lemma omap_lookup_seq {A} (l : list A) :
  omap (λ i, l !! i) (seq 0 (length l)) = l.
Proof.
  induction l as [|x l IH]; [done|].
  cbn [length seq]. rewrite <- fmap_S_seq. csimpl. f_equal.
  rewrite <- IH at 2.
  generalize (seq 0 (length l)). intros s.
  induction s as [|i s IHs]; [done|].
  csimpl. by rewrite IHs.
Qed.

(** Induction on a rule with the hypothesis for every rule nested in it. *)
Lemma Rule_nested_ind (P : Rule → Prop) :
  (∀ f,
     (∀ ps, r_patterns f = Some ps → Forall P ps) →
     (∀ o, r_repository f = Some o → Forall (λ kv, P kv.2) o) →
     (∀ o, r_captures f = Some o → Forall (λ kv, P kv.2) o) →
     (∀ o, r_beginCaptures f = Some o → Forall (λ kv, P kv.2) o) →
     (∀ o, r_endCaptures f = Some o → Forall (λ kv, P kv.2) o) →
     P (MkRule f)) →
  ∀ r, P r.
Proof.
  intros step. fix IH 1.
  intros [[n sn cn m b e cap bcap ecap pats repo inc]].
  apply step; simpl.
  - destruct pats as [ps|]; [|done]. intros ? [= <-].
    induction ps; constructor; auto.
  - destruct repo as [o|]; [|done]. intros ? [= <-].
    induction o as [|[k r] o]; constructor; auto.
  - destruct cap as [o|]; [|done]. intros ? [= <-].
    induction o as [|[k r] o]; constructor; auto.
  - destruct bcap as [o|]; [|done]. intros ? [= <-].
    induction o as [|[k r] o]; constructor; auto.
  - destruct ecap as [o|]; [|done]. intros ? [= <-].
    induction o as [|[k r] o]; constructor; auto.
Qed.

Lemma fmap_repack {A B} (l : list (A * B)) : (λ kv, (kv.1, kv.2)) <$> l = l.
Proof. induction l as [|[a b] l IH]; [done|]. simpl. by f_equal. Qed.

Lemma foldl_invariant {A B} (P : A → Prop) (f : A → B → A) (l : list B) a :
  P a → (∀ a b, P a → P (f a b)) → P (foldl f a l).
Proof. intros Ha Hf. revert a Ha. induction l; simpl; auto. Qed.

(** * The pruner: what every call preserves *)

(** One case analysis on a computation known to end with a result. *)
Ltac run_step H :=
  repeat first
    [ discriminate H
    | progress (unfold bind, get, modify, ret, outOfFuel, newPatterns2keep in H;
                simpl in H)
    | match type of H with
      | match ?x with _ => _ end = Some _ => destruct x eqn:?
      | (match ?x with _ => _ end) _ = Some _ => destruct x eqn:?
      end ].

Lemma lookup_s2g_Some st k w :
  lookup_s2g st k = Some w →
  obj_get k (s2g st) = Some w
  ∨ (obj_get k (s2g st) = None ∧ isInherited k = true ∧ w = inheritedGrammar).
Proof.
  unfold lookup_s2g. destruct (obj_get k (s2g st)); [naive_solver|].
  destruct (isInherited k); naive_solver.
Qed.

Lemma lookup_s2g_known st k w :
  lookup_s2g st k = Some w →
  k ∈ obj_keys (s2g st) ∨ isInherited k = true.
Proof.
  intros [?|(_ & ? & _)]%lookup_s2g_Some; [left|by right].
  by eapply obj_get_Some_keys.
Qed.

Lemma inKnownBaseScopes_false st k :
  inKnownBaseScopes st k = false →
  (k ∉ knownBaseScopes st) ∧ isInherited k = false.
Proof.
  unfold inKnownBaseScopes. rewrite orb_false_iff, bool_decide_eq_false. done.
Qed.

Lemma inKnownBaseScopes_elem st k :
  k ∈ knownBaseScopes st → inKnownBaseScopes st k = true.
Proof.
  intros Hk. unfold inKnownBaseScopes. by rewrite bool_decide_eq_true_2.
Qed.

Lemma lookup_s2g_visit st k w :
  lookup_s2g st k = Some w →
  inKnownBaseScopes st k = true ∨ obj_get k (s2g st) = Some w.
Proof.
  intros [?|(_ & Hk & _)]%lookup_s2g_Some; [by right|left].
  unfold inKnownBaseScopes. rewrite Hk. apply orb_true_r.
Qed.

Lemma inKeepSet_Some st k b :
  scopes2keep st !! k = Some b → inKeepSet st k = b.
Proof. unfold inKeepSet, lookup_plain. by intros ->. Qed.

Lemma inKeepSet_None st k :
  scopes2keep st !! k = None → inKeepSet st k = isInherited k.
Proof. unfold inKeepSet, lookup_plain. intros ->. by destruct (isInherited k). Qed.

Lemma inKeepSet_false st k :
  inKeepSet st k = false → scopes2keep st !! k ≠ Some true.
Proof. intros Hk E. by rewrite (inKeepSet_Some _ _ _ E) in Hk. Qed.

Lemma keysKept_trans st1 st2 st3 :
  keysKept st1 st2 → keysKept st2 st3 → keysKept st1 st3.
Proof. unfold keysKept. congruence. Qed.

Lemma keep_keys fuel :
  (∀ aRule p g st r st',
     keepRule fuel aRule p g st = Some (r, st') → keysKept st st')
  ∧ (∀ ps p g st r st',
       keepPatterns fuel ps p g st = Some (r, st') → keysKept st st')
  ∧ (∀ ps i d p g st r st',
       keepPatternsLoop fuel ps i d p g st = Some (r, st') → keysKept st st')
  ∧ (∀ inc p g st r st',
       keepInclude fuel inc p g st = Some (r, st') → keysKept st st')
  ∧ (∀ aBaseScope aGrammar st r st',
       aBaseScope ∈ obj_keys (s2g st) ∨ isInherited aBaseScope = true →
       keepGrammar fuel aBaseScope aGrammar st = Some (r, st') → keysKept st st').
Proof.
  induction fuel as [|fuel (IHr & IHp & IHl & IHi & IHg)];
    [by split_and!; intros; discriminate|].
  split_and!.
  - intros aRule p g st r st' H. simpl in H. run_step H; simplify_eq;
      try reflexivity.
    all: repeat match goal with
         | E : keepPatterns _ _ _ _ _ = Some _ |- _ => apply IHp in E
         | E : keepInclude _ _ _ _ _ = Some _ |- _ => apply IHi in E
         end; unfold keysKept in *; simpl; congruence.
  - intros ps p g st r st' H. simpl in H. run_step H; simplify_eq;
      try reflexivity.
    match goal with E : keepPatternsLoop _ _ _ _ _ _ _ = Some _ |- _ =>
      apply IHl in E end. done.
  - intros ps i d p g st r st' H. simpl in H. run_step H; simplify_eq;
      try reflexivity.
    all: match goal with
         | E : keepRule _ _ _ _ _ = Some _ |- _ => apply IHr in E
         end; apply IHl in H; by eapply keysKept_trans.
  - intros inc p g st r st' H. simpl in H. run_step H; simplify_eq;
      try reflexivity.
    all: try (match goal with
              | E : keepRule _ _ _ _ _ = Some _ |- _ => by apply IHr in E
              end).
    all: match goal with
         | E : keepGrammar _ _ _ _ = Some _, G : lookup_s2g _ _ = Some _ |- _ =>
             apply IHg in E; [done|by eapply lookup_s2g_known]
         end.
  - intros aBaseScope aGrammar st r st' Hin H. simpl in H.
    run_step H; simplify_eq; try reflexivity.
    all: match goal with
         | E : inKnownBaseScopes _ _ = false |- _ =>
             apply inKnownBaseScopes_false in E as [? Hown]
         end;
         destruct Hin as [Hin|Hin]; [|congruence].
    all: match goal with
         | E : keepPatterns _ _ _ _ _ = Some _ |- _ => apply IHp in E
         end; unfold keysKept in *; simpl in *; try congruence.
    destruct (g_repository aGrammar); simplify_eq; simpl; [|done].
    rewrite obj_keys_set_in; congruence.
Qed.

Lemma keepGrammars_keys fuel entries st r st' :
  obj_keys entries ⊆ obj_keys (s2g st) →
  keepGrammars fuel entries st = Some (r, st') → keysKept st st'.
Proof.
  revert st. induction entries as [|[k g] entries IH]; intros st Hsub H.
  - simpl in H. run_step H. by simplify_eq.
  - simpl in H. run_step H.
    match goal with E : keepGrammar _ _ _ _ = Some _ |- _ =>
      apply keep_keys in E; [|left; apply Hsub, list_elem_of_here] end.
    eapply keysKept_trans; [done|]. eapply IH; [|done].
    unfold keysKept in *. intros x Hx.
    match goal with E : obj_keys _ = obj_keys _ |- _ => rewrite E end.
    apply Hsub. by apply list_elem_of_further.
Qed.

(** * Working copies read back *)

Lemma copyRule_unfold f next :
  copyRule (MkRule f) next =
  let '(somePatterns, next) :=
    match r_patterns f with
    | None => (None, next)
    | Some ps => let '(ws, next) := copyRules ps next in (Some (next, ws), S next)
    end in
  (MkWRule (MkRuleOf (r_name f) (r_scopeName f) (r_contentName f)
              (r_match f) (r_begin f) (r_end f)
              (r_captures f) (r_beginCaptures f) (r_endCaptures f)
              somePatterns (r_repository f) (r_include f)),
   next).
Proof. reflexivity. Qed.

Lemma readRule_copyRule r next : readRule ∅ (copyRule r next).1 = r.
Proof.
  revert next. induction r as [f IHps _ _ _ _] using Rule_nested_ind.
  intros next. rewrite copyRule_unfold.
  destruct f as [n sn cn m b e cap bcap ecap pats repo inc]. simpl in *.
  destruct pats as [ps|]; [|done].
  specialize (IHps ps eq_refl).
  assert (∀ next, map (readRule ∅) (copyRules ps next).1 = ps) as Hps.
  { clear next. induction IHps as [|p ps Hp _ IH]; intros next; [done|].
    simpl. specialize (Hp next). destruct (copyRule p next) as [w next1].
    specialize (IH next1). destruct (copyRules ps next1) as [ws next2].
    simpl in *. by rewrite Hp, IH. }
  specialize (Hps next). destruct (copyRules ps next) as [ws next1].
  simpl in *. rewrite lookup_empty. simpl.
  rewrite <- (length_map (readRule ∅)), omap_lookup_seq. by rewrite Hps.
Qed.

Lemma readRules_copyRules ps next :
  map (readRule ∅) (copyRules ps next).1 = ps.
Proof.
  revert next. induction ps as [|p ps IH]; intros next; [done|].
  simpl. pose proof (readRule_copyRule p next) as Hp.
  destruct (copyRule p next) as [w next1].
  specialize (IH next1). destruct (copyRules ps next1) as [ws next2].
  simpl in *. by rewrite Hp, IH.
Qed.

Lemma readRepository_copyRepository repo next :
  map (λ kw, (kw.1, readRule ∅ kw.2)) (copyRepository repo next).1 = repo.
Proof.
  revert next. induction repo as [|[k r] repo IH]; intros next; [done|].
  simpl. pose proof (readRule_copyRule r next) as Hr.
  destruct (copyRule r next) as [w next1].
  specialize (IH next1). destruct (copyRepository repo next1) as [ws next2].
  simpl in *. by rewrite Hr, IH.
Qed.

Lemma readGrammar_copyGrammar g next : readGrammar ∅ (copyGrammar g next).1 = g.
Proof.
  destruct g as [sn pats repo ft flm]. unfold copyGrammar. simpl.
  destruct pats as [ps|]; simpl.
  - pose proof (readRules_copyRules ps next) as Hps.
    destruct (copyRules ps next) as [ws next1]. simpl in *.
    destruct repo as [repo|]; simpl.
    + pose proof (readRepository_copyRepository repo (S next1)) as Hrepo.
      destruct (copyRepository repo (S next1)) as [wrepo next2]. simpl in *.
      unfold readGrammar, readPatterns. simpl. rewrite lookup_empty. simpl.
      rewrite <- (length_map (readRule ∅)), omap_lookup_seq.
      by rewrite Hps, Hrepo.
    + unfold readGrammar, readPatterns. simpl. rewrite lookup_empty. simpl.
      rewrite <- (length_map (readRule ∅)), omap_lookup_seq.
      by rewrite Hps.
  - destruct repo as [repo|]; simpl; [|done].
    pose proof (readRepository_copyRepository repo next) as Hrepo.
    destruct (copyRepository repo next) as [wrepo next2]. simpl in *.
    unfold readGrammar. simpl. by rewrite Hrepo.
Qed.

Lemma copyOriginals_from (originals : obj Grammar) acc :
  NoDup (obj_keys acc.1 ++ obj_keys originals) →
  enumerated (obj_keys acc.1 ++ obj_keys originals) →
  let copies :=
    (foldl (λ acc aScopeGrammar,
              let '(w, next) := copyGrammar aScopeGrammar.2 acc.2 in
              (obj_set aScopeGrammar.1 w acc.1, next))
           acc originals).1 in
  obj_keys copies = obj_keys acc.1 ++ obj_keys originals
  ∧ map (λ kw, (kw.1, readGrammar ∅ kw.2)) copies
    = map (λ kw, (kw.1, readGrammar ∅ kw.2)) acc.1 ++ originals.
Proof.
  revert acc. induction originals as [|[k g] originals IH];
    intros [o next] Hnd Hen.
  - simpl. by rewrite !app_nil_r.
  - simpl in *. pose proof (readGrammar_copyGrammar g next) as Hg.
    destruct (copyGrammar g next) as [w next1]. simpl in Hg.
    assert (k ∉ obj_keys o) as Hk.
    { apply NoDup_app in Hnd as (_ & Hd & _). intros Hin. apply (Hd k Hin).
      apply list_elem_of_here. }
    rewrite obj_set_last; [|done|].
    2:{ apply (enumerated_app_inv_l _ (obj_keys originals)).
        by rewrite <- app_assoc. }
    specialize (IH (o ++ [(k, w)], next1)). simpl in IH.
    unfold obj_keys in IH. rewrite fmap_app in IH. simpl in IH.
    rewrite <- !app_assoc in IH. simpl in IH.
    destruct (IH Hnd Hen) as [IH1 IH2]. split; [done|].
    rewrite IH2, map_app. simpl. rewrite Hg. by rewrite <- app_assoc.
Qed.

Lemma copyOriginals_keys originals :
  NoDup (obj_keys originals) → enumerated (obj_keys originals) →
  obj_keys (copyOriginals originals).1 = obj_keys originals.
Proof. intros Hnd Hen. by apply (copyOriginals_from originals ([], 0)). Qed.

Lemma copyOriginals_read originals :
  NoDup (obj_keys originals) → enumerated (obj_keys originals) →
  map (λ kw, (kw.1, readGrammar ∅ kw.2)) (copyOriginals originals).1 = originals.
Proof. intros Hnd Hen. by apply (copyOriginals_from originals ([], 0)). Qed.

(** * Addresses of working copies *)

Lemma freshBetween_nil n : freshBetween n n [].
Proof. split_and!; [done|apply NoDup_nil_2|by intros a ?%elem_of_nil]. Qed.

Lemma freshBetween_app lo mid hi l1 l2 :
  freshBetween lo mid l1 → freshBetween mid hi l2 →
  freshBetween lo hi (l1 ++ l2).
Proof.
  intros (? & Hnd1 & H1) (? & Hnd2 & H2). split_and!; [lia| |].
  - apply NoDup_app. split_and!; [done| |done].
    intros a Ha1 Ha2. apply H1 in Ha1. apply H2 in Ha2. lia.
  - intros a [Ha|Ha]%elem_of_app; [apply H1 in Ha|apply H2 in Ha]; lia.
Qed.

Lemma freshBetween_snoc lo hi l :
  freshBetween lo hi l → freshBetween lo (S hi) (hi :: l).
Proof.
  intros (? & Hnd & Hl). split_and!; [lia| |].
  - apply NoDup_cons. split; [|done]. intros Ha%Hl. lia.
  - intros a [->|Ha]%elem_of_cons; [lia|]. apply Hl in Ha. lia.
Qed.

Lemma copyRules_fresh ps next :
  Forall (λ p, ∀ next, freshBetween next (copyRule p next).2
                         (addressesOf (copyRule p next).1)) ps →
  freshBetween next (copyRules ps next).2
    (addressesOfRules (copyRules ps next).1).
Proof.
  intros Hps. revert next. induction Hps as [|p ps Hp _ IH]; intros next.
  - apply freshBetween_nil.
  - simpl. specialize (Hp next). destruct (copyRule p next) as [w next1].
    specialize (IH next1). destruct (copyRules ps next1) as [ws next2].
    simpl in *. by eapply freshBetween_app.
Qed.

Lemma copyRule_fresh r next :
  freshBetween next (copyRule r next).2 (addressesOf (copyRule r next).1).
Proof.
  revert next. induction r as [f IHps _ _ _ _] using Rule_nested_ind.
  intros next. rewrite copyRule_unfold.
  destruct (r_patterns f) as [ps|] eqn:Eps; simpl; [|apply freshBetween_nil].
  pose proof (copyRules_fresh ps next (IHps ps eq_refl)) as Hps.
  destruct (copyRules ps next) as [ws next1]. simpl in *.
  by apply freshBetween_snoc.
Qed.

Lemma copyRepository_fresh repo next :
  freshBetween next (copyRepository repo next).2
    (addressesOfRules (copyRepository repo next).1.*2).
Proof.
  revert next. induction repo as [|[k r] repo IH]; intros next.
  - apply freshBetween_nil.
  - simpl. pose proof (copyRule_fresh r next) as Hr.
    destruct (copyRule r next) as [w next1].
    specialize (IH next1). destruct (copyRepository repo next1) as [ws next2].
    simpl in *. by eapply freshBetween_app.
Qed.

(** Every pattern array of a working copy has an address of its own, not
    used before the copy was made. *)
Lemma copyGrammar_fresh g next :
  freshBetween next (copyGrammar g next).2
    (addressesOfGrammar (copyGrammar g next).1).
Proof.
  unfold copyGrammar, addressesOfGrammar.
  destruct (g_patterns g) as [ps|]; simpl.
  - pose proof (copyRules_fresh ps next) as Hps.
    destruct (copyRules ps next) as [ws next1].
    assert (freshBetween next (S next1) (next1 :: addressesOfRules ws)) as Hroot.
    { apply freshBetween_snoc, Hps.
      apply Forall_forall. intros p _ n. apply copyRule_fresh. }
    destruct (g_repository g) as [repo|]; simpl.
    + pose proof (copyRepository_fresh repo (S next1)) as Hrepo.
      destruct (copyRepository repo (S next1)) as [wrepo next2]. simpl in *.
      by apply (freshBetween_app next (S next1) next2 (_ :: _)).
    + rewrite app_nil_r. done.
  - destruct (g_repository g) as [repo|]; simpl; [|apply freshBetween_nil].
    pose proof (copyRepository_fresh repo next) as Hrepo.
    by destruct (copyRepository repo next) as [wrepo next2].
Qed.

Lemma copyOriginals_fresh_from (originals : obj Grammar) acc lo :
  NoDup (obj_keys acc.1 ++ obj_keys originals) →
  enumerated (obj_keys acc.1 ++ obj_keys originals) →
  freshBetween lo acc.2 (concat (map (λ kw, addressesOfGrammar kw.2) acc.1)) →
  let copies :=
    foldl (λ acc aScopeGrammar,
             let '(w, next) := copyGrammar aScopeGrammar.2 acc.2 in
             (obj_set aScopeGrammar.1 w acc.1, next))
          acc originals in
  freshBetween lo copies.2
    (concat (map (λ kw, addressesOfGrammar kw.2) copies.1)).
Proof.
  revert acc. induction originals as [|[k g] originals IH];
    intros [o next] Hnd Hen Hacc; [done|].
  simpl in *. pose proof (copyGrammar_fresh g next) as Hg.
  destruct (copyGrammar g next) as [w next1]. simpl in Hg.
  assert (k ∉ obj_keys o) as Hk.
  { apply NoDup_app in Hnd as (_ & Hd & _). intros Hin. apply (Hd k Hin).
    apply list_elem_of_here. }
  rewrite obj_set_last; [|done|].
  2:{ apply (enumerated_app_inv_l _ (obj_keys originals)).
      by rewrite <- app_assoc. }
  apply (IH (o ++ [(k, w)], next1)); simpl.
  - unfold obj_keys in *. rewrite fmap_app. simpl.
    by rewrite <- app_assoc.
  - unfold obj_keys in *. rewrite fmap_app. simpl.
    by rewrite <- app_assoc.
  - rewrite map_app, concat_app. simpl. rewrite app_nil_r.
    by eapply freshBetween_app.
Qed.

(** Across the whole working map the addresses are pairwise different. *)
Lemma copyOriginals_fresh originals :
  NoDup (obj_keys originals) → enumerated (obj_keys originals) →
  freshBetween 0 (copyOriginals originals).2
    (concat (map (λ kw, addressesOfGrammar kw.2) (copyOriginals originals).1)).
Proof.
  intros Hnd Hen.
  apply (copyOriginals_fresh_from originals ([], 0) 0); [done|done|].
  apply freshBetween_nil.
Qed.

(** * Fuel *)

Lemma bind_Some {A B} (m : M A) (k : A → M B) st r :
  bind m k st = Some r ↔ ∃ a st', m st = Some (a, st') ∧ k a st' = Some r.
Proof.
  unfold bind. destruct (m st) as [[a st']|]; [|naive_solver].
  split; [eauto|]. by intros (? & ? & [= <- <-] & ?).
Qed.

(** A call that has come back with some fuel comes back the same with
    more. *)
Lemma keep_more_fuel fuel :
  (∀ fuel' aRule p g st r, fuel ≤ fuel' →
     keepRule fuel aRule p g st = Some r →
     keepRule fuel' aRule p g st = Some r)
  ∧ (∀ fuel' ps p g st r, fuel ≤ fuel' →
       keepPatterns fuel ps p g st = Some r →
       keepPatterns fuel' ps p g st = Some r)
  ∧ (∀ fuel' ps i d p g st r, fuel ≤ fuel' →
       keepPatternsLoop fuel ps i d p g st = Some r →
       keepPatternsLoop fuel' ps i d p g st = Some r)
  ∧ (∀ fuel' inc p g st r, fuel ≤ fuel' →
       keepInclude fuel inc p g st = Some r →
       keepInclude fuel' inc p g st = Some r)
  ∧ (∀ fuel' aBaseScope aGrammar st r, fuel ≤ fuel' →
       keepGrammar fuel aBaseScope aGrammar st = Some r →
       keepGrammar fuel' aBaseScope aGrammar st = Some r).
Proof.
  induction fuel as [|fuel (IHr & IHp & IHl & IHi & IHg)];
    [by split_and!; intros; discriminate|].
  split_and!.
  - intros [|fuel'] aRule p g st r Hle H; [lia|]. cbn [keepRule] in *.
    destruct aRule as [[f]|]; [|done].
    unfold bind at 1. unfold bind at 1 in H. unfold get in *.
    repeat (match goal with
            | |- (if ?b then _ else _) _ = _ => destruct b; [done|]
            end).
    apply bind_Some in H as (kp & st1 & Hkp & H).
    apply (IHp fuel') in Hkp; [|lia]. apply bind_Some.
    exists kp, st1. split; [done|]. destruct kp; [done|].
    apply bind_Some in H as (ki & st2 & Hki & H).
    apply (IHi fuel') in Hki; [|lia]. apply bind_Some. eauto.
  - intros [|fuel'] ps p g st r Hle H; [lia|]. cbn [keepPatterns] in *.
    destruct ps as [ps|]; [|done].
    apply bind_Some in H as (d & st1 & Hd & H).
    apply (IHl fuel') in Hd; [|lia]. apply bind_Some. eauto.
  - intros [|fuel'] ps i d p g st r Hle H; [lia|].
    cbn [keepPatternsLoop] in *.
    unfold bind at 1. unfold bind at 1 in H. unfold get in *.
    destruct (present st ps !! i); [|done].
    apply bind_Some in H as (kept & st1 & Hk & H).
    apply (IHr fuel') in Hk; [|lia]. apply bind_Some.
    exists kept, st1. split; [done|]. apply IHl; [lia|done].
  - intros [|fuel'] inc p g st r Hle H; [lia|]. cbn [keepInclude] in *.
    destruct (negb (truthyStr inc)); [done|].
    destruct (startsWith (propKey inc) "$"); [done|].
    destruct (startsWith (propKey inc) "#").
    + unfold bind at 1. unfold bind at 1 in H. unfold get in *.
      destruct (inPatterns2keep st p (propKey inc)); [done|].
      apply bind_Some in H as (kept & st1 & Hk & H).
      apply (IHr fuel') in Hk; [|lia]. apply bind_Some. eauto.
    + unfold bind at 1. unfold bind at 1 in H. unfold get in *.
      destruct (inKeepSet st (propKey inc)); [done|].
      destruct (lookup_s2g st (propKey inc)) as [aGrammar|]; [|done].
      apply bind_Some in H as (kept & st1 & Hk & H).
      apply (IHg fuel') in Hk; [|lia]. apply bind_Some. eauto.
  - intros [|fuel'] aBaseScope aGrammar st r Hle H; [lia|].
    cbn [keepGrammar] in *.
    unfold bind at 1. unfold bind at 1 in H. unfold get in *.
    destruct (inKnownBaseScopes st aBaseScope); [done|].
    unfold bind at 1. unfold bind at 1 in H. unfold modify at 1 in H.
    unfold modify at 1.
    destruct (inKeepSet st aBaseScope); [done|].
    destruct (g_patterns aGrammar) as [ps|]; [|done].
    apply bind_Some in H as (p2k & st1 & Hp2k & H). apply bind_Some.
    exists p2k, st1. split; [done|].
    apply bind_Some in H as (kept & st2 & Hk & H).
    apply (IHp fuel') in Hk; [|lia]. apply bind_Some. eauto.
Qed.

Lemma keepGrammars_more_fuel fuel fuel' entries st r :
  fuel ≤ fuel' →
  keepGrammars fuel entries st = Some r →
  keepGrammars fuel' entries st = Some r.
Proof.
  intros Hle. revert st. induction entries as [|[k g] l IH]; intros st H;
    [done|].
  cbn [keepGrammars] in *.
  apply bind_Some in H as (kept & st1 & Hk & H).
  destruct (keep_more_fuel fuel) as (_ & _ & _ & _ & Hg).
  apply (Hg fuel') in Hk; [|done]. apply bind_Some. eauto.
Qed.

(** [pruneGrammars] that has come back with some fuel comes back the same
    with more. *)
Lemma pruneGrammars_more_fuel fuel fuel' scopes2keep st r :
  fuel ≤ fuel' →
  pruneGrammars fuel scopes2keep st = Some r →
  pruneGrammars fuel' scopes2keep st = Some r.
Proof.
  intros Hle. unfold pruneGrammars.
  destruct (keepGrammars fuel _ _) as [[[] pst]|] eqn:E; [|done].
  by rewrite (keepGrammars_more_fuel fuel fuel' _ _ _ Hle E).
Qed.

(** * The states of the grammar store *)

Section StoreFacts.
Context `{Externals}.

Lemma registerGrammar_rebuilds aGrammar st :
  consistent st →
  let originals :=
    if truthyStr (g_scopeName aGrammar)
    then obj_set (propKey (g_scopeName aGrammar)) aGrammar
                 (originalScope2grammar st)
    else originalScope2grammar st in
  (registerGrammar aGrammar st).1
  = MkState originals originals (loadedGrammars st)
  ∧ NoDup (obj_keys originals).
Proof.
  intros [Hnd Hkeys]. unfold registerGrammar, deepcopy.
  destruct (truthyStr (g_scopeName aGrammar)); simpl.
  - set (k := propKey (g_scopeName aGrammar)).
    assert (NoDup (obj_keys (obj_set k aGrammar (originalScope2grammar st))))
      as Hnd' by by apply obj_set_NoDup.
    split; [|done]. f_equal. by apply rebuild_same.
  - split; [|done]. f_equal. by apply rebuild_unchanged.
Qed.

Lemma registerGrammar_enumerated aGrammar st :
  enumerated (obj_keys (originalScope2grammar st)) →
  enumerated (obj_keys (originalScope2grammar (registerGrammar aGrammar st).1)).
Proof.
  intros Hen. unfold registerGrammar.
  destruct (truthyStr (g_scopeName aGrammar)); simpl; [|done].
  by apply obj_set_enumerated.
Qed.

Lemma loadGrammarFrom_enumerated aGrammarPath st :
  enumerated (obj_keys (originalScope2grammar st)) →
  enumerated
    (obj_keys (originalScope2grammar (outcome (loadGrammarFrom aGrammarPath st)).1)).
Proof.
  intros Hen. unfold loadGrammarFrom.
  repeat case_match; simpl; try done.
  match goal with E : registerGrammar ?g ?s = _ |- _ =>
    pose proof (registerGrammar_enumerated g s Hen) as Hr;
    by rewrite E in Hr end.
Qed.

Lemma loadGrammarFrom_consistent aGrammarPath st :
  consistent st → consistent (outcome (loadGrammarFrom aGrammarPath st)).1.
Proof.
  intros Hc. unfold loadGrammarFrom.
  repeat case_match; simpl; try done.
  match goal with E : registerGrammar ?g ?s = _ |- _ =>
    destruct (registerGrammar_rebuilds g s) as [Hr Hnd]; [done|];
    rewrite E in Hr; simpl in Hr; subst end.
  by split.
Qed.

Lemma pruneGrammars_consistent fuel scopes2keep st st' scopes2keep' :
  consistent st →
  enumerated (obj_keys (originalScope2grammar st)) →
  pruneGrammars fuel scopes2keep st = Some (st', scopes2keep') →
  consistent st'.
Proof.
  intros [Hnd Hkeys] Hen Hp. unfold pruneGrammars in Hp.
  destruct (keepGrammars _ _ _) as [[[] pst]|] eqn:E; [|done].
  simplify_eq. split; [done|]. simpl.
  apply keepGrammars_keys in E; [|done]. unfold keysKept in E. simpl in E.
  unfold obj_keys in *. rewrite <- list_fmap_compose.
  change (fst ∘ _) with (@fst string WGrammar).
  rewrite E. by apply copyOriginals_keys.
Qed.

Lemma pruneGrammars_originals fuel scopes2keep st st' scopes2keep' :
  pruneGrammars fuel scopes2keep st = Some (st', scopes2keep') →
  originalScope2grammar st' = originalScope2grammar st.
Proof.
  unfold pruneGrammars. destruct (keepGrammars _ _ _) as [[[] pst]|]; [|done].
  by intros [= <- _].
Qed.

(** In every state the class can reach the maps are consistent and list
    their keys as [Object.entries] does. *)
Lemma reachable_wellformed st :
  reachable st →
  consistent st ∧ enumerated (obj_keys (originalScope2grammar st)).
Proof.
  induction 1 as [|p st _ [IH1 IH2]|fuel keep st st' keep' _ [IH1 IH2] Hp].
  - split; [split; [apply NoDup_nil_2|done]|constructor].
  - split; [by apply loadGrammarFrom_consistent|by apply loadGrammarFrom_enumerated].
  - split; [by eapply pruneGrammars_consistent|].
    by rewrite (pruneGrammars_originals _ _ _ _ _ Hp).
Qed.

Lemma reachable_consistent st : reachable st → consistent st.
Proof. by intros [? _]%reachable_wellformed. Qed.

Lemma reachable_enumerated st :
  reachable st → enumerated (obj_keys (originalScope2grammar st)).
Proof. by intros [_ ?]%reachable_wellformed. Qed.

End StoreFacts.

(** * Known scopes *)

Lemma addName_keeps aName known k :
  k ∈ obj_keys known → k ∈ obj_keys (addName aName known).
Proof.
  unfold addName. destruct (truthyStr aName); [|done]. apply obj_keys_set_elem.
Qed.

Lemma foldl_keeps {A} (f : obj bool → A → obj bool) (l : list A) known k :
  Forall (λ a, ∀ known, k ∈ obj_keys known → k ∈ obj_keys (f known a)) l →
  k ∈ obj_keys known → k ∈ obj_keys (foldl f known l).
Proof.
  intros Hl. revert known. induction Hl as [|a l Ha _ IH]; intros known Hk;
    simpl; auto.
Qed.

Lemma addScopesFromRule_keeps aRule known k :
  k ∈ obj_keys known → k ∈ obj_keys (addScopesFromRule aRule known).
Proof.
  revert known.
  induction aRule as [f IHps IHrepo IHcap IHbcap IHecap] using Rule_nested_ind.
  intros known Hk. simpl.
  assert (∀ (o : option (obj Rule)) known,
            (∀ l, o = Some l → Forall (λ kv,
               ∀ known, k ∈ obj_keys known →
                        k ∈ obj_keys (addScopesFromRule kv.2 known)) l) →
            k ∈ obj_keys known →
            k ∈ obj_keys
                  (match o with
                   | Some someEntries =>
                       foldl (λ known aKeyValue,
                                addScopesFromRule aKeyValue.2 known)
                             known someEntries
                   | None => known
                   end)) as Hentries.
  { intros [l|] known' Hl Hk'; [|done]. apply foldl_keeps; [|done].
    eapply Forall_impl; [by apply Hl|]. simpl. auto. }
  apply Hentries; [done|]. apply Hentries; [done|]. apply Hentries; [done|].
  apply Hentries; [done|].
  destruct (r_patterns f) as [ps|] eqn:Eps.
  - apply foldl_keeps; [|by do 3 apply addName_keeps].
    eapply Forall_impl; [by apply IHps|]. simpl. auto.
  - by do 3 apply addName_keeps.
Qed.

Lemma addScopesFromPatterns_keeps ps known k :
  k ∈ obj_keys known → k ∈ obj_keys (addScopesFromPatterns ps known).
Proof.
  intros Hk. destruct ps as [ps|]; [|done]. simpl.
  apply foldl_keeps; [|done]. apply Forall_forall. intros r _ known' Hk'.
  by apply addScopesFromRule_keeps.
Qed.

Lemma addScopesFromRepository_keeps repo known k :
  k ∈ obj_keys known → k ∈ obj_keys (addScopesFromRepository repo known).
Proof.
  intros Hk. destruct repo as [repo|]; [|done]. simpl.
  apply foldl_keeps; [|done]. apply Forall_forall. intros r _ known' Hk'.
  by apply addScopesFromRule_keeps.
Qed.

(** Every base scope of the working map is a known scope. *)
Lemma getKnownScopes_base_scopes st k :
  k ∈ obj_keys (scope2grammar st) → k ∈ getKnownScopes st.
Proof.
  unfold getKnownScopes. rewrite merge_sort_Permutation.
  generalize (@nil (string * bool)).
  induction (scope2grammar st) as [|[k' g] entries IH]; intros known Hk.
  - by apply elem_of_nil in Hk.
  - simpl. unfold obj_keys in Hk. simpl in Hk. apply elem_of_cons in Hk as [->|Hk].
    + apply foldl_keeps.
      * apply Forall_forall. intros kg _ known' Hk'.
        apply addScopesFromRepository_keeps, addScopesFromPatterns_keeps.
        by apply obj_keys_set_elem.
      * apply addScopesFromRepository_keeps, addScopesFromPatterns_keeps.
        apply obj_keys_set_self.
    + by apply IH.
Qed.

Lemma keepSetOf_lookup someScopes k :
  k ∈ someScopes → keepSetOf someScopes !! k = Some true.
Proof.
  unfold keepSetOf. induction someScopes as [|s l IH]; intros Hk.
  - by apply elem_of_nil in Hk.
  - simpl. destruct (decide (s = k)) as [->|Hne].
    + apply lookup_insert_eq.
    + rewrite lookup_insert_ne by done. apply IH.
      apply elem_of_cons in Hk as [?|?]; [congruence|done].
Qed.

(** * The pruner on a first visit *)

(** A grammar without patterns: one step of fuel is enough, the answer is
    the keep-set's, and nothing but [knownBaseScopes] is written to. *)
Lemma keepGrammar_bare fuel aBaseScope aGrammar st :
  g_patterns aGrammar = None →
  ∃ r,
    keepGrammar (S fuel) aBaseScope aGrammar st
    = Some (r, if inKnownBaseScopes st aBaseScope then st
               else setKnownBaseScope aBaseScope st)
    ∧ truthy r = inKeepSet st aBaseScope.
Proof.
  intros Hpat. simpl. unfold bind, get, modify, ret. simpl.
  destruct (inKnownBaseScopes st aBaseScope); [by eexists|].
  destruct (inKeepSet st aBaseScope) eqn:E; [by eexists|].
  rewrite Hpat. by eexists.
Qed.

Lemma keepGrammar_kept fuel aBaseScope aGrammar st :
  inKeepSet st aBaseScope = true →
  ∃ known r,
    keepGrammar (S fuel) aBaseScope aGrammar st
    = Some (r,
            MkPState (store st) (s2g st) (scopes2keep st) known (p2kObjects st))
    ∧ truthy r = true.
Proof.
  intros Hkeep. simpl. unfold bind, get, modify, ret. simpl.
  destruct (inKnownBaseScopes _ _).
  - exists (knownBaseScopes st), (lookup_plain (scopes2keep st) aBaseScope).
    split; [by destruct st|done].
  - rewrite Hkeep. by eexists _, _.
Qed.

Lemma keepGrammars_all_kept fuel entries st :
  (∀ k, k ∈ obj_keys entries → inKeepSet st k = true) →
  ∃ known,
    keepGrammars (S fuel) entries st
    = Some (tt, MkPState (store st) (s2g st) (scopes2keep st) known
                         (p2kObjects st)).
Proof.
  revert st. induction entries as [|[k g] entries IH]; intros st Hall.
  - exists (knownBaseScopes st). by destruct st.
  - destruct (keepGrammar_kept fuel k g st) as (known & r & Hk & _).
    { apply Hall, list_elem_of_here. }
    cbn [keepGrammars]. unfold bind at 1. rewrite Hk.
    destruct (IH (MkPState (store st) (s2g st) (scopes2keep st) known
                           (p2kObjects st))) as [known' Hrest].
    { intros k' Hk'. unfold inKeepSet. simpl.
      apply (Hall k'). by apply list_elem_of_further. }
    exists known'. by rewrite Hrest.
Qed.

(** * Includes that lead back to themselves *)

Lemma startsWith_hash k : startsWith ("#" +:+ k) "#" = true.
Proof. by destruct k. Qed.

Lemma startsWith_hash_dollar k : startsWith ("#" +:+ k) "$" = false.
Proof. done. Qed.

Lemma lookup_repository_Some k gRepo w :
  obj_get k gRepo = Some w → lookup_repository k gRepo = Some w.
Proof. unfold lookup_repository. by intros ->. Qed.

Lemma keepInclude_local fuel k patterns2keep gRepo st :
  keepInclude (S fuel) (Some ("#" +:+ k)) patterns2keep gRepo st
  = if inPatterns2keep st patterns2keep ("#" +:+ k) then Some (RBool true, st)
    else match keepRule fuel (lookup_repository k gRepo) patterns2keep gRepo st with
         | Some (kept, st') => Some (RBool kept, st')
         | None => None
         end.
Proof.
  cbn [keepInclude truthyStr propKey default].
  change (negb (negb (String.eqb ("#" +:+ k) ""))) with false.
  cbn match. unfold id. rewrite startsWith_hash_dollar, startsWith_hash.
  change (slice1 ("#" +:+ k)) with k.
  unfold bind, get, ret.
  destruct (inPatterns2keep _ _ _); [done|].
  destruct (keepRule _ _ _ _ _) as [[[] ?]|]; done.
Qed.

(** A transparent rule whose include leads into such a set of keys is never
    done with, whatever the fuel. *)
Lemma keepRule_into_cycle st patterns2keep gRepo onCycle :
  closedUnderInclude st patterns2keep gRepo onCycle →
  ∀ fuel w k,
    transparent st w →
    r_include (wfieldsOf w) = Some ("#" +:+ k) →
    onCycle k →
    keepRule fuel (Some w) patterns2keep gRepo st = None.
Proof.
  intros Hclosed fuel. induction (lt_wf fuel) as [fuel _ IH].
  intros [f] k Htr Hinc Hk.
  destruct (Hclosed k Hk) as (Hp2k & w' & k' & Hget & Htr' & Hinc' & Hk').
  unfold transparent in Htr. simpl in Htr, Hinc.
  destruct Htr as (Hn & Hc & Hcap & Hbcap & Hecap & Hpat).
  destruct fuel as [|fuel]; [done|].
  cbn [keepRule]. unfold bind at 1. unfold get.
  rewrite Hn, Hc, Hcap, Hbcap, Hecap, Hpat, Hinc.
  destruct fuel as [|fuel]; [done|].
  unfold bind at 1. cbn [keepPatterns]. unfold ret at 1.
  unfold bind at 1.
  rewrite keepInclude_local, Hp2k, (lookup_repository_Some _ _ _ Hget).
  rewrite (IH fuel) with (k := k'); [done|lia|done..].
Qed.

Lemma keepRule_cycle_diverges st patterns2keep gRepo onCycle :
  closedUnderInclude st patterns2keep gRepo onCycle →
  ∀ fuel k, onCycle k →
    keepRule fuel (lookup_repository k gRepo) patterns2keep gRepo st = None.
Proof.
  intros Hclosed fuel k Hk.
  destruct (Hclosed k Hk) as (_ & w & k' & Hget & Htr & Hinc & Hk').
  rewrite (lookup_repository_Some _ _ _ Hget). by eapply keepRule_into_cycle.
Qed.

Lemma transparent_scopes2keep st st' w :
  scopes2keep st' = scopes2keep st → transparent st w → transparent st' w.
Proof.
  intros Heq. unfold transparent, keepScope, keepCapture, inKeepSet.
  by rewrite Heq.
Qed.

Lemma keepPatterns_into_cycle st patterns2keep gRepo onCycle a w rest k :
  closedUnderInclude st patterns2keep gRepo onCycle →
  store st !! a = None →
  transparent st w →
  r_include (wfieldsOf w) = Some ("#" +:+ k) →
  onCycle k →
  ∀ fuel, keepPatterns fuel (Some (a, w :: rest)) patterns2keep gRepo st = None.
Proof.
  intros Hclosed Hfresh Htr Hinc Hk fuel.
  destruct fuel as [|fuel]; [done|]. cbn [keepPatterns]. unfold bind at 1.
  destruct fuel as [|fuel]; [done|]. cbn [keepPatternsLoop].
  unfold bind at 1. unfold get. unfold present. cbn [fst snd].
  rewrite Hfresh. cbn [default length seq lookup list_lookup].
  unfold bind at 1. by erewrite keepRule_into_cycle.
Qed.

(** A grammar visited for the first time and not itself kept, whose first
    root pattern is transparent and includes a repository key from which the
    includes of transparent rules never lead out: [keepGrammar] does not
    come back. *)
Lemma keepGrammar_into_cycle aBaseScope aGrammar st a w rest k onCycle :
  inKnownBaseScopes st aBaseScope = false →
  inKeepSet st aBaseScope = false →
  g_patterns aGrammar = Some (a, w :: rest) →
  store st !! a = None →
  transparent st w →
  r_include (wfieldsOf w) = Some ("#" +:+ k) →
  onCycle k →
  (∀ k, onCycle k →
     ∃ w k', obj_get k (default [] (g_repository aGrammar)) = Some w
             ∧ transparent st w
             ∧ r_include (wfieldsOf w) = Some ("#" +:+ k')
             ∧ onCycle k') →
  ∀ fuel, keepGrammar fuel aBaseScope aGrammar st = None.
Proof.
  intros Hknown Hkeep Hpat Hfresh Htr Hinc Hk Hclosed fuel.
  destruct fuel as [|fuel]; [done|]. cbn [keepGrammar].
  unfold bind at 1. unfold get. rewrite Hknown.
  unfold bind at 1. unfold modify. rewrite Hkeep, Hpat.
  unfold bind at 1. unfold newPatterns2keep. unfold bind at 1.
  erewrite keepPatterns_into_cycle; [done| |done| |done..].
  - intros k1 Hk1. split.
    + unfold inPatterns2keep. simpl.
      by rewrite (list_lookup_middle _ [] ∅ _ eq_refl).
    + destruct (Hclosed k1 Hk1) as (w1 & k2 & ? & ? & ? & ?).
      by exists w1, k2.
  - by eapply transparent_scopes2keep.
Qed.

(** C1.  The grammar
    [{"scopeName": "t", "patterns": [{"include": "#a"}],
      "repository": {"a": {"include": "#b"}, "b": {"include": "#a"}}}]
    pruned with an empty keep-set: no amount of fuel lets [pruneGrammars]
    finish, the call recurses from [#a] to [#b] and back until the stack is
    exhausted. *)
Theorem pruneGrammars_cyclic_includes_diverge :
  ∀ fuel, pruneGrammars fuel ∅ Demo.cyclicState = None.
Proof.
  intros fuel. unfold pruneGrammars.
  set (s2g0 := (copyOriginals (originalScope2grammar Demo.cyclicState)).1).
  vm_compute in s2g0. subst s2g0.
  cbn [keepGrammars]. unfold bind at 1.
  erewrite (keepGrammar_into_cycle _ _ _ _ _ _ "a" (λ k, k = "a" ∨ k = "b"));
    [done|..].
  - done.
  - done.
  - reflexivity.
  - done.
  - by split_and!.
  - reflexivity.
  - by left.
  - intros k [-> | ->]; eexists _, _; (split; [reflexivity|]);
      (split; [by split_and!|]); (split; [reflexivity|]); auto.
Qed.

(** * Claims about the pruner *)

(** C2, as the code has it.  For a grammar that has no [patterns] key
    [keepGrammar] comes back, on its first visit to the base scope and on
    every later one, with the answer of the keep-set: what it returns is
    truthy exactly when [scopes2keep[aBaseScope]] is, and it is [true] when
    the base scope is marked [true] there.  It writes to nothing but
    [knownBaseScopes]. *)
Theorem keepGrammar_without_patterns fuel aBaseScope (aGrammar : WGrammar) st :
  g_patterns aGrammar = None →
  ∃ r st',
    keepGrammar (S fuel) aBaseScope aGrammar st = Some (r, st')
    ∧ truthy r = inKeepSet st aBaseScope
    ∧ (scopes2keep st !! aBaseScope = Some true → r = RBool true)
    ∧ store st' = store st
    ∧ s2g st' = s2g st
    ∧ scopes2keep st' = scopes2keep st.
Proof.
  intros Hpat. simpl. unfold bind, get, modify, ret. simpl.
  destruct (inKnownBaseScopes st aBaseScope).
  - eexists _, _. split; [done|]. split_and!; try done.
    unfold lookup_plain. by intros ->.
  - destruct (inKeepSet st aBaseScope) eqn:E.
    + eexists _, _. split; [done|]. by split_and!.
    + rewrite Hpat. eexists _, _. split; [done|]. split_and!; try done.
      intros Hk. by rewrite (inKeepSet_Some _ _ _ Hk) in E.
Qed.

Lemma keepGrammar_without_patterns_witness :
  ∃ r st',
    keepGrammar 1 "t" bareGrammar bareStateUnkept = Some (r, st')
    ∧ truthy r = inKeepSet bareStateUnkept "t"
    ∧ (scopes2keep bareStateUnkept !! "t" = Some true → r = RBool true)
    ∧ store st' = store bareStateUnkept
    ∧ s2g st' = s2g bareStateUnkept
    ∧ scopes2keep st' = scopes2keep bareStateUnkept.
Proof.
  apply (keepGrammar_without_patterns 0 "t" bareGrammar bareStateUnkept).
  reflexivity.
Defined.

(** That [keepGrammar] returns [false] for every grammar without patterns
    does not hold: the grammar [{"scopeName": "t"}] has no patterns, its
    base scope is in the keep-set, and [keepGrammar] returns [true]. *)
Lemma keepGrammar_without_patterns_kept :
  ¬ (∀ fuel aBaseScope (aGrammar : WGrammar) st r st',
       g_patterns aGrammar = None →
       obj_get aBaseScope (s2g st) = Some aGrammar →
       keepGrammar fuel aBaseScope aGrammar st = Some (r, st') →
       r = RBool false).
Proof.
  intros claim.
  specialize (claim 1 "t" bareGrammar bareState (RBool true)
                (setKnownBaseScope "t" bareState) eq_refl eq_refl).
  discriminate claim. vm_compute. reflexivity.
Qed.

Section PrunerClaims.
Context `{Externals}.

(** C3.  In every state the class can reach, pruning with the known scopes
    as keep-set ends, with one unit of fuel or more, leaves the working map
    equal to deep copies of the originals, and adds nothing to the
    keep-set. *)
Theorem pruneGrammars_known_scopes_unchanged st fuel :
  reachable st →
  pruneGrammars (S fuel) (keepSetOf (getKnownScopes st)) st
  = Some (MkState ((λ kv, (kv.1, deepcopy kv.2)) <$> originalScope2grammar st)
                  (originalScope2grammar st) (loadedGrammars st),
          keepSetOf (getKnownScopes st)).
Proof.
  intros [[Hnd Hkeys] Hen]%reachable_wellformed. unfold pruneGrammars.
  set (s2g0 := (copyOriginals (originalScope2grammar st)).1).
  destruct (keepGrammars_all_kept fuel s2g0
              (MkPState ∅ s2g0 (keepSetOf (getKnownScopes st)) ∅ []))
    as [known Hrun].
  { intros k Hk. apply inKeepSet_Some. simpl.
    rewrite keepSetOf_lookup; [done|]. apply getKnownScopes_base_scopes.
    rewrite Hkeys. subst s2g0. by rewrite copyOriginals_keys in Hk. }
  rewrite Hrun. simpl. do 2 f_equal.
  subst s2g0. rewrite copyOriginals_read by done.
  unfold deepcopy. by rewrite fmap_repack.
Qed.

End PrunerClaims.

Lemma pruneGrammars_known_scopes_unchanged_witness :
  pruneGrammars 1 (keepSetOf (getKnownScopes keywordsPruned)) keywordsPruned
  = Some (MkState ((λ kv, (kv.1, deepcopy kv.2))
                     <$> originalScope2grammar keywordsPruned)
                  (originalScope2grammar keywordsPruned)
                  (loadedGrammars keywordsPruned),
          keepSetOf (getKnownScopes keywordsPruned)).
Proof.
  apply (pruneGrammars_known_scopes_unchanged (H := externals) keywordsPruned 0).
  eapply (reachable_prune 10 {["kw.a" := true]} keywordsLoaded).
  - apply (reachable_load "keywords.json" initial), reachable_initial.
  - vm_compute. reflexivity.
Defined.

(** * Cases of the specification *)

(** Grammar [t] with the patterns [kw.a] and [kw.b], keep-set [{kw.a}]: the
    pruned patterns are [kw.a] alone, and [t] has joined the keep-set. *)
Example pruneGrammars_keywords :
  (λ r, (scope2grammar r.1, r.2 !! "t"))
    <$> pruneGrammars 10 {["kw.a" := true]} keywordsLoaded
  = Some ([("t", MkGrammarOf (Some "t") (Some [matchRule "a" "kw.a"])
                             None None None)],
          Some true).
Proof. vm_compute. reflexivity. Qed.

(** A cycle of includes that the root patterns do not lead into is never
    walked: the repository is emptied. *)
Example pruneGrammars_detached_cycle :
  scope2grammar ∘ fst
    <$> pruneGrammars 10 ∅ (MkState [] [("t", detachedCycleGrammar)] ∅)
  = Some [("t", MkGrammarOf (Some "t") (Some []) (Some []) None None)].
Proof. vm_compute. reflexivity. Qed.

(** In a grammar without patterns the repository is not looked at. *)
Example pruneGrammars_patternless_cycle :
  scope2grammar ∘ fst
    <$> pruneGrammars 1 ∅ (MkState [] [("t", patternlessCycleGrammar)] ∅)
  = Some [("t", patternlessCycleGrammar)].
Proof. vm_compute. reflexivity. Qed.

(** * The earlier loader *)

Section LegacyLoad.
Context `{Externals}.

(** The loader of [src/grammars.mjs] overwrites and rebuilds in the same
    way; it reads its file on every call. *)
Lemma loadGrammarFrom_v0_rebuilds st aGrammarPath verbose aGrammar :
  consistent st →
  endsWith aGrammarPath ".json" = true →
  readGrammarFile (Config_normalizePath aGrammarPath) = Some aGrammar →
  ∃ st' log,
    GrammarsV0.loadGrammarFrom aGrammarPath verbose st = Returned (st', log)
    ∧ scope2grammar st' = originalScope2grammar st'
    ∧ (truthyStr (g_scopeName aGrammar) = true →
       originalScope2grammar st'
       = obj_set (propKey (g_scopeName aGrammar)) aGrammar
                 (originalScope2grammar st)).
Proof.
  intros Hc Hjson Hread. unfold GrammarsV0.loadGrammarFrom.
  rewrite Hjson, Hread.
  destruct (registerGrammar_rebuilds aGrammar st Hc) as [Hreg _].
  destruct (registerGrammar aGrammar st) as [st2 log2].
  simpl in Hreg. subst st2. eexists _, _. split; [done|]. split; [done|].
  intros Htruthy. simpl. by rewrite Htruthy.
Qed.

End LegacyLoad.

(** * Claims about loading *)

Section LoadClaims.
Context `{Externals}.

Lemma registerGrammar_loaded aGrammar st :
  loadedGrammars (registerGrammar aGrammar st).1 = loadedGrammars st.
Proof. unfold registerGrammar. by destruct (truthyStr _). Qed.


(** C9.  A call with a path that is in the set of loaded paths, or that does
    not end in [.json], returns at once and changes nothing; and whatever a
    first call with a path did, a second call with the same path returns at
    once and changes nothing. *)
Theorem loadGrammarFrom_idempotent aGrammarPath st :
  (aGrammarPath ∈ loadedGrammars st ∨ endsWith aGrammarPath ".json" = false →
   ∃ log, loadGrammarFrom aGrammarPath st = Returned (st, log))
  ∧ (let st1 := (outcome (loadGrammarFrom aGrammarPath st)).1 in
     ∃ log, loadGrammarFrom aGrammarPath st1 = Returned (st1, log)).
Proof.
  assert (∀ st, aGrammarPath ∈ loadedGrammars st
                ∨ Config_normalizePath aGrammarPath ∈ loadedGrammars st
                ∨ endsWith aGrammarPath ".json" = false →
                ∃ log, loadGrammarFrom aGrammarPath st = Returned (st, log))
    as Hskip.
  { intros st0 Hcase. unfold loadGrammarFrom.
    destruct (endsWith aGrammarPath ".json"); [|by eexists].
    destruct (decide (aGrammarPath ∈ _)); [by eexists|].
    destruct (decide (Config_normalizePath aGrammarPath ∈ _)); [by eexists|].
    naive_solver. }
  split; [intros [?|?]; apply Hskip; auto|].
  intros st1. apply Hskip. subst st1. unfold loadGrammarFrom.
  destruct (endsWith aGrammarPath ".json"); [|auto].
  destruct (decide (aGrammarPath ∈ _)); [auto|].
  destruct (decide (Config_normalizePath aGrammarPath ∈ _)); [auto|].
  right. left. destruct (readGrammarFile _) as [g|]; simpl.
  - pose proof (registerGrammar_loaded g
                  (MkState (scope2grammar st) (originalScope2grammar st)
                     ({[Config_normalizePath aGrammarPath]}
                      ∪ loadedGrammars st))) as Hloaded.
    destruct (registerGrammar g _) as [st2 log2]. simpl in *.
    rewrite Hloaded. set_solver.
  - set_solver.
Qed.

End LoadClaims.


Lemma loadGrammarFrom_idempotent_witness :
  (("keywords.json" : string) ∈ loadedGrammars keywordsLoaded
   ∨ endsWith "keywords.json" ".json" = false →
   ∃ log, loadGrammarFrom (H := externals) "keywords.json" keywordsLoaded
          = Returned (keywordsLoaded, log))
  ∧ (let st1 := (outcome (loadGrammarFrom (H := externals) "keywords.json"
                            keywordsLoaded)).1 in
     ∃ log, loadGrammarFrom (H := externals) "keywords.json" st1
            = Returned (st1, log)).
Proof.
  apply (loadGrammarFrom_idempotent (H := externals) "keywords.json"
           keywordsLoaded).
Defined.

Section SelectorClaims.
Context `{Externals}.

Lemma firstLinePass_find entries aFirstLine :
  firstLinePass entries aFirstLine
  = fst <$> find (λ e, firstLineMatches aFirstLine e.2) entries.
Proof.
  induction entries as [|[k g] entries IH]; [done|].
  simpl. unfold firstLineMatches at 1. simpl.
  destruct (g_firstLineMatch g) as [re|]; [|done].
  by destruct (negb (String.eqb re "") && regexMatch re aFirstLine).
Qed.

Lemma anyFileType_existsb someFileTypes aDocPath :
  anyFileType someFileTypes aDocPath = existsb (endsWith aDocPath) someFileTypes.
Proof.
  induction someFileTypes as [|ext l IH]; [done|].
  simpl. by destruct (endsWith aDocPath ext).
Qed.

Lemma fileTypesPass_find entries aDocPath :
  fileTypesPass entries aDocPath
  = fst <$> find (λ e, fileTypeMatches aDocPath e.2) entries.
Proof.
  induction entries as [|[k g] entries IH]; [done|].
  simpl. unfold fileTypeMatches at 1. simpl.
  destruct (g_fileTypes g) as [fts|]; [|done].
  rewrite anyFileType_existsb. by destruct (existsb _ _).
Qed.





End SelectorClaims.



(** The case of the specification: the script grammar is chosen by its first
    line although the shell grammar, registered before it, has the file
    type; without the first line it is the shell grammar. *)
Example chooseBaseScope_shebang :
  chooseBaseScope (H := externals) shellsLoaded "x.sh" "#!/bin/sh"
  = Some "source.script"
  ∧ chooseBaseScope (H := externals) shellsLoaded "x.sh" "echo hi"
    = Some "source.shell".
Proof. split; reflexivity. Qed.

(** * Claims about the caches *)

Section CacheClaims.
Context `{Externals} {V : Type}.

(** C10, as the code has it.  [loadFromStr] always, and [loadFromFile]
    when the file can be read, put the document they have just created into
    the cache under the given name, whatever the cache held under it, and
    [getDocument] then returns that document.  When the file cannot be read
    [loadFromFile] throws before it writes to the cache, which stays as it
    was.  [newStructure] on a name that is registered leaves the store as it
    is and returns the structure registered first. *)
Theorem documents_last_structures_first
  (documents : gmap string DocumentCache.Document)
  (structs : Structures.JsMap V)
  (docName docStr aPath aStructureKey : string) (first later : V) :
  Structures.getStructure aStructureKey structs = Some first →
  (let doc := DocumentCache.MkDocument "" docName (splitOn newline docStr) in
   (DocumentCache.loadFromStr docName docStr documents).1 = doc
   ∧ DocumentCache.getDocument docName
       (DocumentCache.loadFromStr docName docStr documents).2 = Some doc)
  ∧ match readFile (Cfgr_normalizePath aPath) with
    | Some aDocStr =>
        let doc := DocumentCache.MkDocument (Cfgr_normalizePath aPath) aPath
                     (splitOn newline aDocStr) in
        ∃ documents',
          DocumentCache.loadFromFile aPath documents = Some (doc, documents')
          ∧ DocumentCache.getDocument aPath documents' = Some doc
    | None => DocumentCache.loadFromFile aPath documents = None
    end
  ∧ Structures.newStructure aStructureKey later structs = (Some first, structs).
Proof.
  intros Hfirst. split; [|split].
  - unfold DocumentCache.loadFromStr, DocumentCache.getDocument. simpl.
    split; [done|]. apply lookup_insert_eq.
  - unfold DocumentCache.loadFromFile, DocumentCache.Document_loadFromFile,
      DocumentCache.getDocument. simpl.
    destruct (readFile (Cfgr_normalizePath aPath)); [|done].
    eexists. split; [reflexivity|]. apply lookup_insert_eq.
  - unfold Structures.newStructure, Structures.getStructure,
      Structures.Map_has, Structures.Map_get in *.
    rewrite Hfirst. simpl. by rewrite Hfirst.
Qed.

End CacheClaims.

(** * The tracer *)

Section TraceFacts.
Context `{Externals} {V : Type}.
Implicit Types (p : Progress (V := V)) (config : Config).

Lemma noStructureDump_app l1 l2 :
  noStructureDump l1 → noStructureDump l2 → noStructureDump (l1 ++ l2).
Proof.
  intros H1 H2 n Hin. apply elem_of_app in Hin as [?|?]; [by eapply H1|by eapply H2].
Qed.

Lemma noStructureDump_nil : noStructureDump [].
Proof. intros n Hin. by apply elem_of_nil in Hin. Qed.

Lemma noStructureDump_log lvl msg : noStructureDump [Log lvl msg].
Proof. intros n Hin. by apply list_elem_of_singleton in Hin. Qed.

Lemma traceObj_noStructureDump config traceOpts aStr :
  noStructureDump (traceObj config traceOpts aStr).2.
Proof.
  unfold traceObj. repeat case_match; simpl;
    auto using noStructureDump_nil, noStructureDump_log.
Qed.

Lemma visitScopes_noStructureDump config swa showLine aLine aToken acc :
  noStructureDump acc.2 →
  noStructureDump
    (visitScopes (V := V) config swa showLine aLine aToken acc).2.
Proof.
  intros Hacc. unfold visitScopes.
  apply (foldl_invariant (λ acc, noStructureDump acc.2)); [done|].
  intros [s2r out] aScope Hout.
  pose proof (traceObj_noStructureDump config (traceScopes config) aScope) as Ht.
  destruct (traceObj config (traceScopes config) aScope) as [showScope out1].
  simpl in *. repeat apply noStructureDump_app; try done.
  destruct (showLine && showScope);
    auto using noStructureDump_nil, noStructureDump_log.
Qed.

Lemma visitTokens_noStructureDump config swa showLine aLine someTokens :
  noStructureDump
    (visitTokens (V := V) config swa showLine aLine someTokens).2.
Proof.
  unfold visitTokens.
  apply (foldl_invariant (λ acc, noStructureDump acc.2));
    [apply noStructureDump_nil|].
  intros [s2r out] aToken Hout. apply visitScopes_noStructureDump. simpl in *.
  apply noStructureDump_app; [done|].
  destruct showLine; auto using noStructureDump_nil, noStructureDump_log.
Qed.

Lemma runActions_log someActions inv p :
  log (outcome (runActions someActions inv p)) = log p.
Proof.
  revert p. induction someActions as [|a l IH]; intros p; [done|].
  simpl. destruct (a_run a inv (structs p)); [|done]. by rewrite IH.
Qed.

Lemma noStructureDump_tokens aScope someTokens :
  noStructureDump [Log LDebug (aScope +:+ " :"); LogTokens someTokens].
Proof.
  intros n Hin. repeat (apply elem_of_cons in Hin as [Hin|Hin]; [done|]).
  by apply elem_of_nil in Hin.
Qed.

Lemma dispatch_noStructureDump config swa showLine lineNum aDoc scopes2run p :
  noStructureDump (log p) →
  noStructureDump
    (log (outcome (dispatch config swa [] showLine lineNum aDoc scopes2run p))).
Proof.
  revert p. induction scopes2run as [|[aScope someTokens] l IH]; intros p Hp;
    [done|].
  cbn [dispatch].
  pose proof (traceObj_noStructureDump config (traceScopes config) aScope) as H1.
  pose proof (traceObj_noStructureDump config (traceActions config) aScope) as H2.
  destruct (traceObj config (traceScopes config) aScope) as [showScope out1].
  destruct (traceObj config (traceActions config) aScope) as [showAction out2].
  cbn [fst snd] in *.
  set (shown := showLine && showScope && showAction).
  match goal with |- context [runActions ?acts ?inv ?p0] =>
    assert (noStructureDump (log p0)) as Hp0;
    [|pose proof (runActions_log acts inv p0) as Hlog;
      destruct (runActions acts inv p0) as [p1|p1]] end.
  - destruct shown; cbn [say log]; repeat apply noStructureDump_app; try done.
    + apply noStructureDump_log.
    + destruct (showLine && showScope);
        auto using noStructureDump_nil, noStructureDump_tokens.
  - apply IH. cbn [outcome] in Hlog. destruct shown; [|by rewrite Hlog].
    cbn [logStructures foldl say log]. rewrite Hlog.
    apply noStructureDump_app; [done|apply noStructureDump_log].
  - cbn [outcome] in *. by rewrite Hlog.
Qed.

Lemma traceLinesFrom_noStructureDump config swa st aBaseScope aDoc someLines
  lineNum ruleStack p :
  noStructureDump (log p) →
  noStructureDump
    (log (outcome (traceLinesFrom config swa [] st aBaseScope aDoc someLines
                     lineNum ruleStack p))).
Proof.
  revert lineNum ruleStack p.
  induction someLines as [|aLine l IH]; intros lineNum ruleStack p Hp; [done|].
  simpl. destruct (tokenizeLine _ _ _ _) as [someTokens ruleStack'].
  pose proof (traceObj_noStructureDump config (traceLines config) aLine) as H1.
  destruct (traceObj config (traceLines config) aLine) as [showLine out1].
  pose proof (visitTokens_noStructureDump config swa showLine aLine someTokens)
    as H2.
  destruct (visitTokens config swa showLine aLine someTokens) as [s2r out2].
  simpl in *.
  match goal with |- context [dispatch _ _ _ _ _ _ _ ?p0] =>
    pose proof (dispatch_noStructureDump config swa showLine lineNum aDoc s2r p0)
      as Hd;
    destruct (dispatch config swa [] showLine lineNum aDoc s2r p0) as [p1|p1]
  end.
  - apply IH. apply Hd. simpl.
    destruct showLine; simpl; repeat apply noStructureDump_app;
      auto using noStructureDump_log.
  - apply Hd. simpl.
    destruct showLine; simpl; repeat apply noStructureDump_app;
      auto using noStructureDump_log.
Qed.

(** The selector logs plain lines, none at debug level. *)
Lemma quiet_app l1 l2 : quiet l1 → quiet l2 → quiet (l1 ++ l2).
Proof. unfold quiet. rewrite Forall_app. auto. Qed.

Lemma quiet_cons lvl msg l : lvl ≠ LDebug → quiet l → quiet (Log lvl msg :: l).
Proof. intros Hl Hq. apply Forall_cons. split; [by eexists _, _|done]. Qed.

Lemma quiet_noStructureDump l : quiet l → noStructureDump l.
Proof.
  intros Hq n Hin. unfold quiet in Hq. rewrite Forall_forall in Hq.
  by destruct (Hq _ Hin) as (lvl & msg & ? & _).
Qed.

Lemma firstLinePass_log_quiet entries aFirstLine :
  quiet (firstLinePass_log entries aFirstLine).
Proof.
  induction entries as [|[k g] entries IH]; simpl; [constructor|].
  destruct (g_firstLineMatch g) as [re|]; [|done].
  destruct (negb (String.eqb re "")); [|done].
  apply quiet_cons; [done|]. destruct (regexMatch re aFirstLine); [constructor|done].
Qed.

Lemma anyFileType_log_quiet k someFileTypes aDocPath :
  quiet (anyFileType_log k someFileTypes aDocPath).
Proof.
  induction someFileTypes as [|e l IH]; simpl; [constructor|].
  apply quiet_cons; [done|]. destruct (endsWith aDocPath e); [constructor|done].
Qed.

Lemma fileTypesPass_log_quiet entries aDocPath :
  quiet (fileTypesPass_log entries aDocPath).
Proof.
  induction entries as [|[k g] entries IH]; simpl; [constructor|].
  destruct (g_fileTypes g) as [l|]; [|done].
  apply quiet_app; [apply anyFileType_log_quiet|].
  destruct (anyFileType l aDocPath); [constructor|done].
Qed.

Lemma chooseBaseScope_log_quiet st aDocPath aFirstLine :
  quiet (chooseBaseScope_log st aDocPath aFirstLine).
Proof.
  unfold chooseBaseScope_log. apply quiet_app; [apply firstLinePass_log_quiet|].
  destruct (firstLinePass _ _); [constructor|].
  apply quiet_app; [apply fileTypesPass_log_quiet|].
  destruct (fileTypesPass _ _); [constructor|]. apply quiet_cons; [done|constructor].
Qed.

Lemma registry_loadGrammar_log_quiet st aBaseScope :
  quiet (registry_loadGrammar_log st aBaseScope).
Proof.
  unfold registry_loadGrammar_log.
  induction (requestedScopes _ _) as [|s l IH]; simpl; [constructor|].
  apply quiet_app; [|done]. unfold registryLoadGrammar.
  destruct (obj_get s (scope2grammar st)); simpl; [constructor|].
  destruct (isInherited s); [constructor|]. apply quiet_cons; [done|constructor].
Qed.

Lemma banner_quiet aDocPath aBaseScope : quiet (banner aDocPath aBaseScope).
Proof. repeat (apply quiet_cons; [done|]). constructor. Qed.

Lemma noBaseScope_quiet aDoc : quiet (noBaseScope aDoc).
Proof. repeat (apply quiet_cons; [done|]). constructor. Qed.

Lemma getStructureNames_reachable (structs0 : Structures.JsMap V) :
  Structures.reachable structs0 → Structures.getStructureNames structs0 = [].
Proof.
  intros Hr. unfold Structures.getStructureNames, Structures.Object_keys.
  assert (Structures.ownProps structs0 = []) as ->; [|done].
  induction Hr as [|k v structs0 _ IH]; [done|].
  unfold Structures.newStructure. simpl.
  by destruct (negb (Structures.Map_has k structs0)).
Qed.

(** C8.  However many structures have been registered, [getStructureNames]
    returns the empty array, and so no run of [traceParseOf] writes a named
    structure to the log. *)
Theorem getStructureNames_always_empty (structs0 : Structures.JsMap V) :
  Structures.reachable structs0 →
  Structures.getStructureNames structs0 = []
  ∧ ∀ aDocPath config swa st documents,
      noStructureDump
        (log (outcome (traceParseOf aDocPath config swa st documents
                         structs0)).1).
Proof.
  intros Hr. pose proof (getStructureNames_reachable structs0 Hr) as Hnames.
  split; [done|]. intros aDocPath config swa st documents.
  unfold traceParseOf. rewrite Hnames.
  destruct (DocumentCache.loadFromFile aDocPath documents) as [[aDoc docs]|];
    [|apply noStructureDump_log].
  cbn zeta.
  assert (noStructureDump
            (DocumentCache.loadFromFile_log aDocPath
             ++ chooseBaseScope_log st (DocumentCache.filePath aDoc)
                  (default "" (head (DocumentCache.docLines aDoc))))) as Hpre.
  { apply noStructureDump_app; [apply noStructureDump_log|].
    apply quiet_noStructureDump, chooseBaseScope_log_quiet. }
  assert (noStructureDump (noBaseScope aDoc)) as Hwarn
    by apply quiet_noStructureDump, noBaseScope_quiet.
  destruct (chooseBaseScope st _ _) as [aBaseScope|];
    [|by apply noStructureDump_app].
  destruct (negb (String.eqb aBaseScope ""));
    [|by apply noStructureDump_app].
  match goal with |- context [traceLinesFrom _ _ _ _ _ _ ?ls ?n ?rs ?p0] =>
    pose proof (traceLinesFrom_noStructureDump config swa st aBaseScope aDoc
                  ls n rs p0) as Hl;
    destruct (traceLinesFrom config swa [] st aBaseScope aDoc ls n rs p0)
      as [p1|p1] end.
  all: apply Hl; cbn [say log]; apply noStructureDump_app;
    [apply noStructureDump_app; [done|]|];
    apply quiet_noStructureDump;
    [apply banner_quiet|apply registry_loadGrammar_log_quiet].
Qed.

(** ** The filters and the dispatch *)

Lemma sameDispatch_refl p : sameDispatch p p.
Proof. done. Qed.

Lemma sameDispatch_say entries entries' p p' :
  sameDispatch p p' → sameDispatch (say entries p) (say entries' p').
Proof. done. Qed.

Lemma visitScopes_buckets config config' swa showLine showLine' aLine aToken
  (acc acc' : obj (list string) * list LogEntry) :
  acc.1 = acc'.1 →
  (visitScopes (V := V) config swa showLine aLine aToken acc).1
  = (visitScopes (V := V) config' swa showLine' aLine aToken acc').1.
Proof.
  unfold visitScopes. revert acc acc'.
  induction (scopes aToken) as [|aScope l IH]; intros [s2r out] [s2r' out'] Heq;
    [done|].
  simpl in *. subst s2r'. apply IH.
  destruct (traceObj config (traceScopes config) aScope).
  by destruct (traceObj config' (traceScopes config') aScope).
Qed.

Lemma visitTokens_buckets config config' swa showLine showLine' aLine someTokens :
  (visitTokens (V := V) config swa showLine aLine someTokens).1
  = (visitTokens (V := V) config' swa showLine' aLine someTokens).1.
Proof.
  unfold visitTokens.
  assert (∀ acc acc' : obj (list string) * list LogEntry, acc.1 = acc'.1 →
    (foldl (λ acc aToken,
       visitScopes (V := V) config swa showLine aLine aToken
         (acc.1, acc.2 ++ (if showLine
            then [Log LDebug (" - token from " +:+ pretty (startIndex aToken)
                              +:+ " to " +:+ pretty (endIndex aToken) +:+ " ("
                              +:+ js_substring aLine (startIndex aToken)
                                                     (endIndex aToken)
                              +:+ ") with scopes:")]
            else []))) acc someTokens).1
    = (foldl (λ acc aToken,
       visitScopes (V := V) config' swa showLine' aLine aToken
         (acc.1, acc.2 ++ (if showLine'
            then [Log LDebug (" - token from " +:+ pretty (startIndex aToken)
                              +:+ " to " +:+ pretty (endIndex aToken) +:+ " ("
                              +:+ js_substring aLine (startIndex aToken)
                                                     (endIndex aToken)
                              +:+ ") with scopes:")]
            else []))) acc' someTokens).1) as Hfold; [|by apply Hfold].
  induction someTokens as [|aToken l IH]; intros acc acc' Heq; [done|].
  simpl. apply IH. by apply visitScopes_buckets.
Qed.

Lemma runActions_sameDispatch someActions inv p p' :
  sameDispatch p p' →
  sameCompletion (runActions someActions inv p) (runActions someActions inv p').
Proof.
  revert p p'. induction someActions as [|a l IH]; intros p p' [Hc Hs];
    [done|].
  simpl. rewrite Hc, Hs. destruct (a_run a inv (structs p')); [|done].
  by apply IH.
Qed.

Lemma logStructures_sameDispatch config names p :
  sameDispatch (logStructures config names p) p.
Proof.
  unfold logStructures.
  apply (foldl_invariant (λ q, sameDispatch q p)); [done|].
  intros q name Hq. destruct (traceObj _ _ _) as [[] out]; done.
Qed.

Lemma dispatch_sameDispatch config config' swa names names' showLine showLine'
  lineNum aDoc scopes2run p p' :
  trace config = trace config' →
  sameDispatch p p' →
  sameCompletion
    (dispatch config swa names showLine lineNum aDoc scopes2run p)
    (dispatch config' swa names' showLine' lineNum aDoc scopes2run p').
Proof.
  intros Htrace. revert p p'.
  induction scopes2run as [|[aScope someTokens] l IH]; intros p p' Hp; [done|].
  cbn [dispatch]. rewrite Htrace.
  destruct (traceObj config (traceScopes config) aScope) as [showScope out1].
  destruct (traceObj config (traceActions config) aScope) as [showAction out2].
  destruct (traceObj config' (traceScopes config') aScope) as [showScope' out1'].
  destruct (traceObj config' (traceActions config') aScope)
    as [showAction' out2'].
  match goal with
  | |- sameCompletion
         match runActions ?acts ?inv ?p0 with _ => _ end
         match runActions _ _ ?p0' with _ => _ end =>
      assert (sameDispatch p0 p0') as Hp0;
      [|pose proof (runActions_sameDispatch acts inv p0 p0' Hp0) as [Hr Hd];
        destruct (runActions acts inv p0) as [p1|p1];
        destruct (runActions acts inv p0') as [p1'|p1']; try done]
  end.
  - destruct (showLine && showScope && showAction),
             (showLine' && showScope' && showAction'); done.
  - apply IH. cbn [outcome] in Hd.
    destruct (showLine && showScope && showAction),
             (showLine' && showScope' && showAction'); try done.
    + destruct (logStructures_sameDispatch config names p1) as [? ?].
      destruct (logStructures_sameDispatch config' names' p1') as [? ?].
      destruct Hd. split; simpl; congruence.
    + destruct (logStructures_sameDispatch config names p1) as [? ?].
      destruct Hd. split; simpl; congruence.
    + destruct (logStructures_sameDispatch config' names' p1') as [? ?].
      destruct Hd. split; simpl; congruence.
Qed.

Lemma traceLinesFrom_sameDispatch config config' swa names names' st aBaseScope
  aDoc someLines lineNum ruleStack p p' :
  trace config = trace config' →
  sameDispatch p p' →
  sameCompletion
    (traceLinesFrom config swa names st aBaseScope aDoc someLines lineNum
                    ruleStack p)
    (traceLinesFrom config' swa names' st aBaseScope aDoc someLines lineNum
                    ruleStack p').
Proof.
  intros Htrace. revert lineNum ruleStack p p'.
  induction someLines as [|aLine l IH]; intros lineNum ruleStack p p' Hp;
    [done|].
  cbn [traceLinesFrom].
  destruct (tokenizeLine _ _ _ _) as [someTokens ruleStack'].
  destruct (traceObj config (traceLines config) aLine) as [showLine out1].
  destruct (traceObj config' (traceLines config') aLine) as [showLine' out1'].
  pose proof (visitTokens_buckets config config' swa showLine showLine' aLine
                someTokens) as Hb.
  destruct (visitTokens config swa showLine aLine someTokens) as [s2r out2].
  destruct (visitTokens config' swa showLine' aLine someTokens) as [s2r' out2'].
  simpl in Hb. subst s2r'.
  match goal with
  | |- sameCompletion
         match dispatch _ _ _ _ _ _ _ ?p0 with _ => _ end
         match dispatch _ _ _ _ _ _ _ ?p0' with _ => _ end =>
      assert (sameDispatch p0 p0') as Hp0;
      [|pose proof (dispatch_sameDispatch config config' swa names names'
                      showLine showLine' lineNum aDoc s2r p0 p0' Htrace Hp0)
          as [Hr Hd];
        destruct (dispatch config swa names showLine lineNum aDoc s2r p0)
          as [p1|p1];
        destruct (dispatch config' swa names' showLine' lineNum aDoc s2r p0')
          as [p1'|p1']; try done]
  end.
  - by destruct showLine, showLine'.
  - by apply IH.
Qed.

(** C7.  Two runs of [traceParseOf] that differ in nothing but the
    include/exclude filters of the configuration invoke the same handlers
    with the same arguments in the same order, end the same way, and leave
    the same structure store and document cache; only their logs can
    differ. *)
Theorem traceParseOf_filters_only_gate_log aDocPath config config' swa st
  documents (structs0 : Structures.JsMap V) :
  trace config = trace config' →
  let run := traceParseOf aDocPath config swa st documents structs0 in
  let run' := traceParseOf aDocPath config' swa st documents structs0 in
  returned run = returned run'
  ∧ calls (outcome run).1 = calls (outcome run').1
  ∧ structs (outcome run).1 = structs (outcome run').1
  ∧ (outcome run).2 = (outcome run').2.
Proof.
  intros Htrace. unfold traceParseOf.
  destruct (DocumentCache.loadFromFile aDocPath documents) as [[aDoc docs]|];
    [|done].
  destruct (chooseBaseScope st _ _) as [aBaseScope|]; [|done].
  destruct (negb (String.eqb aBaseScope "")); [|done].
  match goal with
  | |- context [traceLinesFrom config swa ?names st aBaseScope aDoc ?ls ?n ?rs
                  ?p0] =>
      destruct (traceLinesFrom_sameDispatch config config' swa names names st
                  aBaseScope aDoc ls n rs p0 p0 Htrace (sameDispatch_refl p0))
        as [Hr [Hc Hs]];
      destruct (traceLinesFrom config swa names st aBaseScope aDoc ls n rs p0)
        as [p1|p1];
      destruct (traceLinesFrom config' swa names st aBaseScope aDoc ls n rs p0)
        as [p1'|p1']; try done
  end.
Qed.

End TraceFacts.

(** * Phases *)


Lemma elem_of_concat {A} (x : A) (ls : list (list A)) :
  x ∈ concat ls ↔ ∃ l, x ∈ l ∧ l ∈ ls.
Proof.
  rewrite list_elem_of_In, in_concat.
  split; intros (l & H1 & H2); exists l; rewrite ?list_elem_of_In in *; done.
Qed.





Lemma traceParseOf_filters_only_gate_log_witness :
  let run := traceParseOf (H := externals) "run" traceAll scopesWithActions
               shellsLoaded cached outlined in
  let run' := traceParseOf (H := externals) "run" traceShebang
                scopesWithActions shellsLoaded cached outlined in
  returned run = returned run'
  ∧ calls (outcome run).1 = calls (outcome run').1
  ∧ structs (outcome run).1 = structs (outcome run').1
  ∧ (outcome run).2 = (outcome run').2.
Proof.
  apply (traceParseOf_filters_only_gate_log (H := externals) "run" traceAll
           traceShebang scopesWithActions shellsLoaded cached outlined).
  reflexivity.
Defined.

(** The two runs do write different logs, and both call the handler once
    for each of the two lines. *)
Example traceParseOf_logs_differ :
  log (outcome (traceParseOf (H := externals) "run" traceAll scopesWithActions
                  shellsLoaded cached outlined)).1
  ≠ log (outcome (traceParseOf (H := externals) "run" traceShebang
                    scopesWithActions shellsLoaded cached outlined)).1
  ∧ (calls (outcome (traceParseOf (H := externals) "run" traceShebang
                       scopesWithActions shellsLoaded cached outlined)).1).*1
    = ["outline"; "outline"].
Proof. split; [vm_compute; discriminate|vm_compute; reflexivity]. Qed.

Lemma getStructureNames_always_empty_witness :
  Structures.getStructureNames outlined = []
  ∧ ∀ aDocPath config swa st documents,
      noStructureDump
        (log (outcome (traceParseOf (H := externals) aDocPath config swa st
                         documents outlined)).1).
Proof.
  apply (getStructureNames_always_empty (H := externals) outlined).
  apply Structures.reachable_newStructure, Structures.reachable_initial.
Defined.

Lemma documents_last_structures_first_witness :
  (let doc := DocumentCache.MkDocument "" "run" (splitOn newline "new") in
   (DocumentCache.loadFromStr "run" "new" cached).1 = doc
   ∧ DocumentCache.getDocument "run"
       (DocumentCache.loadFromStr "run" "new" cached).2 = Some doc)
  ∧ match readFile (Externals := externals)
            (Cfgr_normalizePath (Externals := externals) "run") with
    | Some aDocStr =>
        let doc := DocumentCache.MkDocument
                     (Cfgr_normalizePath (Externals := externals) "run") "run"
                     (splitOn newline aDocStr) in
        ∃ documents',
          DocumentCache.loadFromFile (H := externals) "run" cached
          = Some (doc, documents')
          ∧ DocumentCache.getDocument "run" documents' = Some doc
    | None => DocumentCache.loadFromFile (H := externals) "run" cached = None
    end
  ∧ Structures.newStructure "outline" 9 outlined = (Some 7, outlined).
Proof.
  apply (documents_last_structures_first (H := externals) cached outlined
           "run" "new" "run" "outline" 7 9).
  reflexivity.
Defined.

(** That [loadFromFile] always overwrites the entry and [getDocument] then
    returns the new document does not hold: the cache holds a document for
    ["gone"], the file cannot be read, the call throws, and the cache still
    holds the old document. *)
Lemma loadFromFile_unreadable_keeps_entry :
  DocumentCache.loadFromFile (H := externals) "gone" stale = None
  ∧ DocumentCache.getDocument "gone" stale
    = Some (DocumentCache.MkDocument "gone" "gone" ["old"])
  ∧ ¬ (∀ aPath documents,
         ∃ doc documents',
           DocumentCache.loadFromFile (H := externals) aPath documents
           = Some (doc, documents')
           ∧ DocumentCache.getDocument aPath documents' = Some doc).
Proof.
  split_and!; [done|done|].
  intros claim. by destruct (claim "gone" stale) as (doc & documents' & ? & _).
Qed.

(** * More about documents *)

Lemma splitOn_cons sep s : ∃ l ls, splitOn sep s = l :: ls.
Proof.
  induction s as [|c s (l & ls & IH)]; simpl; [by eexists _, _|].
  destruct (Ascii.eqb c sep); [by eexists _, _|]. rewrite IH. by eexists _, _.
Qed.

Lemma splitOn_length sep s :
  length (splitOn sep s) = S (occurrences sep s).
Proof.
  induction s as [|c s IH]; [done|]. simpl.
  destruct (Ascii.eqb c sep); simpl; [by rewrite IH|].
  destruct (splitOn_cons sep s) as (l & ls & E). rewrite E in *. done.
Qed.

Lemma splitOn_clean sep s l :
  l ∈ splitOn sep s → occurrences sep l = 0.
Proof.
  revert l. induction s as [|c s IH]; intros l; simpl.
  - by intros ->%list_elem_of_singleton.
  - destruct (Ascii.eqb c sep) eqn:E.
    + intros [->|Hl]%elem_of_cons; [done|auto].
    + destruct (splitOn_cons sep s) as (l0 & ls & E0). rewrite E0 in *.
      intros [->|Hl]%elem_of_cons.
      * simpl. rewrite E. apply IH, list_elem_of_here.
      * by apply IH, list_elem_of_further.
Qed.

Lemma concat_splitOn sep s :
  String.concat (String sep "") (splitOn sep s) = s.
Proof.
  induction s as [|c s IH]; [done|]. simpl.
  destruct (splitOn_cons sep s) as (l & ls & E). rewrite E in *.
  destruct (Ascii.eqb_spec c sep) as [->|Hne].
  - change (String.concat (String sep "") ("" :: l :: ls))
      with (String sep (String.concat (String sep "") (l :: ls))).
    by rewrite IH.
  - rewrite <- IH. by destruct ls.
Qed.

Lemma splitOn_app_clean sep l s :
  occurrences sep l = 0 →
  splitOn sep (l +:+ String sep s) = l :: splitOn sep s.
Proof.
  induction l as [|c l IH]; simpl.
  - by rewrite Ascii.eqb_refl.
  - destruct (Ascii.eqb c sep); [done|]. intros Hl. by rewrite IH.
Qed.

Lemma splitOn_clean_line sep l : occurrences sep l = 0 → splitOn sep l = [l].
Proof.
  induction l as [|c l IH]; simpl; [done|].
  destruct (Ascii.eqb c sep); [done|]. intros Hl. by rewrite IH.
Qed.

Lemma splitOn_concat sep lines :
  lines ≠ [] →
  Forall (λ l, occurrences sep l = 0) lines →
  splitOn sep (String.concat (String sep "") lines) = lines.
Proof.
  intros Hne Hclean. induction Hclean as [|l ls Hl Hls IH]; [done|].
  destruct ls as [|l' ls].
  - simpl. by apply splitOn_clean_line.
  - change (String.concat (String sep "") (l :: l' :: ls))
      with (l +:+ String sep (String.concat (String sep "") (l' :: ls))).
    rewrite splitOn_app_clean by done. f_equal. by apply IH.
Qed.

(** X1.  The lines of a refreshed document: there is one more of them than
    the text has line feeds, so there is always a first line; no line holds
    a line feed; and joined by line feeds they are the text again, carriage
    returns and all. *)
Theorem refreshFromStr_lines aDocName aDocStr doc :
  let lines := DocumentCache.docLines
                 (DocumentCache.refreshFromStr aDocName aDocStr doc) in
  length lines = S (occurrences newline aDocStr)
  ∧ Forall (λ l, occurrences newline l = 0) lines
  ∧ String.concat (String newline "") lines = aDocStr.
Proof.
  simpl. split_and!.
  - apply splitOn_length.
  - apply Forall_forall. intros l. apply splitOn_clean.
  - apply concat_splitOn.
Qed.

(** X2.  Any lines without line feeds, one at least, are the lines of the
    document refreshed from their join: nothing is merged, dropped or
    trimmed. *)
Theorem refreshFromStr_joined aDocName lines doc :
  lines ≠ [] →
  Forall (λ l, occurrences newline l = 0) lines →
  DocumentCache.docLines
    (DocumentCache.refreshFromStr aDocName
       (String.concat (String newline "") lines) doc)
  = lines.
Proof. intros. by apply splitOn_concat. Qed.

Lemma refreshFromStr_joined_witness :
  DocumentCache.docLines
    (DocumentCache.refreshFromStr "d"
       (String.concat (String newline "") ["#!/bin/sh"; ""; "echo hi "; ""])
       DocumentCache.Document_new)
  = ["#!/bin/sh"; ""; "echo hi "; ""].
Proof.
  apply (refreshFromStr_joined "d" ["#!/bin/sh"; ""; "echo hi "; ""]).
  - discriminate.
  - by repeat constructor.
Defined.

Section DocumentFacts.
Context `{Externals}.


End DocumentFacts.

(** * More about structures *)

Section StructureFacts.
Context {V : Type}.
Implicit Types structs : Structures.JsMap V.

Lemma Map_has_get k structs :
  Structures.Map_has k structs = true ↔ is_Some (Structures.Map_get k structs).
Proof.
  unfold Structures.Map_has, Structures.Map_get.
  destruct (obj_get k _); split; try done; by intros [? ?].
Qed.

(** X4.  [newStructure] always returns a structure, the one [getStructure]
    returns from then on; registering the name again, with whatever value,
    returns the same structure and leaves the store as it is; and no other
    name is touched. *)
Theorem newStructure_get_or_create k (v v' : V) structs :
  let '(created, structs1) := Structures.newStructure k v structs in
  is_Some created
  ∧ Structures.getStructure k structs1 = created
  ∧ Structures.newStructure k v' structs1 = (created, structs1)
  ∧ ∀ other, other ≠ k →
      Structures.getStructure other structs1
      = Structures.getStructure other structs.
Proof.
  unfold Structures.newStructure, Structures.getStructure.
  destruct (Structures.Map_has k structs) eqn:Hhas; simpl.
  - apply Map_has_get in Hhas as Hget. by rewrite Hhas.
  - unfold Structures.Map_set, Structures.Map_get, Structures.Map_has. simpl.
    rewrite entries_get_set_eq. simpl. rewrite entries_get_set_eq.
    split_and!; try done. intros other Hne. by apply entries_get_set_ne.
Qed.

(** X5.  Once structures are registered, [printStructure] prints each of
    them, and [printAllStructures] still prints nothing: the names it goes
    through are the own properties of the map object, of which there are
    none. *)
Theorem printAllStructures_prints_nothing (stringify : V → string) structs :
  Structures.reachable structs →
  Structures.printAllStructures stringify structs = []
  ∧ ∀ k v, Structures.getStructure k structs = Some v →
      Structures.printStructure stringify k structs
      = ["--structure--------------------------------------------------";
         k; "-------------------------"; stringify v].
Proof.
  intros Hr. split.
  - unfold Structures.printAllStructures, Structures.Object_keys.
    assert (Structures.ownProps structs = []) as ->; [|done].
    induction Hr as [|k v structs _ IH]; [done|].
    unfold Structures.newStructure. simpl.
    by destruct (negb (Structures.Map_has k structs)).
  - intros k v Hget. unfold Structures.printStructure, Structures.getStructure in *.
    assert (Structures.Map_has k structs = true) as ->.
    { apply Map_has_get. by eexists. }
    simpl. by rewrite Hget.
Qed.

End StructureFacts.

Lemma printAllStructures_prints_nothing_witness :
  Structures.printAllStructures pretty outlined = []
  ∧ ∀ k v, Structures.getStructure k outlined = Some v →
      Structures.printStructure pretty k outlined
      = ["--structure--------------------------------------------------";
         k; "-------------------------"; pretty v].
Proof.
  apply (printAllStructures_prints_nothing pretty outlined).
  apply Structures.reachable_newStructure, Structures.reachable_initial.
Defined.


(** * More about loading *)


Lemma elem_of_obj_get {V} k (v : V) (o : obj V) :
  NoDup (obj_keys o) → (k, v) ∈ o → obj_get k o = Some v.
Proof.
  induction o as [|[k' v'] o IH]; simpl.
  - by intros _ ?%elem_of_nil.
  - unfold obj_keys. simpl. intros [Hk' Hnd]%NoDup_cons [Heq|Hin]%elem_of_cons.
    + injection Heq as -> ->. by rewrite String.eqb_refl.
    + destruct (String.eqb k k') eqn:E; [|auto].
      apply String.eqb_eq in E as ->. destruct Hk'.
      apply list_elem_of_fmap. by exists (k', v).
Qed.

Lemma elem_of_entries_set {V} k (v : V) (o : obj V) k' v' :
  (k', v') ∈ entries_set k v o → (k' = k ∧ v' = v) ∨ (k', v') ∈ o.
Proof.
  induction o as [|[k1 v1] o IH]; simpl.
  - intros [= -> ->]%list_elem_of_singleton. by left.
  - destruct (String.eqb k k1).
    + intros [[= -> ->]|?]%elem_of_cons; [by left|].
      right. by apply list_elem_of_further.
    + intros [->|?]%elem_of_cons; [right; apply list_elem_of_here|].
      destruct IH as [?|?]; [done|by left|]. right. by apply list_elem_of_further.
Qed.

Lemma elem_of_obj_set {V} k (v : V) (o : obj V) k' v' :
  (k', v') ∈ obj_set k v o → (k' = k ∧ v' = v) ∨ (k', v') ∈ o.
Proof.
  destruct (decide (k ∈ obj_keys o)) as [Hk|Hk].
  - rewrite obj_set_old by done. apply elem_of_entries_set.
  - destruct (obj_set_new_split k v o Hk) as (o1 & o2 & -> & ->).
    rewrite !elem_of_app, elem_of_cons. naive_solver.
Qed.

Section MoreLoadFacts.
Context `{Externals}.



(** X7.  A grammar file without a scope name (or with an empty one)
    registers nothing; the call still returns normally, records the path,
    and puts the working map back to copies of the originals, so that what
    an earlier pruning removed is there again. *)
Theorem loadGrammarFrom_without_scopeName st aGrammarPath aGrammar :
  reachable st →
  endsWith aGrammarPath ".json" = true →
  aGrammarPath ∉ loadedGrammars st →
  Config_normalizePath aGrammarPath ∉ loadedGrammars st →
  readGrammarFile (Config_normalizePath aGrammarPath) = Some aGrammar →
  truthyStr (g_scopeName aGrammar) = false →
  ∃ log,
    loadGrammarFrom aGrammarPath st
    = Returned (MkState (originalScope2grammar st) (originalScope2grammar st)
                  ({[Config_normalizePath aGrammarPath]} ∪ loadedGrammars st),
                log)
    ∧ ∀ entry, entry ∈ log → ∃ msg, entry = Log LDebug msg.
Proof.
  intros Hc%reachable_consistent Hjson Hnew Hnew' Hread Hfalsy.
  unfold loadGrammarFrom.
  rewrite Hjson. rewrite decide_False by done. rewrite decide_False by done.
  rewrite Hread. set (st1 := MkState _ _ _).
  destruct (registerGrammar_rebuilds aGrammar st1) as [Hreg _]; [done|].
  unfold registerGrammar in *. rewrite Hfalsy in *. simpl in *.
  injection Hreg as ->. eexists. split; [done|].
  intros entry ->%list_elem_of_singleton. by eexists.
Qed.

End MoreLoadFacts.

(** X8.  When the file cannot be read or parsed the call throws with both
    maps as they were, but the path is already recorded: a later call for
    the same path returns without reading, whatever the file system holds
    by then. *)
Theorem loadGrammarFrom_failure_is_final (before after : Externals) st
  aGrammarPath :
  Config_normalizePath (Externals := after)
  = Config_normalizePath (Externals := before) →
  endsWith aGrammarPath ".json" = true →
  aGrammarPath ∉ loadedGrammars st →
  Config_normalizePath (Externals := before) aGrammarPath ∉ loadedGrammars st →
  readGrammarFile (Externals := before)
    (Config_normalizePath (Externals := before) aGrammarPath) = None →
  ∃ st1 log1 log2,
    loadGrammarFrom (H := before) aGrammarPath st = Threw (st1, log1)
    ∧ scope2grammar st1 = scope2grammar st
    ∧ originalScope2grammar st1 = originalScope2grammar st
    ∧ loadGrammarFrom (H := after) aGrammarPath st1 = Returned (st1, log2).
Proof.
  intros Hnorm Hjson Hnew Hnew' Hread.
  set (st1 := MkState (scope2grammar st) (originalScope2grammar st)
                ({[Config_normalizePath (Externals := before) aGrammarPath]}
                 ∪ loadedGrammars st)).
  assert (∃ log2, loadGrammarFrom (H := after) aGrammarPath st1
                  = Returned (st1, log2)) as [log2 Hsecond].
  { unfold loadGrammarFrom. rewrite Hjson, Hnorm.
    destruct (decide (aGrammarPath ∈ loadedGrammars st1)); [by eexists|].
    rewrite decide_True by (subst st1; simpl; set_solver). by eexists. }
  exists st1. eexists _, log2. split; [|done].
  unfold loadGrammarFrom.
  rewrite Hjson. rewrite decide_False by done. rewrite decide_False by done.
  by rewrite Hread.
Qed.

Lemma keywordsPruned_reachable (H : Externals) :
  readGrammarFile (Externals := H) "keywords.json" = Some keywordGrammar →
  Config_normalizePath (Externals := H) "keywords.json" = "keywords.json" →
  reachable (H := H) keywordsPruned.
Proof.
  intros Hfile Hnorm.
  eapply (reachable_prune 10 {["kw.a" := true]}
            (outcome (loadGrammarFrom (H := H) "keywords.json" initial)).1).
  - apply reachable_load, reachable_initial.
  - unfold loadGrammarFrom. simpl.
    rewrite decide_False by apply not_elem_of_empty. rewrite Hnorm.
    rewrite decide_False by apply not_elem_of_empty. rewrite Hfile.
    vm_compute. reflexivity.
Defined.


Lemma loadGrammarFrom_without_scopeName_witness :
  ∃ log,
    loadGrammarFrom (H := anonymousFiles) "other.json" keywordsPruned
    = Returned (MkState (originalScope2grammar keywordsPruned)
                  (originalScope2grammar keywordsPruned)
                  ({[Config_normalizePath (Externals := anonymousFiles)
                       "other.json"]} ∪ loadedGrammars keywordsPruned),
                log)
    ∧ ∀ entry, entry ∈ log → ∃ msg, entry = Log LDebug msg.
Proof.
  apply (loadGrammarFrom_without_scopeName (H := anonymousFiles)
           keywordsPruned "other.json" anonymousGrammar).
  - by apply keywordsPruned_reachable.
  - reflexivity.
  - apply (bool_decide_eq_false_1 _). vm_compute. reflexivity.
  - apply (bool_decide_eq_false_1 _). vm_compute. reflexivity.
  - reflexivity.
  - reflexivity.
Defined.

Lemma loadGrammarFrom_failure_is_final_witness :
  ∃ st1 log1 log2,
    loadGrammarFrom (H := externals) "missing.json" keywordsLoaded
    = Threw (st1, log1)
    ∧ scope2grammar st1 = scope2grammar keywordsLoaded
    ∧ originalScope2grammar st1 = originalScope2grammar keywordsLoaded
    ∧ loadGrammarFrom (H := keywordFiles) "missing.json" st1
      = Returned (st1, log2).
Proof.
  apply (loadGrammarFrom_failure_is_final externals keywordFiles
           keywordsLoaded "missing.json").
  - reflexivity.
  - reflexivity.
  - apply (bool_decide_eq_false_1 _). vm_compute. reflexivity.
  - apply (bool_decide_eq_false_1 _). vm_compute. reflexivity.
  - reflexivity.
Defined.

(** * More about the selector *)

Section MoreSelectorFacts.
Context `{Externals}.

(** X9.  A base scope that [chooseBaseScope] returns is registered: the
    registry's loader finds a grammar under it, without its "Unknown scope
    name" warning, and that grammar matches the first line or the path.
    When nothing is returned, no grammar of the working map matches
    either. *)
Theorem chooseBaseScope_is_registered st aDocPath aFirstLine :
  reachable st →
  match chooseBaseScope st aDocPath aFirstLine with
  | Some aBaseScope =>
      ∃ aGrammar,
        registryLoadGrammar aBaseScope st = (Some aGrammar, [])
        ∧ (firstLineMatches aFirstLine aGrammar = true
           ∨ fileTypeMatches aDocPath aGrammar = true)
  | None =>
      Forall (λ kg, firstLineMatches aFirstLine kg.2 = false
                    ∧ fileTypeMatches aDocPath kg.2 = false)
             (scope2grammar st)
  end.
Proof.
  intros [Hnd Hkeys]%reachable_consistent. rewrite <- Hkeys in Hnd.
  unfold chooseBaseScope. rewrite firstLinePass_find, fileTypesPass_find.
  assert (∀ k g, (k, g) ∈ scope2grammar st →
                 registryLoadGrammar k st = (Some g, [])) as Hreg.
  { intros k g Hin. unfold registryLoadGrammar.
    by rewrite (elem_of_obj_get k g _ Hnd Hin). }
  destruct (find (λ e, firstLineMatches aFirstLine e.2) (scope2grammar st))
    as [[k g]|] eqn:E1; simpl.
  { apply find_some in E1 as [Hin Hhit]. exists g. split; [|by left].
    by apply Hreg, list_elem_of_In. }
  destruct (find (λ e, fileTypeMatches aDocPath e.2) (scope2grammar st))
    as [[k g]|] eqn:E2; simpl.
  { apply find_some in E2 as [Hin Hhit]. exists g. split; [|by right].
    by apply Hreg, list_elem_of_In. }
  apply Forall_forall. intros kg Hin%list_elem_of_In. split.
  - by apply (find_none _ _ E1).
  - by apply (find_none _ _ E2).
Qed.

End MoreSelectorFacts.

Lemma chooseBaseScope_is_registered_witness :
  match chooseBaseScope (H := externals) shellsLoaded "x.sh" "echo hi" with
  | Some aBaseScope =>
      ∃ aGrammar,
        registryLoadGrammar aBaseScope shellsLoaded = (Some aGrammar, [])
        ∧ (firstLineMatches (H := externals) "echo hi" aGrammar = true
           ∨ fileTypeMatches "x.sh" aGrammar = true)
  | None =>
      Forall (λ kg, firstLineMatches (H := externals) "echo hi" kg.2 = false
                    ∧ fileTypeMatches "x.sh" kg.2 = false)
             (scope2grammar shellsLoaded)
  end.
Proof.
  apply (chooseBaseScope_is_registered (H := externals) shellsLoaded "x.sh"
           "echo hi").
  apply (reachable_load "script.json" (afterLoad "shell.json" initial)).
  apply (reachable_load "shell.json" initial), reachable_initial.
Defined.

(** * More about known scopes *)








Lemma ascii_compare_Lt_trans (a b c : Ascii.ascii) :
  Ascii.compare a b = Lt → Ascii.compare b c = Lt → Ascii.compare a c = Lt.
Proof.
  unfold Ascii.compare. rewrite !N.compare_lt_iff. lia.
Qed.

Lemma string_compare_Lt_trans (a b c : string) :
  String.compare a b = Lt → String.compare b c = Lt → String.compare a c = Lt.
Proof.
  revert b c. induction a as [|x a IH]; intros [|y b] [|z c]; simpl; try done.
  destruct (Ascii.compare x y) eqn:Hxy; try done.
  - apply Ascii.compare_eq_iff in Hxy as ->.
    destruct (Ascii.compare y z); try done. apply IH.
  - destruct (Ascii.compare y z) eqn:Hyz; try done.
    + apply Ascii.compare_eq_iff in Hyz as <-. by rewrite Hxy.
    + by rewrite (ascii_compare_Lt_trans x y z).
Qed.

Lemma strLe_total : Total strLe.
Proof. intros a b. apply String.leb_total. Qed.

Lemma strLe_trans : Transitive strLe.
Proof.
  intros a b c. unfold strLe, String.leb.
  destruct (String.compare a b) eqn:Hab; try done;
    destruct (String.compare b c) eqn:Hbc; try done; intros _ _.
  - apply String.compare_eq_iff in Hab as ->. by rewrite Hbc.
  - apply String.compare_eq_iff in Hab as ->. by rewrite Hbc.
  - apply String.compare_eq_iff in Hbc as <-. by rewrite Hab.
  - by rewrite (string_compare_Lt_trans a b c).
Qed.


(** * Printing the grammars *)

Lemma omap_entries_self {V} (o : obj V) (l : list (string * V)) :
  NoDup (obj_keys o) → l ⊆ o →
  omap (λ k, (k,.) <$> obj_get k o) l.*1 = l.
Proof.
  intros Hnd. induction l as [|[k v] l IH]; intros Hsub; [done|].
  csimpl. rewrite (elem_of_obj_get k v o Hnd) by (apply Hsub; left).
  simpl. f_equal. apply IH. intros x Hx. apply Hsub. by right.
Qed.

Lemma omap_entries_keys {V} (o : obj V) (ks : list string) :
  ks ⊆ obj_keys o →
  (omap (λ k, (k,.) <$> obj_get k o) ks).*1 = ks.
Proof.
  induction ks as [|k ks IH]; intros Hsub; [done|].
  csimpl. destruct (obj_get k o) as [v|] eqn:E.
  - simpl. f_equal. apply IH. intros x Hx. apply Hsub. by right.
  - apply obj_get_None_keys in E. destruct E. apply Hsub. by left.
Qed.

Section PrintingFacts.
Context `{Externals} (stringify : Grammar → string).

(** X11.  In a state the class can be in, [printAllGrammars] prints one
    block of four lines for every grammar of the working map: the banner,
    the scope, a rule and the grammar as [stringify] gives it; the blocks
    come in ascending order of scope, every grammar once, and the closing
    rule is the last line. *)
Theorem printAllGrammars_every_grammar_once st :
  reachable st →
  ∃ entries,
    entries ≡ₚ scope2grammar st
    ∧ StronglySorted strLe entries.*1
    ∧ printAllGrammars stringify st
      = concat (map (λ kg,
                       ["--grammar----------------------------------------------------";
                        kg.1;
                        "---------------";
                        stringify kg.2])
                    entries)
        ++ ["-------------------------------------------------------------"].
Proof.
  intros [Hnd Hkeys]%reachable_consistent. rewrite <- Hkeys in Hnd.
  set (o := scope2grammar st) in *.
  set (ks := merge_sort strLe (obj_keys o)).
  exists (omap (λ k, (k,.) <$> obj_get k o) ks).
  assert (ks ≡ₚ obj_keys o) as Hperm by apply merge_sort_Permutation.
  split_and!.
  - trans (omap (λ k, (k,.) <$> obj_get k o) (obj_keys o)).
    + by rewrite Hperm.
    + unfold obj_keys. by rewrite (omap_entries_self o o Hnd).
  - rewrite omap_entries_keys.
    + apply (@StronglySorted_merge_sort _ strLe _ strLe_trans strLe_total).
    + intros x Hx. by rewrite <- Hperm.
  - unfold printAllGrammars. fold o. fold ks. f_equal.
    clear Hperm. induction ks as [|k ks IH]; [done|].
    csimpl. rewrite IH. unfold printGrammar at 1. fold o.
    by destruct (obj_get k o).
Qed.

End PrintingFacts.

Lemma printAllGrammars_every_grammar_once_witness :
  ∃ entries,
    entries ≡ₚ scope2grammar shellsLoaded
    ∧ StronglySorted strLe entries.*1
    ∧ printAllGrammars (λ g, default "" (g_scopeName g)) shellsLoaded
      = concat (map (λ kg,
                       ["--grammar----------------------------------------------------";
                        kg.1;
                        "---------------";
                        default "" (g_scopeName kg.2)])
                    entries)
        ++ ["-------------------------------------------------------------"].
Proof.
  apply (printAllGrammars_every_grammar_once (H := externals)
           (λ g, default "" (g_scopeName g)) shellsLoaded).
  apply (reachable_load "script.json" (afterLoad "shell.json" initial)).
  apply (reachable_load "shell.json" initial), reachable_initial.
Defined.

(** * The pruner: what a call can have changed *)

Lemma restricts_refl w : restricts w w.
Proof. unfold restricts. split_and!; try done. by destruct (g_repository w). Qed.

Lemma restricts_trans w1 w2 w3 :
  restricts w1 w2 → restricts w2 w3 → restricts w1 w3.
Proof.
  unfold restricts. intros (? & ? & ? & ? & H12) (? & ? & ? & ? & H23).
  split_and!; try congruence.
  destruct (g_repository w1), (g_repository w2), (g_repository w3);
    try done. by etrans.
Qed.

Lemma evolves_refl st : evolves st st.
Proof.
  unfold evolves. split_and!; try done.
  - apply Forall2_same_length_lookup_2; [done|].
    intros i x y Hx Hy. simplify_eq. split; [done|apply restricts_refl].
  - intros k. split_and!; auto.
Qed.

Lemma evolves_keys st st' : evolves st st' → obj_keys (s2g st') = obj_keys (s2g st).
Proof.
  intros (_ & _ & HF & _). unfold obj_keys.
  induction HF as [|[k w] [k' w'] l l' [Hk _] _ IH]; [done|].
  rewrite !fmap_cons. simpl in Hk. by rewrite Hk, IH.
Qed.

Lemma evolves_trans st1 st2 st3 :
  evolves st1 st2 → evolves st2 st3 → evolves st1 st3.
Proof.
  intros H12 H23. pose proof (evolves_keys _ _ H12) as Hkeys.
  destruct H12 as (Hk12 & Hs12 & HF12 & H12), H23 as (Hk23 & Hs23 & HF23 & H23).
  unfold evolves. split_and!.
  - set_solver.
  - auto.
  - eapply Forall2_trans; [|done..].
    intros [k1 w1] [k2 w2] [k3 w3] [? ?] [? ?]. simpl in *.
    split; [congruence|by eapply restricts_trans].
  - intros k. destruct (H12 k) as (Ha & Hb & Hc), (H23 k) as (Ha' & Hb' & Hc').
    split_and!.
    + auto.
    + intros Hk.
      assert (k ∈ knownBaseScopes st1 ∨ k ∉ knownBaseScopes st2) as Hk1
        by set_solver.
      assert (k ∈ knownBaseScopes st2 ∨ k ∉ knownBaseScopes st3) as Hk2
        by set_solver.
      destruct (Hb Hk1) as [<- <-]. by apply Hb'.
    + destruct Hc as [Hc|Hc]; [|by right].
      destruct Hc' as [Hc'|Hc']; [left; congruence|].
      right. by rewrite <- Hkeys.
Qed.

(** Changes that leave the base scopes, the keep-set and the working map
    alone, and the store ascending. *)
Lemma evolves_frame st st' :
  knownBaseScopes st' = knownBaseScopes st →
  scopes2keep st' = scopes2keep st →
  s2g st' = s2g st →
  (sortedStore st → sortedStore st') →
  evolves st st'.
Proof.
  intros Hk Hs Hg Hsorted. destruct (evolves_refl st) as (_ & _ & HF & Hrest).
  unfold evolves. rewrite Hk, Hs, Hg. split_and!; done.
Qed.

Lemma StronglySorted_sublist {A} (R : relation A) (l l' : list A) :
  sublist l' l → StronglySorted R l → StronglySorted R l'.
Proof.
  intros Hsub. induction Hsub as [|x l1 l2 Hsub IH|x l1 l2 Hsub IH];
    intros Hl; [done|..].
  - apply StronglySorted_inv in Hl as [Hl Hx]. constructor; [auto|].
    rewrite Forall_forall in *. intros y Hy. apply Hx.
    by eapply sublist_submseteq, elem_of_submseteq in Hsub.
  - apply StronglySorted_inv in Hl as [Hl Hx]. auto.
Qed.

Lemma sublist_foldl_delete {A} (l : list A) (d : list nat) :
  sublist (foldl (λ arr anIndex, delete anIndex arr) l d) l.
Proof.
  revert l. induction d as [|i d IH]; intros l; [done|].
  simpl. etrans; [apply IH|]. apply sublist_delete.
Qed.

Lemma StronglySorted_seq start len : StronglySorted lt (seq start len).
Proof.
  revert start. induction len as [|len IH]; intros start; simpl;
    constructor; [apply IH|].
  apply Forall_forall. intros x Hx%elem_of_seq. lia.
Qed.

Lemma present_sorted st ps : sortedStore st → StronglySorted lt (present st ps).
Proof.
  intros Hs. unfold present.
  destruct (store st !! ps.1) as [m|] eqn:E; simpl; [by eapply Hs|].
  apply StronglySorted_seq.
Qed.

Lemma sublist_obj_delete {V} k (o : obj V) : sublist (obj_delete k o) o.
Proof.
  induction o as [|[k' v] o IH]; [done|]. simpl.
  destruct (String.eqb k k'); [by constructor|]. by constructor.
Qed.

Lemma Forall2_obj_set {V} (R : V → V → Prop) (o o' : obj V) k cur new :
  Forall2 (λ kw kw', kw'.1 = kw.1 ∧ R kw.2 kw'.2) o o' →
  obj_get k o' = Some cur →
  (∀ w0, R w0 cur → R w0 new) →
  Forall2 (λ kw kw', kw'.1 = kw.1 ∧ R kw.2 kw'.2) o (obj_set k new o').
Proof.
  intros HF Hget. rewrite obj_set_old by by eapply obj_get_Some_keys.
  revert Hget. induction HF as [|[k0 w0] [k1 w1] l l' [Hk HR] HF IH];
    intros Hget Hnew; [done|].
  simpl in *. destruct (String.eqb k k1) eqn:E.
  - apply String.eqb_eq in E as ->. simplify_eq. constructor; [|done].
    split; [done|]. auto.
  - constructor; [done|]. auto.
Qed.

Lemma keep_evolves fuel :
  (∀ aRule p g st r st',
     keepRule fuel aRule p g st = Some (r, st') → evolves st st')
  ∧ (∀ ps p g st r st',
       keepPatterns fuel ps p g st = Some (r, st') → evolves st st')
  ∧ (∀ ps i d p g st r st',
       keepPatternsLoop fuel ps i d p g st = Some (r, st') → evolves st st')
  ∧ (∀ inc p g st r st',
       keepInclude fuel inc p g st = Some (r, st') → evolves st st')
  ∧ (∀ aBaseScope aGrammar st r st',
       inKnownBaseScopes st aBaseScope = true
       ∨ obj_get aBaseScope (s2g st) = Some aGrammar →
       keepGrammar fuel aBaseScope aGrammar st = Some (r, st') →
       evolves st st').
Proof.
  induction fuel as [|fuel (IHr & IHp & IHl & IHi & IHg)];
    [by split_and!; intros; discriminate|].
  split_and!.
  - intros aRule p g st r st' H. cbn [keepRule] in H.
    destruct aRule as [[f]|]; [|by injection H as <- <-; apply evolves_refl].
    unfold bind at 1 in H. unfold get in H.
    repeat (match type of H with
            | (if ?b then _ else _) _ = _ =>
                destruct b; [by injection H as <- <-; apply evolves_refl|]
            end).
    apply bind_Some in H as (kp & st1 & Hkp%IHp & H).
    destruct kp; [by injection H as <- <-|].
    apply bind_Some in H as (ki & st2 & Hki%IHi & H).
    destruct (truthy ki).
    + injection H as <- <-. eapply evolves_trans; [done|].
      eapply evolves_trans; [done|]. by apply evolves_frame.
    + injection H as <- <-. by eapply evolves_trans.
  - intros ps p g st r st' H. cbn [keepPatterns] in H.
    destruct ps as [ps|]; [|by injection H as <- <-; apply evolves_refl].
    apply bind_Some in H as (d & st1 & Hd%IHl & H).
    injection H as <- <-. eapply evolves_trans; [done|].
    apply evolves_frame; try done.
    intros Hs a mask. simpl. destruct (decide (a = ps.1)) as [->|Hne].
    + rewrite lookup_insert_eq. intros [= <-].
      eapply StronglySorted_sublist; [apply sublist_foldl_delete|].
      by apply present_sorted.
    + rewrite lookup_insert_ne by done. apply Hs.
  - intros ps i d p g st r st' H. cbn [keepPatternsLoop] in H.
    unfold bind at 1 in H. unfold get in H.
    destruct (present st ps !! i);
      [|by injection H as <- <-; apply evolves_refl].
    apply bind_Some in H as (kept & st1 & Hk%IHr & H%IHl).
    by eapply evolves_trans.
  - intros inc p g st r st' H. cbn [keepInclude] in H.
    destruct (negb (truthyStr inc));
      [by injection H as <- <-; apply evolves_refl|].
    destruct (startsWith (propKey inc) "$");
      [by injection H as <- <-; apply evolves_refl|].
    destruct (startsWith (propKey inc) "#").
    + unfold bind at 1 in H. unfold get in H.
      destruct (inPatterns2keep st p (propKey inc));
        [by injection H as <- <-; apply evolves_refl|].
      apply bind_Some in H as (kept & st1 & Hk%IHr & H).
      by destruct kept; injection H as <- <-.
    + unfold bind at 1 in H. unfold get in H.
      destruct (inKeepSet st (propKey inc));
        [by injection H as <- <-; apply evolves_refl|].
      destruct (lookup_s2g st (propKey inc)) as [aGrammar|] eqn:E;
        [|by injection H as <- <-; apply evolves_refl].
      apply bind_Some in H as (kept & st1 & Hk & H).
      apply IHg in Hk; [|by eapply lookup_s2g_visit].
      by destruct (truthy kept); injection H as <- <-.
  - intros k aGrammar st r st' Hpre H. cbn [keepGrammar] in H.
    unfold bind at 1 in H. unfold get in H.
    destruct (inKnownBaseScopes st k) eqn:Hknown;
      [by injection H as <- <-; apply evolves_refl|].
    apply inKnownBaseScopes_false in Hknown as [Hknown Hown].
    destruct Hpre as [?|Hcur]; [done|].
    unfold bind at 1 in H. unfold modify at 1 in H.
    assert (evolves st (setKnownBaseScope k st)) as Hstep.
    { destruct (evolves_refl st) as (_ & _ & HF & Hrest).
      unfold evolves, sortedStore. simpl.
      split_and!; [set_solver|done|exact HF|].
      intros k'. split_and!; auto. }
    destruct (inKeepSet st k) eqn:Hkeep; [by injection H as <- <-|].
    destruct (g_patterns aGrammar) as [ps|] eqn:Hps;
      [|by injection H as <- <-].
    apply bind_Some in H as (p2k & st1 & Hp2k & H).
    injection Hp2k as <- <-.
    apply bind_Some in H as (kept & st2 & Hkp%IHp & H).
    unfold bind at 1 in H. unfold get in H.
    pose proof (evolves_trans _ _ _ Hstep
                  (evolves_trans _ _ _
                     (evolves_frame (setKnownBaseScope k st) _ eq_refl eq_refl
                        eq_refl (λ Hs, Hs)) Hkp)) as Hev.
    destruct Hkp as (Hk2 & _ & _ & Hkp). simpl in Hk2.
    destruct (Hkp k) as (_ & Hsame & _). simpl in Hsame.
    destruct Hsame as [Hkeep2 Hcur2]; [left; set_solver|].
    rewrite Hcur in Hcur2.
    pose proof (evolves_keys _ _ Hev) as Hkeys.
    destruct Hev as (Hk02 & Hs02 & HF02 & H02).
    assert (∀ st3 : PState,
              knownBaseScopes st3 = knownBaseScopes st2 →
              store st3 = store st2 →
              scopes2keep st3 = scopes2keep st2 →
              (∃ new, s2g st3 = obj_set k new (s2g st2) ∧ restricts aGrammar new)
              ∨ s2g st3 = s2g st2 →
              evolves st (setScopes2keep k kept st3)) as Hfinal.
    { intros st3 Hk3 Hsto3 Hkeep3 Hg3. unfold evolves. simpl.
      rewrite Hk3, Hkeep3. split_and!.
      - done.
      - intros Hs a mask. unfold sortedStore in *. simpl. rewrite Hsto3.
        by apply Hs02.
      - destruct Hg3 as [(new & -> & Hnew)| ->]; [|done].
        eapply Forall2_obj_set; [done..|].
        intros w0 Hw0. by eapply restricts_trans.
      - intros k'. destruct (H02 k') as (Ha & Hb & Hc). split_and!.
        + intros Htrue. destruct (decide (k' = k)) as [->|Hne].
          * by rewrite (inKeepSet_Some _ _ _ Htrue) in Hkeep.
          * rewrite lookup_insert_ne by done. auto.
        + intros Hk'. assert (k' ≠ k) as Hne.
          { intros ->. destruct Hk' as [?|Hk']; [done|].
            apply Hk'. apply Hk2. set_solver. }
          rewrite lookup_insert_ne by done.
          destruct (Hb Hk') as [-> Hget]. split; [done|].
          destruct Hg3 as [(new & -> & Hnew)| ->]; [|done].
          by rewrite obj_get_set_ne.
        + destruct (decide (k' = k)) as [->|Hne].
          * right. by eapply obj_get_Some_keys.
          * rewrite lookup_insert_ne by done. done. }
    destruct (g_repository aGrammar) as [repo|] eqn:Hrepo.
    + unfold bind at 1 in H. unfold modify at 1 in H.
      unfold bind at 1 in H. unfold modify at 1 in H.
      injection H as <- <-. apply Hfinal; try done.
      left. eexists. split; [done|].
      unfold restricts. simpl. rewrite Hrepo, Hps. split_and!; try done.
      apply (foldl_invariant (λ r, sublist r repo)); [done|].
      intros r kv Hr. destruct (inPatterns2keep _ _ _); [done|].
      etrans; [apply sublist_obj_delete|done].
    + unfold bind at 1 in H. unfold ret at 1 in H.
      unfold bind at 1 in H. unfold modify at 1 in H.
      injection H as <- <-. apply Hfinal; try done. by right.
Qed.

Lemma keepGrammars_evolves fuel entries st0 st r st' :
  (∀ k g, (k, g) ∈ entries → obj_get k (s2g st0) = Some g) →
  evolves st0 st →
  keepGrammars fuel entries st = Some (r, st') →
  evolves st0 st'.
Proof.
  revert st. induction entries as [|[k g] entries IH]; intros st Hget Hev H.
  - by injection H as <- <-.
  - cbn [keepGrammars] in H.
    apply bind_Some in H as (kept & st1 & Hk & H).
    destruct (keep_evolves fuel) as (_ & _ & _ & _ & Hg).
    apply Hg in Hk.
    + eapply IH; [|by eapply evolves_trans|done].
      intros k' g' Hin. apply Hget. by right.
    + destruct (decide (k ∈ knownBaseScopes st)) as [?|Hk'];
        [left; by apply inKnownBaseScopes_elem|].
      right. destruct Hev as (_ & _ & _ & Hev).
      destruct (Hev k) as (_ & Hsame & _).
      destruct Hsame as [_ ->]; [by right|]. apply Hget. by left.
Qed.

(** What [pruneGrammars] starts from, and what it has when its loop ends. *)
Lemma pruneGrammars_evolves fuel keep st st' keep' :
  NoDup (obj_keys (originalScope2grammar st)) →
  enumerated (obj_keys (originalScope2grammar st)) →
  pruneGrammars fuel keep st = Some (st', keep') →
  ∃ pst,
    evolves (MkPState ∅ (copyOriginals (originalScope2grammar st)).1 keep ∅ [])
            pst
    ∧ st' = MkState
              (map (λ aScopeGrammar,
                      (aScopeGrammar.1,
                       readGrammar (store pst) aScopeGrammar.2))
                   (s2g pst))
              (originalScope2grammar st) (loadedGrammars st)
    ∧ keep' = scopes2keep pst.
Proof.
  intros Hnd Hen H. unfold pruneGrammars in H.
  destruct (keepGrammars fuel _ _) as [[[] pst]|] eqn:E; [|done].
  injection H as <- <-. exists pst. split; [|done].
  eapply keepGrammars_evolves; [|apply evolves_refl|exact E].
  intros k g Hin. simpl. apply elem_of_obj_get; [|done].
  by rewrite copyOriginals_keys.
Qed.

(** * Working copies read back through a store *)

Section ThinnedFacts.
Context {A : Type} (T : A → A → Prop).

Lemma thinnedList_nil l : thinnedList T l [].
Proof. by destruct l. Qed.

Lemma thinnedList_skip x l l' : thinnedList T l l' → thinnedList T (x :: l) l'.
Proof. destruct l'; [done|]. simpl. by right. Qed.

Lemma thinnedList_cons x x' l l' :
  T x x' → thinnedList T l l' → thinnedList T (x :: l) (x' :: l').
Proof. simpl. by left. Qed.

Lemma thinnedList_sublist {B} (f f' : B → A) (l l' : list B) :
  sublist l' l → (∀ x, T (f x) (f' x)) →
  thinnedList T (map f l) (map f' l').
Proof.
  intros Hsub HT. induction Hsub as [|x l1 l2 Hsub IH|x l1 l2 Hsub IH].
  - done.
  - by apply thinnedList_cons.
  - by apply thinnedList_skip.
Qed.

Lemma omap_lookup_shift (x : A) (l : list A) (mask : list nat) :
  Forall (λ position, 0 < position) mask →
  omap (λ position, (x :: l) !! position) mask
  = omap (λ position, l !! position) (pred <$> mask).
Proof.
  induction 1 as [|position mask Hpos _ IH]; [done|].
  csimpl. rewrite IH. by destruct position; [lia|].
Qed.

Lemma thinnedList_mask (l l' : list A) (mask : list nat) :
  Forall2 T l l' → StronglySorted lt mask →
  thinnedList T l (omap (λ position, l' !! position) mask).
Proof.
  intros HF. revert mask.
  induction HF as [|x x' l l' Hx HF IH]; intros mask Hsorted.
  - replace (omap _ mask) with (@nil A); [done|].
    induction mask as [|i mask IHm]; [done|]. csimpl.
    apply StronglySorted_inv in Hsorted as [Hsorted _]. auto.
  - destruct mask as [|position mask]; [done|].
    apply StronglySorted_inv in Hsorted as [Hsorted Hall].
    assert (Forall (λ p, 0 < p) mask) as Hpos.
    { eapply Forall_impl; [done|]. simpl. lia. }
    assert (StronglySorted lt (pred <$> mask)) as Hpred.
    { clear Hall. induction mask as [|p mask IHm]; [constructor|].
      apply StronglySorted_inv in Hsorted as [Hsorted Hall].
      apply Forall_cons in Hpos as [Hp Hpos]. csimpl. constructor; [auto|].
      apply Forall_fmap. rewrite Forall_forall in *. intros q Hq. simpl.
      specialize (Hall q Hq). specialize (Hpos q Hq). lia. }
    destruct position as [|position].
    + csimpl. rewrite omap_lookup_shift by done.
      apply thinnedList_cons; auto.
    + rewrite omap_lookup_shift.
      * apply thinnedList_skip, IH.
        change (StronglySorted lt (pred <$> S position :: mask)).
        csimpl. constructor; [done|].
        apply Forall_fmap. rewrite Forall_forall in *. intros q Hq. simpl.
        specialize (Hall q Hq). lia.
      * constructor; [lia|done].
Qed.

End ThinnedFacts.

Lemma WRule_nested_ind (P : WRule → Prop) :
  (∀ f,
     (∀ somePatterns, r_patterns f = Some somePatterns →
                      Forall P somePatterns.2) →
     P (MkWRule f)) →
  ∀ w, P w.
Proof.
  intros step. fix IH 1.
  intros [[n sn cn m b e cap bcap ecap pats repo inc]].
  apply step; simpl.
  destruct pats as [[a ps]|]; [|done]. intros ? [= <-]. simpl.
  induction ps; constructor; auto.
Qed.

Lemma Forall2_map_same {A B} (R : B → B → Prop) (f f' : A → B) (l : list A) :
  Forall (λ x, R (f x) (f' x)) l → Forall2 R (map f l) (map f' l).
Proof. induction 1; constructor; auto. Qed.

Lemma thinned_readRule sto w :
  (∀ a mask, sto !! a = Some mask → StronglySorted lt mask) →
  thinned (readRule ∅ w) (readRule sto w).
Proof.
  intros Hsorted. induction w as [f IH] using WRule_nested_ind.
  simpl. destruct (r_patterns f) as [[a elems]|] eqn:E; [|done].
  split; [done|]. specialize (IH _ eq_refl). simpl in IH.
  rewrite lookup_empty. simpl.
  rewrite <- (length_map (readRule ∅) elems), omap_lookup_seq.
  apply thinnedList_mask; [by apply Forall2_map_same|].
  destruct (sto !! a) as [mask|] eqn:Ea; simpl; [by eapply Hsorted|].
  apply StronglySorted_seq.
Qed.

Lemma thinned_readGrammar sto w0 w :
  (∀ a mask, sto !! a = Some mask → StronglySorted lt mask) →
  restricts w0 w →
  thinnedGrammar (readGrammar ∅ w0) (readGrammar sto w).
Proof.
  intros Hsorted (Hsn & Hps & Hft & Hflm & Hrepo).
  unfold thinnedGrammar, readGrammar. simpl. rewrite Hps.
  split_and!; try done.
  - destruct (g_patterns w0) as [[a elems]|]; [|done]. simpl.
    unfold readPatterns. simpl. rewrite lookup_empty. simpl.
    rewrite <- (length_map (readRule ∅) elems), omap_lookup_seq.
    apply thinnedList_mask.
    + apply Forall2_map_same, Forall_forall. intros x _.
      by apply thinned_readRule.
    + destruct (sto !! a) as [mask|] eqn:Ea; simpl; [by eapply Hsorted|].
      apply StronglySorted_seq.
  - destruct (g_repository w0) as [repo0|], (g_repository w) as [repo|];
      try done. simpl.
    apply (thinnedList_sublist _ (λ kr, (kr.1, readRule ∅ kr.2))
             (λ kr, (kr.1, readRule sto kr.2))); [done|].
    intros x. simpl. split; [done|]. by apply thinned_readRule.
Qed.

Lemma Forall2_read_back sto (o0 o : obj WGrammar) :
  (∀ a mask, sto !! a = Some mask → StronglySorted lt mask) →
  Forall2 (λ kw kw', kw'.1 = kw.1 ∧ restricts kw.2 kw'.2) o0 o →
  Forall2 (λ kg kg', kg'.1 = kg.1 ∧ thinnedGrammar kg.2 kg'.2)
          (map (λ kw, (kw.1, readGrammar ∅ kw.2)) o0)
          (map (λ kw, (kw.1, readGrammar sto kw.2)) o).
Proof.
  intros Hsorted. induction 1 as [|[k0 w0] [k w] o0 o [Hk Hw] _ IH];
    [constructor|].
  simpl in *. constructor; [|done]. simpl. split; [done|].
  by apply thinned_readGrammar.
Qed.

(** What [pruneGrammars] leaves, laid against the original map. *)
Lemma pruneGrammars_thinned fuel keep st st' keep' :
  NoDup (obj_keys (originalScope2grammar st)) →
  enumerated (obj_keys (originalScope2grammar st)) →
  pruneGrammars fuel keep st = Some (st', keep') →
  Forall2 (λ kg kg', kg'.1 = kg.1 ∧ thinnedGrammar kg.2 kg'.2)
          (originalScope2grammar st) (scope2grammar st').
Proof.
  intros Hnd Hen H.
  destruct (pruneGrammars_evolves _ _ _ _ _ Hnd Hen H)
    as (pst & (_ & Hsorted & HF & _) & -> & _).
  simpl in *. rewrite <- (copyOriginals_read _ Hnd Hen) at 1.
  apply Forall2_read_back; [|done].
  apply Hsorted. intros a mask. simpl. by rewrite lookup_empty.
Qed.

Lemma truthyStr_Some o :
  truthyStr o = true → o = Some (propKey o) ∧ propKey o ≠ "".
Proof.
  destruct o as [s|]; [|done]. simpl. intros Hs. split; [done|].
  intros ->. done.
Qed.

Lemma keyedByScopeName_set {R P} k (g : GrammarOf R P) o :
  g_scopeName g = Some k → k ≠ "" →
  keyedByScopeName o → keyedByScopeName (obj_set k g o).
Proof.
  intros Hg Hk Ho k' g' [[-> ->]|Hin]%elem_of_obj_set; [done|].
  by apply Ho.
Qed.

Section PrunerFacts.
Context `{Externals}.

(** X12.  Pruning only removes.  When [pruneGrammars] returns, the working
    map has the keys of the original map in the same order, and the grammar
    under each key is the original with elements spliced out of pattern
    arrays, at any depth, and entries deleted from its repository: no key is
    added, changed or reordered.  The original map is as it was. *)
Theorem pruneGrammars_only_removes fuel scopes2keep st st' scopes2keep' :
  reachable st →
  pruneGrammars fuel scopes2keep st = Some (st', scopes2keep') →
  Forall2 (λ original pruned,
             pruned.1 = original.1 ∧ thinnedGrammar original.2 pruned.2)
          (originalScope2grammar st) (scope2grammar st')
  ∧ originalScope2grammar st' = originalScope2grammar st.
Proof.
  intros [[Hnd _] Hen]%reachable_wellformed Hp. split.
  - by eapply pruneGrammars_thinned.
  - by destruct (pruneGrammars_evolves _ _ _ _ _ Hnd Hen Hp)
      as (pst & _ & -> & _).
Qed.

(** X13.  What [pruneGrammars] does to the keep-set it is given: a scope
    marked [true] is still marked [true] when the call returns, and the only
    entries written are those of base scopes of the original map. *)
Theorem pruneGrammars_keep_set_grows fuel scopes2keep st st' scopes2keep' :
  reachable st →
  pruneGrammars fuel scopes2keep st = Some (st', scopes2keep') →
  ∀ aScope,
    (scopes2keep !! aScope = Some true → scopes2keep' !! aScope = Some true)
    ∧ (aScope ∉ obj_keys (originalScope2grammar st) →
       scopes2keep' !! aScope = scopes2keep !! aScope).
Proof.
  intros [[Hnd _] Hen]%reachable_wellformed Hp aScope.
  destruct (pruneGrammars_evolves _ _ _ _ _ Hnd Hen Hp)
    as (pst & (_ & _ & _ & Hev) & _ & ->).
  destruct (Hev aScope) as (Htrue & _ & Hwritten). simpl in *.
  split; [done|]. intros Hnew. destruct Hwritten as [?|Hin]; [done|].
  by rewrite copyOriginals_keys in Hin.
Qed.

Lemma reachable_keyed st :
  reachable st →
  keyedByScopeName (originalScope2grammar st)
  ∧ keyedByScopeName (scope2grammar st).
Proof.
  induction 1 as [|p st Hr [IHo IHw]|fuel keep st st' keep' Hr [IHo IHw] Hp].
  - split; intros k g Hin; by apply elem_of_nil in Hin.
  - pose proof (reachable_consistent _ Hr) as Hc.
    unfold loadGrammarFrom. repeat case_match; simpl; try done.
    match goal with E : registerGrammar ?g ?s = _ |- _ =>
      destruct (registerGrammar_rebuilds g s) as [Hreg _]; [done|];
      rewrite E in Hreg; simpl in Hreg; subst end.
    simpl. case_match; [|done].
    match goal with E : truthyStr _ = true |- _ =>
      apply truthyStr_Some in E as [? ?] end.
    split; by apply keyedByScopeName_set.
  - destruct (reachable_wellformed _ Hr) as [[Hnd _] Hen].
    pose proof (pruneGrammars_thinned _ _ _ _ _ Hnd Hen Hp) as HF.
    destruct (pruneGrammars_evolves _ _ _ _ _ Hnd Hen Hp)
      as (pst & _ & Hst & _).
    split; [by rewrite Hst|].
    intros k g' (i & Hi)%list_elem_of_lookup_1.
    destruct (Forall2_lookup_r _ _ _ _ _ HF Hi) as ([k0 g] & Hi0 & Hk & Hg).
    simpl in *. subst k0. destruct Hg as (Hsn & _).
    rewrite Hsn. apply IHo. by eapply list_elem_of_lookup_2.
Qed.

(** X14.  In every state the class can be in, each grammar of the original
    map and of the working map is registered under its own [scopeName],
    which is not the empty string. *)
Theorem reachable_keyed_by_scopeName st :
  reachable st →
  keyedByScopeName (originalScope2grammar st)
  ∧ keyedByScopeName (scope2grammar st).
Proof. apply reachable_keyed. Qed.

End PrunerFacts.

Lemma keywordsLoaded_reachable : reachable (H := externals) keywordsLoaded.
Proof. apply (reachable_load "keywords.json" initial), reachable_initial. Defined.

Lemma pruneGrammars_only_removes_witness :
  Forall2 (λ original pruned,
             pruned.1 = original.1 ∧ thinnedGrammar original.2 pruned.2)
          (originalScope2grammar keywordsLoaded) (scope2grammar keywordsPruned)
  ∧ originalScope2grammar keywordsPruned = originalScope2grammar keywordsLoaded.
Proof.
  apply (pruneGrammars_only_removes (H := externals) 10 {["kw.a" := true]}
           keywordsLoaded keywordsPruned keywordsKeepSet).
  - apply keywordsLoaded_reachable.
  - vm_compute. reflexivity.
Defined.

Lemma pruneGrammars_keep_set_grows_witness :
  keywordsKeepSet !! "kw.a" = Some true
  ∧ keywordsKeepSet !! "kw.b" = None.
Proof.
  assert (pruneGrammars 10 {["kw.a" := true]} keywordsLoaded
          = Some (keywordsPruned, keywordsKeepSet)) as Hpruned
    by (vm_compute; reflexivity).
  pose proof (pruneGrammars_keep_set_grows (H := externals) 10
                {["kw.a" := true]} keywordsLoaded keywordsPruned
                keywordsKeepSet keywordsLoaded_reachable Hpruned)
    as Hgrows.
  split.
  - apply (proj1 (Hgrows "kw.a")). reflexivity.
  - rewrite (proj2 (Hgrows "kw.b")).
    + reflexivity.
    + apply (bool_decide_eq_false_1 _). vm_compute. reflexivity.
Defined.

Lemma reachable_keyed_by_scopeName_witness :
  keyedByScopeName (originalScope2grammar keywordsPruned)
  ∧ keyedByScopeName (scope2grammar keywordsPruned).
Proof.
  apply (reachable_keyed_by_scopeName (H := externals) keywordsPruned).
  apply (reachable_prune 10 {["kw.a" := true]} keywordsLoaded keywordsPruned
           keywordsKeepSet).
  - apply keywordsLoaded_reachable.
  - vm_compute. reflexivity.
Defined.

(** * The tracer: the handlers it invokes *)

Section TracerFacts.
Context `{Externals} {V : Type}.
Implicit Types (p : Progress (V := V)) (config : Config).
Implicit Types (scopesWithActions : obj (list (Action (V := V)))).

Lemma traceObj_off config traceOpts aStr :
  trace config = false → traceObj config traceOpts aStr = (false, []).
Proof. unfold traceObj. by intros ->. Qed.

Lemma runActions_calls someActions inv p :
  ∃ names,
    calls (outcome (runActions someActions inv p))
    = calls p ++ ((λ aName, (aName, inv)) <$> names)
    ∧ names ⊆ a_name <$> someActions.
Proof.
  revert p. induction someActions as [|a l IH]; intros p.
  - exists []. simpl. by rewrite app_nil_r.
  - simpl. destruct (a_run a inv (structs p)) as [structs'|].
    + destruct (IH (MkProgress (calls p ++ [(a_name a, inv)]) (log p) structs'))
        as (names & -> & Hsub).
      exists (a_name a :: names). simpl. rewrite <- app_assoc. split; [done|].
      intros x [->|Hx]%elem_of_cons; [by left|]. right. by apply Hsub.
    + exists [a_name a]. split; [done|].
      intros x ->%list_elem_of_singleton. by left.
Qed.

Lemma logStructures_calls config structureNames p :
  calls (logStructures config structureNames p) = calls p.
Proof.
  unfold logStructures. revert p.
  induction structureNames as [|n l IH]; intros p; [done|].
  simpl. rewrite IH. by destruct (traceObj _ _ _) as [[] out].
Qed.

Lemma logStructures_log_off config structureNames p :
  trace config = false → log (logStructures config structureNames p) = log p.
Proof.
  intros Hoff. unfold logStructures. revert p.
  induction structureNames as [|n l IH]; intros p; [done|].
  simpl. rewrite IH, traceObj_off by done. simpl. by rewrite app_nil_r.
Qed.

Lemma dispatch_calls config scopesWithActions structureNames showLine lineNum
  aDoc scopes2run p :
  ∃ extra,
    calls (outcome (dispatch config scopesWithActions structureNames showLine
                      lineNum aDoc scopes2run p))
    = calls p ++ extra
    ∧ Forall (λ aCall,
                i_lineNum aCall.2 = lineNum
                ∧ i_doc aCall.2 = aDoc
                ∧ i_trace aCall.2 = trace config
                ∧ (i_scope aCall.2, i_tokens aCall.2) ∈ scopes2run
                ∧ aCall.1 ∈ a_name <$> default []
                             (obj_get (i_scope aCall.2) scopesWithActions))
             extra.
Proof.
  revert p. induction scopes2run as [|[aScope someTokens] rest IH]; intros p.
  - exists []. simpl. by rewrite app_nil_r.
  - cbn [dispatch].
    destruct (traceObj config (traceScopes config) aScope) as [showScope out1].
    destruct (traceObj config (traceActions config) aScope) as [showAction out2].
    set (p1 := if showLine && showScope && showAction then _ else _).
    assert (calls p1 = calls p) as Hp1 by (subst p1; by destruct (_ && _)).
    set (inv := MkInvocation aScope someTokens lineNum aDoc (trace config)).
    destruct (runActions_calls
                (default [] (obj_get aScope scopesWithActions)) inv p1)
      as (names & Hcalls & Hnames).
    assert (Forall (λ aCall,
                i_lineNum aCall.2 = lineNum
                ∧ i_doc aCall.2 = aDoc
                ∧ i_trace aCall.2 = trace config
                ∧ (i_scope aCall.2, i_tokens aCall.2)
                  ∈ (aScope, someTokens) :: rest
                ∧ aCall.1 ∈ a_name <$> default []
                             (obj_get (i_scope aCall.2) scopesWithActions))
              ((λ aName, (aName, inv)) <$> names)) as Hmine.
    { apply Forall_fmap, Forall_forall. intros aName Hin. simpl.
      split_and!; try done; [by left|by apply Hnames]. }
    destruct (runActions _ inv p1) as [p2|p2] eqn:Hrun; simpl in Hcalls.
    + set (p3 := if showLine && showScope && showAction then _ else p2).
      assert (calls p3 = calls p2) as Hp3.
      { subst p3. destruct (_ && _); [|done]. simpl.
        apply logStructures_calls. }
      destruct (IH p3) as (extra & -> & Hextra).
      exists (((λ aName, (aName, inv)) <$> names) ++ extra).
      rewrite Hp3, Hcalls, Hp1, <- app_assoc. split; [done|].
      apply Forall_app. split; [done|].
      eapply Forall_impl; [done|]. simpl.
      intros c (? & ? & ? & ? & ?). split_and!; try done. by right.
    + exists ((λ aName, (aName, inv)) <$> names). simpl.
      by rewrite Hcalls, Hp1.
Qed.

Lemma visitScopes_buckets_filled config scopesWithActions showLine aLine aToken
  acc :
  Forall (λ aBucket, is_Some (obj_get aBucket.1 scopesWithActions)
                     ∧ aBucket.2 ≠ []) acc.1 →
  Forall (λ aBucket, is_Some (obj_get aBucket.1 scopesWithActions)
                     ∧ aBucket.2 ≠ [])
         (visitScopes config scopesWithActions showLine aLine aToken acc).1.
Proof.
  unfold visitScopes. revert acc.
  induction (scopes aToken) as [|aScope l IH]; intros acc Hacc; [done|].
  simpl. apply IH. destruct acc as [scopes2run out].
  destruct (traceObj _ _ _) as [showScope out1]. simpl in *.
  destruct (obj_get aScope scopesWithActions) as [acts|] eqn:E; [|done].
  apply Forall_forall. intros [k toks] [[-> ->]|Hin]%elem_of_obj_set; simpl.
  - split; [by rewrite E|]. by destruct (default [] _).
  - by apply (proj1 (Forall_forall _ _) Hacc (k, toks)).
Qed.

Lemma visitTokens_buckets_filled config scopesWithActions showLine aLine
  someTokens :
  Forall (λ aBucket, is_Some (obj_get aBucket.1 scopesWithActions)
                     ∧ aBucket.2 ≠ [])
         (visitTokens config scopesWithActions showLine aLine someTokens).1.
Proof.
  unfold visitTokens.
  apply (foldl_invariant
           (λ acc, Forall (λ aBucket,
                             is_Some (obj_get aBucket.1 scopesWithActions)
                             ∧ aBucket.2 ≠ []) acc.1)); [constructor|].
  intros acc aToken Hacc. by apply visitScopes_buckets_filled.
Qed.

Lemma sorted_block (n : nat) (l l' : list nat) :
  Forall (λ m, m = n) l → Forall (λ m, n ≤ m) l' → StronglySorted le l' →
  StronglySorted le (l ++ l').
Proof.
  induction 1 as [|m l -> Hl IH]; intros Hl' Hs; simpl; [done|].
  constructor; [auto|]. apply Forall_app. split; [|done].
  eapply Forall_impl; [exact Hl|]. simpl. lia.
Qed.

Lemma traceLinesFrom_calls config scopesWithActions structureNames st
  aBaseScope aDoc someLines lineNum ruleStack p :
  ∃ extra,
    calls (outcome (traceLinesFrom config scopesWithActions structureNames st
                      aBaseScope aDoc someLines lineNum ruleStack p))
    = calls p ++ extra
    ∧ Forall (λ aCall,
                lineNum ≤ i_lineNum aCall.2 < lineNum + length someLines
                ∧ i_doc aCall.2 = aDoc
                ∧ i_trace aCall.2 = trace config
                ∧ i_tokens aCall.2 ≠ []
                ∧ ∃ someActions,
                    obj_get (i_scope aCall.2) scopesWithActions
                    = Some someActions
                    ∧ aCall.1 ∈ a_name <$> someActions)
             extra
    ∧ StronglySorted le ((λ aCall, i_lineNum aCall.2) <$> extra).
Proof.
  revert lineNum ruleStack p.
  induction someLines as [|aLine rest IH]; intros lineNum ruleStack p.
  - exists []. simpl. rewrite app_nil_r. split_and!; [done|done|constructor].
  - cbn [traceLinesFrom].
    destruct (tokenizeLine _ _ _ _) as [someTokens ruleStack'].
    destruct (traceObj config (traceLines config) aLine) as [showLine out1].
    pose proof (visitTokens_buckets_filled config scopesWithActions showLine
                  aLine someTokens) as Hbuckets.
    destruct (visitTokens _ _ _ _ _) as [scopes2run out2]. simpl in Hbuckets.
    set (p1 := say out2 _).
    assert (calls p1 = calls p) as Hp1 by (subst p1; by destruct showLine).
    destruct (dispatch_calls config scopesWithActions structureNames showLine
                lineNum aDoc scopes2run p1) as (mine & Hcalls & Hmine).
    assert (Forall (λ aCall,
                lineNum ≤ i_lineNum aCall.2 < lineNum + length (aLine :: rest)
                ∧ i_doc aCall.2 = aDoc
                ∧ i_trace aCall.2 = trace config
                ∧ i_tokens aCall.2 ≠ []
                ∧ ∃ someActions,
                    obj_get (i_scope aCall.2) scopesWithActions
                    = Some someActions
                    ∧ aCall.1 ∈ a_name <$> someActions)
              mine) as Hmine'.
    { eapply Forall_impl; [exact Hmine|]. simpl.
      intros c (Hn & Hd & Ht & Hin & Hname).
      destruct (proj1 (Forall_forall _ _) Hbuckets _ Hin) as [[acts Hacts] Hne].
      simpl in *. rewrite Hacts in Hname.
      split_and!; try done; try lia. by exists acts. }
    assert (Forall (λ n, n = lineNum) ((λ aCall, i_lineNum aCall.2) <$> mine))
      as Hnums.
    { apply Forall_fmap. eapply Forall_impl; [exact Hmine|].
      by intros c (? & _). }
    destruct (dispatch _ _ _ _ _ _ _ p1) as [p2|p2]; cbn [outcome] in Hcalls;
      cbn beta iota.
    + destruct (IH (S lineNum) ruleStack' p2) as (extra & -> & Hextra & Hsorted).
      exists (mine ++ extra). rewrite Hcalls, Hp1, <- app_assoc.
      split_and!; [done| |].
      * apply Forall_app. split; [done|].
        eapply Forall_impl; [done|]. simpl.
        intros c (? & ?). split; [lia|done].
      * rewrite fmap_app.
        assert (Forall (λ n, S lineNum ≤ n)
                  ((λ aCall, i_lineNum aCall.2) <$> extra)) as Hlater.
        { apply Forall_fmap. eapply Forall_impl; [done|]. simpl.
          intros c (? & _). lia. }
        apply (sorted_block lineNum); [done| |done].
        eapply Forall_impl; [exact Hlater|]. simpl. lia.
    + exists mine. simpl. rewrite Hcalls, Hp1. split_and!; [done..|].
      rewrite <- (app_nil_r (_ <$> mine)).
      apply (sorted_block lineNum); [done|constructor|constructor].
Qed.

(** X15.  The handlers a run of [traceParseOf] has invoked, whether it
    returned or a handler threw: each invocation is for a scope with
    registered actions and by an action registered for it, passes at least
    one token, the number of a line of the document just loaded, that
    document and the configuration's [trace] switch; and the invocations
    come in ascending order of line number. *)
Theorem traceParseOf_invocations aDocPath config scopesWithActions st documents
  structs aDoc documents' :
  DocumentCache.loadFromFile aDocPath documents = Some (aDoc, documents') →
  let p := (outcome (traceParseOf aDocPath config scopesWithActions st
                       documents structs)).1 in
  Forall (expectedCall config scopesWithActions aDoc) (calls p)
  ∧ StronglySorted le ((λ aCall, i_lineNum aCall.2) <$> calls p).
Proof.
  intros Hload. unfold traceParseOf. rewrite Hload.
  destruct (chooseBaseScope _ _ _) as [aBaseScope|]; simpl;
    [|by split; constructor].
  destruct (negb (String.eqb aBaseScope "")); simpl; [|by split; constructor].
  set (p0 := say _ _).
  destruct (traceLinesFrom_calls config scopesWithActions
              (Structures.getStructureNames structs) st aBaseScope aDoc
              (DocumentCache.docLines aDoc) 0 INITIAL p0)
    as (extra & Hcalls & Hextra & Hsorted).
  assert (calls (outcome (traceLinesFrom config scopesWithActions
              (Structures.getStructureNames structs) st aBaseScope aDoc
              (DocumentCache.docLines aDoc) 0 INITIAL p0)) = extra) as Heq
    by by rewrite Hcalls.
  destruct (traceLinesFrom _ _ _ _ _ _ _ _ _ _) as [p|p]; simpl in *;
    rewrite Heq; (split; [|done]);
    (eapply Forall_impl; [done|]); simpl;
    intros c (? & ? & ? & ? & ?); unfold expectedCall; split_and!; try done; lia.
Qed.

(** * The tracer with tracing switched off *)





End TracerFacts.

Lemma traceParseOf_invocations_witness :
  let p := (outcome (traceParseOf (H := externals) "run" traceAll
                       scopesWithActions shellsLoaded cached outlined)).1 in
  Forall (expectedCall traceAll scopesWithActions runDocument) (calls p)
  ∧ StronglySorted le ((λ aCall, i_lineNum aCall.2) <$> calls p).
Proof.
  eapply (traceParseOf_invocations (H := externals) "run" traceAll
            scopesWithActions shellsLoaded cached outlined runDocument).
  reflexivity.
Defined.


(** The log of a run with tracing switched off: the loader's line, the
    selector's check of the one first-line pattern, and the banner. *)
Example traceParseOf_log_off :
  log (outcome (traceParseOf (H := externals) "run" traceOff scopesWithActions
                  shellsLoaded cached outlined)).1
  = [Log LDebug "loading document from run";
     Log LTrace "Checking firstLineMatch for source.script";
     Log LTrace (String newline
       "--TRACING--------------------------------------------------------");
     Log LTrace "run (using source.script)";
     Log LTrace "-----------------------------------------------------------------"].
Proof. vm_compute. reflexivity. Qed.

(** * The tracer and the selector *)

Section TracerSelectorFacts.
Context `{Externals} {V : Type}.
Implicit Types (p : Progress (V := V)) (config : Config).









(** ** What the selector logs *)






End TracerSelectorFacts.


(** * Pruning without includes *)

(** ** Splicing by descending index *)

Lemma foldl_delete_descending (bad : nat → bool) n (rest : list nat) :
  foldl (λ arr anIndex, delete anIndex arr) (seq 0 n ++ rest)
        (rev (List.filter bad (seq 0 n)))
  = List.filter (λ i, negb (bad i)) (seq 0 n) ++ rest.
Proof.
  revert rest. induction n as [|n IH]; intros rest; [done|].
  rewrite seq_S, !List.filter_app, rev_app_distr. simpl.
  destruct (bad n); simpl.
  - rewrite <- (app_assoc (seq 0 n) [n] rest). simpl.
    replace (delete n (seq 0 n ++ n :: rest)) with (seq 0 n ++ rest).
    + by rewrite IH, app_nil_r.
    + symmetry. pose proof (delete_middle (seq 0 n) rest n) as Hd.
      by rewrite length_seq in Hd.
  - rewrite <- !app_assoc. apply IH.
Qed.

Lemma omap_stays {A B} (F : A → option B) (G : A → B) (suf pre : list A) :
  Forall (λ x, ∀ y, F x = Some y → G x = y) suf →
  omap (λ position, map G (pre ++ suf) !! position)
       (List.filter (λ position,
                       match (pre ++ suf) !! position with
                       | Some x => if F x is Some _ then true else false
                       | None => false
                       end)
                    (seq (length pre) (length suf)))
  = omap F suf.
Proof.
  intros HF. revert pre. induction HF as [|x suf Hx _ IH]; intros pre; [done|].
  cbn [length seq List.filter].
  rewrite (list_lookup_middle pre suf x (length pre)) by done.
  specialize (IH (pre ++ [x])). rewrite <- app_assoc in IH. simpl in IH.
  rewrite length_app in IH. simpl in IH.
  replace (length pre + 1) with (S (length pre)) in IH by lia.
  set (look := λ position, map G (pre ++ x :: suf) !! position) in *.
  assert (look (length pre) = Some (G x)) as Hlook.
  { subst look. simpl. rewrite map_app. simpl.
    apply list_lookup_middle. by rewrite length_map. }
  destruct (F x) as [y|] eqn:E.
  - csimpl. rewrite Hlook, E. simpl. by rewrite (Hx y eq_refl), IH.
  - csimpl. by rewrite E, IH.
Qed.

(** ** Reading through stores that agree *)

Lemma readRule_agree sto sto' w :
  (∀ a, a ∈ addressesOf w → sto !! a = sto' !! a) →
  readRule sto w = readRule sto' w.
Proof.
  induction w as [f IH] using WRule_nested_ind. intros Hagree.
  simpl. destruct (r_patterns f) as [[a elems]|] eqn:E; [|done].
  specialize (IH _ eq_refl). simpl in *. rewrite E in Hagree.
  rewrite <- (Hagree a) by by left.
  do 3 f_equal.
  cut (map (readRule sto) elems = map (readRule sto') elems);
    [by intros ->|].
  apply map_ext_Forall. apply Forall_forall. intros w Hw.
  apply (proj1 (Forall_forall _ _) IH w Hw).
  intros a' Ha'. apply Hagree. right.
  apply elem_of_concat. exists (addressesOf w). split; [done|].
  apply list_elem_of_In, in_map, list_elem_of_In, Hw.
Qed.

Lemma withStore_same st : withStore (store st) st = st.
Proof. by destruct st. Qed.

Lemma withStore_twice sto sto' st :
  withStore sto' (withStore sto st) = withStore sto' st.
Proof. done. Qed.

(** ** The loop over a pattern array *)

Lemma NoDup_concat_elem {A} (ls : list (list A)) l :
  NoDup (concat ls) → l ∈ ls → NoDup l.
Proof.
  induction ls as [|l' ls IH]; simpl; [by intros _ ?%elem_of_nil|].
  intros (Hl' & _ & Hls)%NoDup_app [->|Hin]%elem_of_cons; auto.
Qed.

Lemma keepPatternsLoop_tree a elems :
  Forall treePruned elems →
  NoDup (a :: addressesOfRules elems) →
  ∀ suf pre st pats2delete,
    elems = pre ++ suf →
    store st !! a = None →
    (∀ a', a' ∈ addressesOfRules suf → store st !! a' = None) →
    ∃ fuel0 sto',
      (∀ fuel patterns2keep gRepo, fuel0 ≤ fuel →
         keepPatternsLoop fuel (a, elems) (length pre) pats2delete
           patterns2keep gRepo st
         = Some (rev (List.filter
                        (λ i, negb (staysAt (scopes2keep st) elems i))
                        (seq (length pre) (length suf)))
                 ++ pats2delete,
                 withStore sto' st))
      ∧ (∀ a', a' ∉ addressesOfRules suf → sto' !! a' = store st !! a')
      ∧ Forall (λ w, ∀ pruned,
                  prunedRule (scopes2keep st) (readRule ∅ w) = Some pruned →
                  readRule sto' w = pruned) suf.
Proof.
  intros Htree [Ha Hnd]%NoDup_cons suf.
  induction suf as [|w suf IH]; intros pre st d Helems Hroot Hfresh.
  - exists 1, (store st). rewrite withStore_same. split_and!; [|done|done].
    intros [|fuel] p g Hle; [lia|]. cbn [keepPatternsLoop].
    unfold bind, get, ret, present. simpl. rewrite Hroot. simpl.
    rewrite lookup_seq_ge; [done|]. subst elems. rewrite length_app. simpl. lia.
  - assert (w ∈ elems) as Hw.
    { subst elems. apply elem_of_app. right. by left. }
    assert (∀ a', a' ∈ addressesOf w → a' ∈ addressesOfRules (w :: suf))
      as Hmine.
    { intros a' Ha'. unfold addressesOfRules. simpl.
      apply elem_of_app. by left. }
    assert (∀ a', a' ∈ addressesOfRules suf →
                  a' ∈ addressesOfRules (w :: suf)) as Htheirs.
    { intros a' Ha'. unfold addressesOfRules. simpl.
      apply elem_of_app. by right. }
    assert (NoDup (addressesOfRules (w :: suf))) as Hnd'.
    { subst elems. unfold addressesOfRules in *.
      rewrite map_app, concat_app in Hnd.
      by apply NoDup_app in Hnd as (_ & _ & ?). }
    assert (∀ a', a' ∈ addressesOf w → a' ∉ addressesOfRules suf) as Hapart.
    { unfold addressesOfRules in Hnd'. simpl in Hnd'.
      apply NoDup_app in Hnd' as (_ & Hd & _). done. }
    assert (∀ a', a' ∈ addressesOfRules (w :: suf) → a' ≠ a) as Hnot_root.
    { intros a' Ha' ->. apply Ha. subst elems. unfold addressesOfRules in *.
      rewrite map_app, concat_app. apply elem_of_app. by right. }
    destruct (proj1 (Forall_forall _ _) Htree w Hw st)
      as (f1 & sto1 & Hrun1 & Hframe1 & Hread1).
    { intros a' Ha'. by apply Hfresh, Hmine. }
    destruct (IH (pre ++ [w]) (withStore sto1 st)
                 (if prunedRule (scopes2keep st) (readRule ∅ w) is Some _
                  then d else length pre :: d))
      as (f2 & sto2 & Hrun2 & Hframe2 & Hread2).
    { by rewrite <- app_assoc. }
    { simpl. rewrite Hframe1; [done|].
      intros Ha'. by apply (Hnot_root a (Hmine a Ha')). }
    { intros a' Ha'. simpl. rewrite Hframe1; [by apply Hfresh, Htheirs|].
      intros Hin. by apply (Hapart a'). }
    exists (S (f1 `max` f2)), sto2. split_and!.
    + intros [|fuel] p g Hle; [lia|]. cbn [keepPatternsLoop].
      unfold bind at 1. unfold get. unfold present. simpl. rewrite Hroot.
      simpl.
      assert (length pre < length elems) as Hlt.
      { subst elems. rewrite length_app. simpl. lia. }
      rewrite lookup_seq_lt by done. simpl.
      assert (elems !! length pre = Some w) as Hlook.
      { subst elems. by apply list_lookup_middle. }
      rewrite Hlook. unfold bind at 1. rewrite Hrun1 by lia.
      specialize (Hrun2 fuel p g). rewrite length_app in Hrun2.
      simpl in Hrun2.
      replace (length pre + 1) with (S (length pre)) in Hrun2 by lia.
      assert ((if if prunedRule (scopes2keep st) (readRule ∅ w) is Some _
                  then true else false
               then d else length pre :: d)
              = (if prunedRule (scopes2keep st) (readRule ∅ w) is Some _
                 then d else length pre :: d)) as ->
        by by destruct (prunedRule _ _).
      rewrite Hrun2 by lia. f_equal. f_equal.
      unfold staysAt at 2. rewrite Hlook.
      destruct (prunedRule _ _); simpl; [done|].
      by rewrite <- app_assoc.
    + intros a' Ha'. rewrite Hframe2.
      * simpl. apply Hframe1. intros Hin. by apply Ha', Hmine.
      * intros Hin. by apply Ha', Htheirs.
    + constructor; [|done].
      intros pruned Hpruned. rewrite <- (Hread1 pruned Hpruned).
      apply readRule_agree. intros a' Ha'. apply Hframe2.
      by apply Hapart.
Qed.

(** ** A rule *)

Lemma keptByName_tests {P} st (f : RuleOf Rule P) :
  keptByName (scopes2keep st) f
  = keepScope st (r_name f) || keepScope st (r_contentName f)
    || keepCapture st (r_captures f) || keepCapture st (r_beginCaptures f)
    || keepCapture st (r_endCaptures f).
Proof. done. Qed.

Lemma length_omap_lookup {A} (l : list A) (positions : list nat) :
  Forall (λ position, position < length l) positions →
  length (omap (λ position, l !! position) positions) = length positions.
Proof.
  induction 1 as [|position positions Hlt _ IH]; [done|].
  csimpl. destruct (lookup_lt_is_Some_2 l position Hlt) as [x ->].
  simpl. by rewrite IH.
Qed.

Lemma keepPatterns_tree a elems st :
  Forall treePruned elems →
  NoDup (a :: addressesOfRules elems) →
  (∀ a', a' ∈ a :: addressesOfRules elems → store st !! a' = None) →
  ∃ fuel0 sto',
    (∀ fuel patterns2keep gRepo, fuel0 ≤ fuel →
       keepPatterns fuel (Some (a, elems)) patterns2keep gRepo st
       = Some (0 <? length (omap (prunedRule (scopes2keep st))
                                 (map (readRule ∅) elems)),
               withStore sto' st))
    ∧ (∀ a', a' ∉ a :: addressesOfRules elems → sto' !! a' = store st !! a')
    ∧ readPatterns sto' (a, elems)
      = omap (prunedRule (scopes2keep st)) (map (readRule ∅) elems).
Proof.
  intros Htree Hnd Hfresh. set (keep := scopes2keep st).
  destruct (keepPatternsLoop_tree a elems Htree Hnd elems [] st [] eq_refl)
    as (f1 & sto1 & Hrun1 & Hframe1 & Hread1).
  { apply Hfresh. by left. }
  { intros a' Ha'. apply Hfresh. by right. }
  simpl in Hrun1. fold keep in Hrun1, Hread1.
  set (remaining := List.filter (staysAt keep elems) (seq 0 (length elems))).
  set (sto2 := <[a := remaining]> sto1).
  assert (a ∉ addressesOfRules elems) as Ha
    by by apply NoDup_cons in Hnd as [? _].
  assert (∀ w, w ∈ elems → a ∉ addressesOf w) as Ha_elem.
  { intros w Hw Hin. apply Ha. apply elem_of_concat.
    exists (addressesOf w). split; [done|].
    by apply list_elem_of_In, in_map, list_elem_of_In. }
  assert (omap (λ position, map (readRule sto2) elems !! position) remaining
          = omap (prunedRule keep) (map (readRule ∅) elems)) as Hkeptlist.
  { pose proof (omap_stays (λ w, prunedRule keep (readRule ∅ w))
                  (readRule sto2) elems []) as Hst.
    simpl in Hst. subst remaining. unfold staysAt.
    rewrite Hst.
    - clear. induction elems as [|w l IHl]; [done|]. csimpl.
      by rewrite IHl.
    - apply Forall_forall. intros w Hw pruned Hpruned.
      rewrite <- (proj1 (Forall_forall _ _) Hread1 w Hw pruned Hpruned).
      apply readRule_agree. intros a' Ha'. subst sto2.
      apply lookup_insert_ne. intros ->. by apply (Ha_elem w Hw). }
  assert (length remaining
          = length (omap (prunedRule keep) (map (readRule ∅) elems)))
    as Hlen.
  { rewrite <- Hkeptlist. symmetry. apply length_omap_lookup.
    apply Forall_forall. intros position Hpos.
    subst remaining. apply list_elem_of_In, List.filter_In in Hpos as [Hpos _].
    apply in_seq in Hpos. rewrite length_map. lia. }
  exists (S (S f1)), sto2. split_and!.
  - intros [|fuel] p g Hle; [lia|]. cbn [keepPatterns].
    unfold bind at 1. rewrite Hrun1 by lia.
    unfold bind at 1. unfold get. unfold bind at 1. unfold modify.
    rewrite app_nil_r.
    assert (present (withStore sto1 st) (a, elems)
            = seq 0 (length elems)) as ->.
    { unfold present. simpl. rewrite Hframe1 by done.
      rewrite Hfresh by by left. done. }
    pose proof (foldl_delete_descending
                  (λ i, negb (staysAt keep elems i)) (length elems) [])
      as Hdel.
    rewrite !app_nil_r in Hdel. rewrite Hdel.
    assert (List.filter (λ i, negb (negb (staysAt keep elems i)))
                        (seq 0 (length elems)) = remaining) as ->.
    { subst remaining. apply List.filter_ext. intros i.
      apply negb_involutive. }
    unfold ret. by rewrite Hlen.
  - intros a' Ha'. subst sto2.
    rewrite lookup_insert_ne by (intros ->; apply Ha'; by left).
    apply Hframe1. intros Hin. apply Ha'. by right.
  - unfold readPatterns. simpl.
    assert (sto2 !! a = Some remaining) as ->
      by (subst sto2; apply lookup_insert_eq).
    done.
Qed.

Lemma keepRule_tree w :
  includeFree (readRule ∅ w) = true → NoDup (addressesOf w) → treePruned w.
Proof.
  induction w as [f IH] using WRule_nested_ind.
  intros Hfree Hnd st Hfresh.
  set (keep := scopes2keep st).
  assert (readRule (store st) (MkWRule f) = readRule ∅ (MkWRule f)) as Hsame.
  { apply readRule_agree. intros a Ha. by rewrite Hfresh, lookup_empty. }
  pose proof (keptByName_tests st f) as Htests. fold keep in Htests.
  simpl in Hfree. apply andb_true_iff in Hfree as [Hinc Hfree].
  apply negb_true_iff in Hinc.
  destruct (keptByName keep f) eqn:Hkept.
  - (* kept for one of its names *)
    exists 1, (store st). rewrite withStore_same.
    assert (prunedRule keep (readRule ∅ (MkWRule f))
            = Some (readRule ∅ (MkWRule f))) as Hpruned.
    { simpl. unfold keptByName in *. simpl. by rewrite Hkept. }
    rewrite Hpruned. split_and!; [|done|by intros ? [= <-]].
    intros [|fuel] p g Hle; [lia|]. cbn [keepRule].
    unfold bind at 1. unfold get.
    symmetry in Htests.
    repeat match goal with
           | |- (if ?b then _ else _) _ = _ => destruct b; [done|]
           end.
    done.
  - (* not kept by name *)
    symmetry in Htests.
    repeat (apply orb_false_elim in Htests as [Htests ?]).
    destruct (r_patterns f) as [[a elems]|] eqn:Eps.
    + (* with patterns *)
      specialize (IH _ eq_refl). simpl in IH, Hnd, Hfresh.
      rewrite Eps in Hnd, Hfresh.
      rewrite lookup_empty in Hfree. simpl in Hfree.
      rewrite <- (length_map (readRule ∅) elems), omap_lookup_seq in Hfree.
      assert (Forall treePruned elems) as Htree.
      { pose proof (proj1 (forallb_forall _ _) Hfree) as Hall.
        apply Forall_forall. intros w Hw.
        apply (proj1 (Forall_forall _ _) IH w Hw).
        - apply Hall, in_map. by apply list_elem_of_In.
        - apply NoDup_cons in Hnd as [_ Hnd].
          apply (NoDup_concat_elem _ _ Hnd).
          by apply list_elem_of_In, in_map, list_elem_of_In. }
      destruct (keepPatterns_tree a elems st Htree Hnd Hfresh)
        as (f1 & sto2 & Hrun & Hframe & Hread).
      fold keep in Hrun, Hread.
      set (kept := omap (prunedRule keep) (map (readRule ∅) elems)) in *.
      assert (prunedRule keep (readRule ∅ (MkWRule f))
              = if 0 <? length kept
                then Some (readRule sto2 (MkWRule f)) else None) as Hpruned.
      { simpl. unfold keptByName in *. simpl. rewrite Hkept, Eps.
        unfold readPatterns in Hread. simpl in Hread. rewrite Hread.
        rewrite lookup_empty. simpl.
        rewrite <- (length_map (readRule ∅) elems), omap_lookup_seq.
        fold kept. by destruct (0 <? length kept). }
      exists (S (S f1)), sto2. split_and!.
      * intros [|[|fuel]] p g Hle; [lia..|]. cbn [keepRule].
        unfold bind at 1. unfold get.
        repeat match goal with
               | H : ?b = false |- (if ?b then _ else _) _ = _ => rewrite H
               end.
        rewrite Eps. unfold bind at 1. rewrite Hrun by lia.
        rewrite Hpruned. destruct (0 <? length kept); [done|].
        cbn [keepInclude]. rewrite Hinc. done.
      * intros a' Ha'. simpl in Ha'. rewrite Eps in Ha'. by apply Hframe.
      * intros pruned. rewrite Hpruned.
        destruct (0 <? length kept); [|done]. by intros [= <-].
    + (* without patterns *)
      exists 3, (store st). rewrite withStore_same.
      assert (prunedRule keep (readRule ∅ (MkWRule f)) = None) as Hpruned.
      { simpl. unfold keptByName in *. simpl. by rewrite Hkept, Eps. }
      rewrite Hpruned. split_and!; [|done|done].
      intros [|[|fuel]] p g Hle; [lia..|]. cbn [keepRule].
      unfold bind at 1. unfold get.
      repeat match goal with
             | H : ?b = false |- (if ?b then _ else _) _ = _ => rewrite H
             end.
      cbn [keepPatterns keepInclude]. rewrite Eps, Hinc. done.
Qed.

(** ** A grammar *)

Lemma obj_keys_delete_in {V} k (o : obj V) :
  k ∈ obj_keys o → obj_keys o ≡ₚ k :: obj_keys (obj_delete k o).
Proof.
  unfold obj_keys. induction o as [|[k' v] o IH]; [by intros ?%elem_of_nil|].
  simpl. destruct (String.eqb k k') eqn:E.
  - by apply String.eqb_eq in E as ->.
  - apply String.eqb_neq in E. intros [?|Hin]%elem_of_cons; [done|].
    rewrite fmap_cons. simpl. rewrite (IH Hin) at 1. apply Permutation_swap.
Qed.

Lemma foldl_delete_all {V} (todo repo : obj V) :
  obj_keys repo ⊆+ obj_keys todo →
  foldl (λ repo aKeyRule, obj_delete aKeyRule.1 repo) repo todo = [].
Proof.
  revert repo. induction todo as [|[k v] todo IH]; intros repo Hsub.
  - simpl in *. apply submseteq_nil_r in Hsub.
    by destruct repo.
  - simpl. apply IH. unfold obj_keys in Hsub. rewrite fmap_cons in Hsub.
    simpl in Hsub. apply submseteq_cons_r in Hsub as [Hsub|(l & Hl & Hsub)].
    + etrans; [|exact Hsub]. apply sublist_submseteq.
      unfold obj_keys. apply fmap_sublist, sublist_obj_delete.
    + assert (k ∈ obj_keys repo) as Hin.
      { unfold obj_keys. rewrite Hl. by left. }
      apply obj_keys_delete_in in Hin. unfold obj_keys in Hin.
      rewrite Hl in Hin. apply Permutation_cons_inv in Hin.
      unfold obj_keys. by rewrite <- Hin.
Qed.

Lemma foldl_same {A B} (f g : A → B → A) (l : list B) a :
  (∀ a b, f a b = g a b) → foldl f a l = foldl g a l.
Proof.
  intros Hfg. revert a. induction l as [|b l IH]; intros a; [done|].
  simpl. by rewrite Hfg, IH.
Qed.

Lemma obj_set_same {V} k (v : V) o : obj_get k o = Some v → obj_set k v o = o.
Proof.
  intros Hget. rewrite obj_set_old by by eapply obj_get_Some_keys.
  revert Hget. induction o as [|[k' v'] o IH]; [done|]. simpl.
  destruct (String.eqb k k') eqn:E.
  - apply String.eqb_eq in E as ->. by intros [= ->].
  - intros Hget. by rewrite IH.
Qed.

Lemma inKeepSet_own st k :
  isInherited k = false → inKeepSet st k = default false (scopes2keep st !! k).
Proof.
  intros Hk. unfold inKeepSet, lookup_plain.
  destruct (scopes2keep st !! k); [done|]. by rewrite Hk.
Qed.

Lemma readGrammar_agree sto sto' w :
  (∀ a, a ∈ addressesOfGrammar w → sto !! a = sto' !! a) →
  readGrammar sto w = readGrammar sto' w.
Proof.
  intros Hagree. unfold readGrammar, addressesOfGrammar in *.
  assert (readPatterns sto <$> g_patterns w
          = readPatterns sto' <$> g_patterns w) as ->.
  { destruct (g_patterns w) as [[a elems]|]; [|done]. simpl. f_equal.
    unfold readPatterns. simpl.
    rewrite <- (Hagree a) by (apply elem_of_app; left; by left).
    cut (map (readRule sto) elems = map (readRule sto') elems);
      [by intros ->|].
    apply map_ext_Forall, Forall_forall. intros w' Hw'.
    apply readRule_agree. intros a' Ha'. apply Hagree.
    apply elem_of_app. left. right. apply elem_of_concat.
    exists (addressesOf w'). split; [done|].
    by apply list_elem_of_In, in_map, list_elem_of_In. }
  f_equal. destruct (g_repository w) as [repo|]; [|done]. simpl in *.
  f_equal. apply map_ext_Forall, Forall_forall. intros [k w'] Hw'.
  simpl. f_equal.
  apply readRule_agree. intros a' Ha'. apply Hagree.
  apply elem_of_app. right. apply elem_of_concat.
  exists (addressesOf w'). split; [done|].
  apply list_elem_of_In, in_map, list_elem_of_In.
  apply list_elem_of_fmap. by exists (k, w').
Qed.

Lemma keepGrammar_tree k w st :
  includeFreeGrammar (readGrammar ∅ w) = true →
  NoDup (addressesOfGrammar w) →
  (∀ a, a ∈ addressesOfGrammar w → store st !! a = None) →
  k ∉ knownBaseScopes st →
  obj_get k (s2g st) = Some w →
  ∃ fuel0 st' w',
    (∀ fuel, fuel0 ≤ fuel → ∃ r, keepGrammar fuel k w st = Some (r, st'))
    ∧ knownBaseScopes st' ⊆ {[k]} ∪ knownBaseScopes st
    ∧ scopes2keep st'
      = (prunedGrammar (scopes2keep st) k (readGrammar ∅ w)).2
    ∧ s2g st' = obj_set k w' (s2g st)
    ∧ readGrammar (store st') w'
      = (prunedGrammar (scopes2keep st) k (readGrammar ∅ w)).1
    ∧ (∀ a, a ∈ addressesOfGrammar w' → a ∈ addressesOfGrammar w)
    ∧ (∀ a, a ∉ addressesOfGrammar w → store st' !! a = store st !! a).
Proof.
  intros Hfree Hnd Hfresh Hnew Hget.
  assert (readGrammar (store st) w = readGrammar ∅ w) as Hsame.
  { apply readGrammar_agree. intros a Ha. by rewrite Hfresh, lookup_empty. }
  unfold prunedGrammar.
  destruct (isInherited k) eqn:Hown.
  { exists 1, st, w. split_and!; try done.
    - intros [|fuel] Hle; [lia|]. cbn [keepGrammar].
      unfold bind at 1. unfold get. unfold inKnownBaseScopes. rewrite Hown.
      rewrite orb_true_r. by eexists.
    - set_solver.
    - simpl. by rewrite obj_set_same. }
  assert (inKnownBaseScopes st k = false) as Hknown.
  { unfold inKnownBaseScopes. rewrite Hown, orb_false_r.
    by apply bool_decide_eq_false. }
  cbn [orb]. rewrite <- (inKeepSet_own st k Hown).
  destruct (inKeepSet st k) eqn:Hkeep.
  { exists 1, (setKnownBaseScope k st), w. split_and!; try done.
    - intros [|fuel] Hle; [lia|]. cbn [keepGrammar].
      unfold bind at 1. unfold get. rewrite Hknown.
      unfold bind at 1. unfold modify at 1. rewrite Hkeep. by eexists.
    - simpl. by rewrite obj_set_same. }
  destruct (g_patterns w) as [[a elems]|] eqn:Eps; simpl; rewrite Eps; simpl.
  2:{ exists 1, (setKnownBaseScope k st), w. split_and!; try done.
      - intros [|fuel] Hle; [lia|]. cbn [keepGrammar].
        unfold bind at 1. unfold get. rewrite Hknown.
        unfold bind at 1. unfold modify at 1. rewrite Hkeep, Eps.
        by eexists.
      - simpl. by rewrite obj_set_same. }
  unfold includeFreeGrammar in Hfree. simpl in Hfree. rewrite Eps in Hfree.
  simpl in Hfree. unfold readPatterns in Hfree. simpl in Hfree.
  rewrite lookup_empty in Hfree. simpl in Hfree.
  rewrite <- (length_map (readRule ∅) elems), omap_lookup_seq in Hfree.
  unfold addressesOfGrammar in Hnd, Hfresh. rewrite Eps in Hnd, Hfresh.
  assert (NoDup (a :: addressesOfRules elems)) as Hnd'
    by by apply NoDup_app in Hnd as (? & _).
  assert (Forall treePruned elems) as Htree.
  { pose proof (proj1 (forallb_forall _ _) Hfree) as Hall.
    apply Forall_forall. intros w' Hw'. apply keepRule_tree.
    - apply Hall, in_map. by apply list_elem_of_In.
    - apply NoDup_cons in Hnd' as [_ Hnd'].
      apply (NoDup_concat_elem _ _ Hnd').
      by apply list_elem_of_In, in_map, list_elem_of_In. }
  set (st2 := MkPState (store st) (s2g st) (scopes2keep st)
                ({[k]} ∪ knownBaseScopes st) (p2kObjects st ++ [∅])).
  destruct (keepPatterns_tree a elems st2 Htree Hnd')
    as (f1 & sto' & Hrun & Hframe & Hread).
  { intros a' Ha'. simpl. apply Hfresh. apply elem_of_app. by left. }
  simpl in Hrun, Hframe, Hread.
  set (kept := omap (prunedRule (scopes2keep st)) (map (readRule ∅) elems))
    in *.
  set (w' := MkGrammarOf (g_scopeName w) (Some (a, elems))
               ((λ _, []) <$> g_repository w)
               (g_fileTypes w) (g_firstLineMatch w) : WGrammar).
  assert (readPatterns ∅ (a, elems) = map (readRule ∅) elems) as ->.
  { unfold readPatterns. simpl. rewrite lookup_empty. simpl.
    by rewrite <- (length_map (readRule ∅) elems), omap_lookup_seq. }
  fold kept.
  exists (S f1),
    (MkPState sto' (obj_set k w' (s2g st))
       (<[k := 0 <? length kept]> (scopes2keep st))
       ({[k]} ∪ knownBaseScopes st) (p2kObjects st ++ [∅])), w'.
  split_and!; try done.
  - intros [|fuel] Hle; [lia|]. cbn [keepGrammar].
    unfold bind at 1. unfold get. rewrite Hknown.
    unfold bind at 1. unfold modify at 1. rewrite Hkeep, Eps.
    unfold bind at 1. unfold newPatterns2keep. simpl. fold st2.
    unfold bind at 1. rewrite Hrun by lia.
    unfold bind at 1. unfold get.
    eexists. subst w'. destruct (g_repository w) as [repo|] eqn:Erepo.
    + unfold bind at 1. unfold modify at 1.
      unfold bind at 1. unfold modify at 1. unfold ret. simpl.
      unfold setScopes2keep, setS2g, withStore. simpl.
      do 3 f_equal. f_equal. f_equal. f_equal.
      transitivity (foldl (λ (r : obj WRule) (aKeyRule : string * WRule),
                             obj_delete aKeyRule.1 r) repo repo).
      * apply foldl_same. intros r kv. unfold inPatterns2keep. simpl.
        rewrite lookup_app_r by done. rewrite Nat.sub_diag. simpl.
        done.
      * by apply foldl_delete_all.
    + unfold bind at 1. unfold ret at 1.
      unfold bind at 1. unfold modify at 1. unfold ret. simpl.
      unfold setScopes2keep, withStore. simpl. do 3 f_equal.
      symmetry. apply obj_set_same. rewrite Hget. f_equal.
      destruct w; simpl in *. by subst.
  - unfold readGrammar. simpl. rewrite Hread. f_equal.
    by destruct (g_repository w).
  - intros a'. unfold addressesOfGrammar. simpl. rewrite Eps.
    assert (default [] ((λ _ : obj WRule, []) <$> g_repository w) = [])
      as -> by by destruct (g_repository w).
    unfold addressesOfRules at 2. simpl. rewrite app_nil_r.
    intros Hin. apply (elem_of_app (a :: addressesOfRules elems)). by left.
  - intros a' Ha'. simpl. apply Hframe. intros Hin. apply Ha'.
    unfold addressesOfGrammar. rewrite Eps. apply elem_of_app. by left.
Qed.

(** ** All grammars *)

Lemma keepGrammars_tree (todo : obj WGrammar) :
  ∀ st,
    NoDup (obj_keys todo) →
    (∀ k, k ∈ obj_keys todo → k ∉ knownBaseScopes st) →
    (∀ k w, (k, w) ∈ todo → obj_get k (s2g st) = Some w) →
    NoDup (concat (map (λ kw, addressesOfGrammar kw.2) todo)) →
    (∀ a, a ∈ concat (map (λ kw, addressesOfGrammar kw.2) todo) →
          store st !! a = None) →
    Forall (λ kw, includeFreeGrammar (readGrammar ∅ kw.2) = true) todo →
    ∃ fuel0 st',
      (∀ fuel, fuel0 ≤ fuel → keepGrammars fuel todo st = Some (tt, st'))
      ∧ scopes2keep st'
        = (prunedGrammars (scopes2keep st)
             (map (λ kw, (kw.1, readGrammar ∅ kw.2)) todo)).2
      ∧ obj_keys (s2g st') = obj_keys (s2g st)
      ∧ (∀ k, k ∉ obj_keys todo → obj_get k (s2g st') = obj_get k (s2g st))
      ∧ (∀ a, a ∉ concat (map (λ kw, addressesOfGrammar kw.2) todo) →
              store st' !! a = store st !! a)
      ∧ Forall2 (λ kw pruned,
                   ∃ w', obj_get kw.1 (s2g st') = Some w'
                         ∧ pruned = (kw.1, readGrammar (store st') w'))
                todo
                (prunedGrammars (scopes2keep st)
                   (map (λ kw, (kw.1, readGrammar ∅ kw.2)) todo)).1.
Proof.
  induction todo as [|[k w] todo IH];
    intros st Hkeys Hnew Hget Hnd Hfresh Hfree.
  - exists 0, st. split_and!; done.
  - apply NoDup_cons in Hkeys as [Hk Hkeys].
    simpl in Hnd. apply NoDup_app in Hnd as (Hnd_w & Hapart & Hnd_rest).
    apply Forall_cons in Hfree as [Hfree_w Hfree_rest]. simpl in Hfree_w.
    destruct (keepGrammar_tree k w st Hfree_w Hnd_w)
      as (f1 & st1 & w1 & Hrun1 & Hknown1 & Hkeep1 & Hs2g1 & Hread1 & Haddr1
          & Hframe1).
    { intros a Ha. apply Hfresh. simpl. apply elem_of_app. by left. }
    { apply Hnew. by left. }
    { apply Hget. by left. }
    destruct (IH st1) as (f2 & st2 & Hrun2 & Hkeep2 & Hkeys2 & Hs2g2 & Hframe2
                          & Hread2).
    { done. }
    { intros k' Hk' Hin. apply Hknown1 in Hin.
      apply elem_of_union in Hin as [->%elem_of_singleton|Hin]; [done|].
      revert Hin. apply Hnew. by right. }
    { intros k' w' Hin. rewrite Hs2g1, obj_get_set_ne.
      - apply Hget. by right.
      - intros ->. apply Hk. apply list_elem_of_fmap. by exists (k', w'). }
    { done. }
    { intros a Ha. rewrite Hframe1.
      - apply Hfresh. simpl. apply elem_of_app. by right.
      - intros Hin. by apply (Hapart a). }
    { done. }
    exists (f1 `max` f2), st2. simpl.
    destruct (prunedGrammar (scopes2keep st) k (readGrammar ∅ w))
      as [pruned keep1] eqn:Epruned. simpl in Hkeep1, Hread1.
    rewrite Hkeep1 in Hkeep2, Hread2.
    destruct (prunedGrammars keep1 _) as [others keep2] eqn:Eothers.
    simpl in *. split_and!.
    + intros fuel Hle. unfold bind.
      destruct (Hrun1 fuel) as [r ->]; [lia|]. apply Hrun2. lia.
    + done.
    + rewrite Hkeys2, Hs2g1. apply obj_keys_set_in.
      eapply obj_get_Some_keys. apply Hget. by left.
    + intros k' Hk'. apply not_elem_of_cons in Hk' as [Hne Hk'].
      rewrite Hs2g2 by done. rewrite Hs2g1. by apply obj_get_set_ne.
    + intros a Ha. apply not_elem_of_app in Ha as [Ha_w Ha_rest].
      rewrite Hframe2 by done. by apply Hframe1.
    + constructor; [|done]. exists w1. simpl. split.
      * rewrite Hs2g2 by done. rewrite Hs2g1. apply obj_get_set_eq.
      * f_equal. rewrite <- Hread1. apply readGrammar_agree.
        intros a Ha. symmetry. apply Hframe2. intros Hin.
        apply (Hapart a); [by apply Haddr1|done].
Qed.

Lemma map_from_entries {V W} (F : V → W) (o0 o : obj V) (res : obj W) :
  obj_keys o = obj_keys o0 →
  Forall2 (λ kw kw', ∀ v, (kw.1, v) ∈ o → kw' = (kw.1, F v)) o0 res →
  map (λ kw, (kw.1, F kw.2)) o = res.
Proof.
  revert o res.
  induction o0 as [|[k0 v0] o0 IH]; intros o res Hkeys HF.
  - apply Forall2_nil_inv_l in HF as ->. by destruct o.
  - apply Forall2_cons_inv_l in HF as (kw' & res' & Hhead & HF & ->).
    destruct o as [|[k v] o]; [done|]. unfold obj_keys in Hkeys.
    rewrite !fmap_cons in Hkeys. simpl in *.
    injection Hkeys as -> Hkeys. f_equal.
    + symmetry. apply Hhead. by left.
    + apply IH; [done|]. eapply Forall2_impl; [done|]. simpl.
      intros kw kw'' Hkw v' Hin. apply Hkw. by right.
Qed.

Section TreeFacts.
Context `{Externals}.

(** X18.  Where no rule reached through [patterns] has an [include], the
    pruner is a function: with enough fuel [pruneGrammars] returns, and the
    working map and the keep-set it leaves are those of [prunedGrammars].
    Grammar by grammar in the order [Object.entries] lists the map: a
    grammar whose base scope is marked, or is the name of a member every
    object inherits, stays whole; in another one a rule stays as it is when
    the keep-set's answer for one of its scope or capture names is truthy (the
    name is marked, or it has no entry and is the name of such a member),
    stays with the nested patterns that stay when there are any, and goes
    otherwise; the repository is emptied; and the base scope is marked
    according to whether a pattern stays. *)
Theorem pruneGrammars_without_includes st scopes2keep :
  reachable st →
  Forall (λ kg, includeFreeGrammar kg.2 = true) (originalScope2grammar st) →
  ∃ fuel0, ∀ fuel, fuel0 ≤ fuel →
    pruneGrammars fuel scopes2keep st
    = Some (MkState
              (prunedGrammars scopes2keep (originalScope2grammar st)).1
              (originalScope2grammar st) (loadedGrammars st),
            (prunedGrammars scopes2keep (originalScope2grammar st)).2).
Proof.
  intros [[Hnd _] Hen]%reachable_wellformed Hfree.
  set (s2g0 := (copyOriginals (originalScope2grammar st)).1).
  pose proof (copyOriginals_keys _ Hnd Hen) as Hkeys0. fold s2g0 in Hkeys0.
  pose proof (copyOriginals_read _ Hnd Hen) as Hread0. fold s2g0 in Hread0.
  destruct (copyOriginals_fresh _ Hnd Hen) as (_ & Hnd_addr & _).
  fold s2g0 in Hnd_addr.
  destruct (keepGrammars_tree s2g0 (MkPState ∅ s2g0 scopes2keep ∅ []))
    as (fuel0 & pst & Hrun & Hkeep & Hkeys & _ & _ & Hread).
  { by rewrite Hkeys0. }
  { intros k _. apply not_elem_of_empty. }
  { intros k w Hin. simpl. apply elem_of_obj_get; [|done]. by rewrite Hkeys0. }
  { done. }
  { intros a _. simpl. apply lookup_empty. }
  { rewrite <- Hread0 in Hfree. apply Forall_forall. intros kw Hin.
    apply (proj1 (Forall_forall _ _) Hfree (kw.1, readGrammar ∅ kw.2)).
    apply list_elem_of_In, (in_map (λ kw, (kw.1, readGrammar ∅ kw.2))).
    by apply list_elem_of_In. }
  simpl in Hkeep, Hkeys, Hread. rewrite Hread0 in Hkeep, Hread.
  exists fuel0. intros fuel Hle. unfold pruneGrammars. fold s2g0.
  rewrite (Hrun fuel Hle). rewrite Hkeep. do 2 f_equal. f_equal.
  apply (map_from_entries _ s2g0); [done|].
  eapply Forall2_impl; [exact Hread|]. simpl.
  intros kw pruned (w' & Hget & ->) v Hin. f_equal.
  apply elem_of_obj_get in Hin; [|by rewrite Hkeys, Hkeys0].
  congruence.
Qed.

End TreeFacts.

Lemma pruneGrammars_without_includes_witness :
  ∃ fuel0, ∀ fuel, fuel0 ≤ fuel →
    pruneGrammars fuel {["kw.a" := true]} keywordsLoaded
    = Some (MkState
              (prunedGrammars {["kw.a" := true]}
                 (originalScope2grammar keywordsLoaded)).1
              (originalScope2grammar keywordsLoaded)
              (loadedGrammars keywordsLoaded),
            (prunedGrammars {["kw.a" := true]}
               (originalScope2grammar keywordsLoaded)).2).
Proof.
  apply (pruneGrammars_without_includes (H := externals) keywordsLoaded
           {["kw.a" := true]}).
  - apply keywordsLoaded_reachable.
  - repeat constructor.
Defined.

(** Rules named after members that every object inherits are kept by an
    empty keep-set, [scopes2keep["constructor"]] and [scopes2keep["toString"]]
    being functions; the rule named [kw.c] goes. *)
Example pruneGrammars_inherited_names :
  (λ r, (scope2grammar r.1, r.2 !! "t"))
    <$> pruneGrammars 10 ∅ (MkState [] [("t", inheritedNamesGrammar)] ∅)
  = Some ([("t", MkGrammarOf (Some "t")
                   (Some [matchRule "a" "constructor"; matchRule "b" "toString"])
                   None None None)],
          Some true).
Proof. vm_compute. reflexivity. Qed.

(** A grammar whose base scope is such a name counts as visited from the
    start: it is left as it is, and nothing is written to the keep-set. *)
Example pruneGrammars_inherited_scope :
  pruneGrammars 10 ∅ (MkState [] [("toString", inheritedScopeGrammar)] ∅)
  = Some (MkState [("toString", inheritedScopeGrammar)]
                  [("toString", inheritedScopeGrammar)] ∅,
          ∅).
Proof. vm_compute. reflexivity. Qed.

(** * The loader of [src/grammars.mjs], called twice *)

Section LegacyLoadTwice.
Context `{Externals}.

(** X19.  The loader of [src/grammars.mjs] keeps no record of the paths it
    has loaded: a second call for the same file reads it again, leaves both
    maps as the first call left them, and this time warns that it is
    over-writing the grammar. *)
Theorem loadGrammarFrom_v0_twice st aGrammarPath verbose aGrammar :
  consistent st →
  endsWith aGrammarPath ".json" = true →
  readGrammarFile (Config_normalizePath aGrammarPath) = Some aGrammar →
  truthyStr (g_scopeName aGrammar) = true →
  ∃ st1 log1 log2,
    GrammarsV0.loadGrammarFrom aGrammarPath verbose st = Returned (st1, log1)
    ∧ GrammarsV0.loadGrammarFrom aGrammarPath verbose st1
      = Returned (st1, log2)
    ∧ Log LWarn ("WARNING: you are over-writing an existing "
                 +:+ propKey (g_scopeName aGrammar) +:+ " grammar") ∈ log2.
Proof.
  intros Hc Hjson Hread Htruthy. unfold GrammarsV0.loadGrammarFrom.
  rewrite Hjson, Hread.
  destruct (registerGrammar_rebuilds aGrammar st Hc) as [Hreg Hnd].
  rewrite Htruthy in Hreg, Hnd.
  set (k := propKey (g_scopeName aGrammar)) in *.
  set (originals := obj_set k aGrammar (originalScope2grammar st)) in *.
  destruct (registerGrammar aGrammar st) as [st1 log1]. simpl in Hreg.
  subst st1. eexists _, _, _. split; [done|].
  assert (consistent (MkState originals originals (loadedGrammars st)))
    as Hc1 by by split.
  destruct (registerGrammar_rebuilds aGrammar _ Hc1) as [Hreg1 _].
  rewrite Htruthy in Hreg1. simpl in Hreg1. fold k in Hreg1.
  assert (obj_get k originals = Some aGrammar) as Hget
    by apply obj_get_set_eq.
  rewrite (obj_set_same k aGrammar originals Hget) in Hreg1.
  unfold registerGrammar in *. rewrite Htruthy in *. simpl in *.
  fold k in Hreg1 |- *. unfold hasGrammar. rewrite Hget. rewrite Hreg1.
  split; [done|]. apply elem_of_app. right. by left.
Qed.

End LegacyLoadTwice.

Lemma loadGrammarFrom_v0_twice_witness :
  ∃ st1 log1 log2,
    GrammarsV0.loadGrammarFrom (H := externals) "keywords.json" true initial
    = Returned (st1, log1)
    ∧ GrammarsV0.loadGrammarFrom (H := externals) "keywords.json" true st1
      = Returned (st1, log2)
    ∧ Log LWarn ("WARNING: you are over-writing an existing "
                 +:+ propKey (g_scopeName keywordGrammar) +:+ " grammar")
      ∈ log2.
Proof.
  apply (loadGrammarFrom_v0_twice (H := externals) initial "keywords.json"
           true keywordGrammar).
  - split; [apply NoDup_nil_2|reflexivity].
  - reflexivity.
  - reflexivity.
  - reflexivity.
Defined.

(** * The tracer: the tokens a handler is given *)

Section TokenFacts.
Context `{Externals} {V : Type}.
Implicit Types (p : Progress (V := V)) (config : Config).
Implicit Types (scopesWithActions : obj (list (Action (V := V)))).

Lemma visitScopes_bucket config scopesWithActions showLine aLine aToken acc
  aScope :
  is_Some (obj_get aScope scopesWithActions) →
  default [] (obj_get aScope
                (visitScopes config scopesWithActions showLine aLine aToken
                   acc).1)
  = default [] (obj_get aScope acc.1) ++ tokensFor aScope aLine [aToken].
Proof.
  intros Hreg. unfold visitScopes, tokensFor. simpl. rewrite app_nil_r.
  revert acc. induction (scopes aToken) as [|itsScope l IH]; intros acc.
  - simpl. by rewrite app_nil_r.
  - simpl. rewrite IH. destruct acc as [scopes2run out].
    destruct (traceObj _ _ _) as [showScope out1]. simpl.
    rewrite app_assoc. f_equal.
    destruct (String.eqb itsScope aScope) eqn:E.
    + apply String.eqb_eq in E as ->. destruct Hreg as [acts ->].
      by rewrite obj_get_set_eq.
    + apply String.eqb_neq in E. rewrite app_nil_r.
      destruct (obj_get itsScope scopesWithActions); [|done].
      by rewrite obj_get_set_ne.
Qed.

Lemma visitTokens_bucket config scopesWithActions showLine aLine someTokens
  aScope :
  is_Some (obj_get aScope scopesWithActions) →
  default [] (obj_get aScope
                (visitTokens config scopesWithActions showLine aLine
                   someTokens).1)
  = tokensFor aScope aLine someTokens.
Proof.
  intros Hreg. unfold visitTokens.
  change (tokensFor aScope aLine someTokens)
    with (default [] (obj_get aScope (@nil (string * list string), @nil LogEntry).1)
          ++ tokensFor aScope aLine someTokens).
  generalize (@nil (string * list string), @nil LogEntry).
  induction someTokens as [|aToken l IH]; intros acc.
  - simpl. by rewrite app_nil_r.
  - simpl. rewrite IH, visitScopes_bucket by done. simpl.
    rewrite <- app_assoc. f_equal. unfold tokensFor. simpl.
    by rewrite app_nil_r.
Qed.

Lemma visitTokens_NoDup config scopesWithActions showLine aLine someTokens :
  NoDup (obj_keys (visitTokens config scopesWithActions showLine aLine
                     someTokens).1).
Proof.
  unfold visitTokens.
  apply (foldl_invariant
           (λ acc : obj (list string) * list LogEntry, NoDup (obj_keys acc.1)));
    [apply NoDup_nil_2|].
  intros acc aToken Hacc. unfold visitScopes.
  apply (foldl_invariant
           (λ acc : obj (list string) * list LogEntry, NoDup (obj_keys acc.1)));
    [done|].
  intros [s2r out] aScope Hs2r. destruct (traceObj _ _ _) as [showScope out1].
  simpl in *. destruct (obj_get aScope scopesWithActions); [|done].
  by apply obj_set_NoDup.
Qed.

Lemma traceLinesFrom_tokens config scopesWithActions structureNames st
  aBaseScope aDoc someLines lineNum ruleStack p :
  ∃ extra,
    calls (outcome (traceLinesFrom config scopesWithActions structureNames st
                      aBaseScope aDoc someLines lineNum ruleStack p))
    = calls p ++ extra
    ∧ Forall (λ aCall,
                ∃ aLine aRuleStack,
                  lineNum ≤ i_lineNum aCall.2
                  ∧ someLines !! (i_lineNum aCall.2 - lineNum) = Some aLine
                  ∧ i_tokens aCall.2
                    = tokensFor (i_scope aCall.2) aLine
                        (tokenizeLine (scope2grammar st) aBaseScope aLine
                           aRuleStack).1)
             extra.
Proof.
  revert lineNum ruleStack p.
  induction someLines as [|aLine rest IH]; intros lineNum ruleStack p.
  - exists []. simpl. by rewrite app_nil_r.
  - cbn [traceLinesFrom].
    destruct (tokenizeLine (scope2grammar st) aBaseScope aLine ruleStack)
      as [someTokens ruleStack'] eqn:Etok.
    destruct (traceObj config (traceLines config) aLine) as [showLine out1].
    pose proof (visitTokens_buckets_filled config scopesWithActions showLine
                  aLine someTokens) as Hfilled.
    pose proof (visitTokens_NoDup config scopesWithActions showLine aLine
                  someTokens) as Hnd.
    pose proof (λ aScope, visitTokens_bucket config scopesWithActions showLine
                            aLine someTokens aScope) as Hbucket.
    destruct (visitTokens _ _ _ _ _) as [scopes2run out2]. simpl in *.
    set (p1 := say out2 _).
    assert (calls p1 = calls p) as Hp1 by (subst p1; by destruct showLine).
    destruct (dispatch_calls config scopesWithActions structureNames showLine
                lineNum aDoc scopes2run p1) as (mine & Hcalls & Hmine).
    assert (Forall (λ aCall,
                ∃ aLine0 aRuleStack,
                  lineNum ≤ i_lineNum aCall.2
                  ∧ (aLine :: rest) !! (i_lineNum aCall.2 - lineNum)
                    = Some aLine0
                  ∧ i_tokens aCall.2
                    = tokensFor (i_scope aCall.2) aLine0
                        (tokenizeLine (scope2grammar st) aBaseScope aLine0
                           aRuleStack).1)
              mine) as Hmine'.
    { eapply Forall_impl; [exact Hmine|]. simpl.
      intros c (Hn & _ & _ & Hin & _). exists aLine, ruleStack.
      rewrite Hn, Nat.sub_diag, Etok. simpl. split_and!; [done..|].
      destruct (proj1 (Forall_forall _ _) Hfilled _ Hin) as [Hreg _].
      simpl in Hreg. rewrite <- (Hbucket _ Hreg).
      by rewrite (elem_of_obj_get _ _ _ Hnd Hin). }
    destruct (dispatch _ _ _ _ _ _ _ p1) as [p2|p2]; cbn [outcome] in Hcalls;
      cbn beta iota.
    + destruct (IH (S lineNum) ruleStack' p2) as (extra & -> & Hextra).
      exists (mine ++ extra). rewrite Hcalls, Hp1, <- app_assoc.
      split; [done|]. apply Forall_app. split; [done|].
      eapply Forall_impl; [exact Hextra|]. simpl.
      intros c (aLine0 & aRuleStack & Hle & Hlook & Htoks).
      exists aLine0, aRuleStack. split_and!; [lia| |done].
      replace (i_lineNum c.2 - lineNum) with (S (i_lineNum c.2 - S lineNum))
        by lia. done.
    + exists mine. simpl. by rewrite Hcalls, Hp1.
Qed.

(** X20.  What a handler is given as tokens: the texts of the tokens of its
    line that carry the handler's scope, in the order of the tokens and once
    for every time the scope is among a token's scopes, the line being the
    one with the number the handler is given, tokenized with the base scope
    that [chooseBaseScope] returned. *)
Theorem traceParseOf_tokens aDocPath config scopesWithActions st documents
  structs aDoc documents' :
  DocumentCache.loadFromFile aDocPath documents = Some (aDoc, documents') →
  let p := (outcome (traceParseOf aDocPath config scopesWithActions st
                       documents structs)).1 in
  Forall (λ aCall,
            ∃ aBaseScope aLine aRuleStack,
              chooseBaseScope st (DocumentCache.filePath aDoc)
                (default "" (head (DocumentCache.docLines aDoc)))
              = Some aBaseScope
              ∧ DocumentCache.docLines aDoc !! i_lineNum aCall.2 = Some aLine
              ∧ i_tokens aCall.2
                = tokensFor (i_scope aCall.2) aLine
                    (tokenizeLine (scope2grammar st) aBaseScope aLine
                       aRuleStack).1)
         (calls p).
Proof.
  intros Hload. unfold traceParseOf. rewrite Hload.
  destruct (chooseBaseScope _ _ _) as [aBaseScope|]; simpl; [|constructor].
  destruct (negb (String.eqb aBaseScope "")); simpl; [|constructor].
  set (p0 := say _ _).
  destruct (traceLinesFrom_tokens config scopesWithActions
              (Structures.getStructureNames structs) st aBaseScope aDoc
              (DocumentCache.docLines aDoc) 0 INITIAL p0)
    as (extra & Hcalls & Hextra).
  assert (calls (outcome (traceLinesFrom config scopesWithActions
              (Structures.getStructureNames structs) st aBaseScope aDoc
              (DocumentCache.docLines aDoc) 0 INITIAL p0)) = extra) as Heq
    by by rewrite Hcalls.
  destruct (traceLinesFrom _ _ _ _ _ _ _ _ _ _) as [p|p]; simpl in *;
    rewrite Heq; (eapply Forall_impl; [exact Hextra|]); simpl;
    intros c (aLine & aRuleStack & _ & Hlook & Htoks);
    exists aBaseScope, aLine, aRuleStack;
    rewrite Nat.sub_0_r in Hlook; done.
Qed.

End TokenFacts.

Lemma traceParseOf_tokens_witness :
  let p := (outcome (traceParseOf (H := externals) "run" traceAll
                       scopesWithActions shellsLoaded cached outlined)).1 in
  Forall (λ aCall,
            ∃ aBaseScope aLine aRuleStack,
              chooseBaseScope (H := externals) shellsLoaded
                (DocumentCache.filePath runDocument)
                (default "" (head (DocumentCache.docLines runDocument)))
              = Some aBaseScope
              ∧ DocumentCache.docLines runDocument !! i_lineNum aCall.2
                = Some aLine
              ∧ i_tokens aCall.2
                = tokensFor (i_scope aCall.2) aLine
                    (tokenizeLine (Externals := externals)
                       (scope2grammar shellsLoaded) aBaseScope aLine
                       aRuleStack).1)
         (calls p).
Proof.
  eapply (traceParseOf_tokens (H := externals) "run" traceAll
            scopesWithActions shellsLoaded cached outlined runDocument).
  reflexivity.
Defined.

(** * Grammars whose base scope is marked *)

Section Marked.
Context (marked : string → Prop) (allowed : nat → Prop).







End Marked.




Section MarkedFacts.
Context `{Externals}.


End MarkedFacts.

